(** * lob-sdk: vectors, Vector2Set, PriorityQueue, EventEmitter,
    Douglas-Peucker, utilities

    A shallow embedding of the algorithmic core of the SDK and the
    properties stated about it.

    JavaScript numbers are IEEE 754 binary64 values.  They are embedded as
    [spec_float] with precision 53 and maximal exponent 1024, the executable
    specification of binary64 shipped with the standard library: NaN, the two
    infinities, the two zeros and correctly rounded arithmetic are all
    present, so [NaN > x], [0 / 0] and [Infinity - Infinity] behave as they
    do in the engine.

    Part I holds the embedding (definitions only), Part II the proofs. *)

From Stdlib Require Import ZArith Bool List Lia ZifyNat String Ascii.
From Stdlib Require Import Floats.SpecFloat.
From Stdlib Require Import Sorting.Sorted Sorting.Permutation.
From stdpp Require Import base list strings pretty.

Import ListNotations.
Local Open Scope Z_scope.

(* ===================================================================== *)
(** * Part I: the embedding                                               *)
(* ===================================================================== *)

(** ** JavaScript numbers *)

Module Num.

Definition prec : Z := 53.
Definition emax : Z := 1024.

Definition number : Type := spec_float.

Definition NaN : number := S754_nan.
Definition Infinity : number := S754_infinity false.
Definition zero : number := S754_zero false.
Definition neg_zero : number := S754_zero true.

(** The number [m * 2^e], rounded to nearest-even when it is not
    representable. *)
Definition of_dyadic (m e : Z) : number := binary_normalize prec emax m e false.

(** An integer literal, or an integer such as [array.length] used as a
    number. *)
Definition of_Z (z : Z) : number := of_dyadic z 0.

Definition add : number -> number -> number := SFadd prec emax.
Definition sub : number -> number -> number := SFsub prec emax.
Definition mul : number -> number -> number := SFmul prec emax.
Definition div : number -> number -> number := SFdiv prec emax.
Definition sqrt : number -> number := SFsqrt prec emax.
Definition abs : number -> number := SFabs.

(** [x ** 2], the correctly rounded square. *)
Definition sq (x : number) : number := mul x x.

(** A decimal literal [d / 10^k] with [d] and [10^k] below [2^53]: the
    correctly rounded quotient is the binary64 value nearest to the
    decimal, which is what the literal denotes. *)
Definition decimal (d : Z) (k : nat) : number :=
  div (of_Z d) (of_Z (10 ^ Z.of_nat k)).

(** Comparisons.  Every comparison with NaN is false. *)
Definition lt (a b : number) : bool := SFltb a b.       (* a < b  *)
Definition gt (a b : number) : bool := SFltb b a.       (* a > b  *)
Definition le (a b : number) : bool := SFleb a b.       (* a <= b *)
Definition ge (a b : number) : bool := SFleb b a.       (* a >= b *)
Definition strict_eq (a b : number) : bool := SFeqb a b. (* a === b *)

Definition is_nan (a : number) : bool :=
  match a with S754_nan => true | _ => false end.

(** Every number the engine holds is a canonical binary64 value. *)
Definition valid (a : number) : bool := valid_binary prec emax a.

(** A number that takes part in numeric ordering. *)
Definition ordered (a : number) : bool := valid a && negb (is_nan a).

(** Two coordinates are identical when they are the same value or
    compare equal with [===] (which also identifies [0] and [-0]). *)
Definition identical (a b : number) : Prop := a = b \/ strict_eq a b = true.

(** Zero of either sign, or NaN. *)
Definition null (v : number) : bool :=
  match v with S754_zero _ | S754_nan => true | _ => false end.

(** Positive zero, or NaN. *)
Definition pnull (v : number) : bool :=
  match v with S754_zero false | S754_nan => true | _ => false end.

(** [a <= b] as a proposition. *)
Definition lenum (a b : number) : Prop := le a b = true.

(** A value with sign bit [s] that is neither a zero nor NaN. *)
Definition signed (s : bool) (v : number) : Prop :=
  match v with
  | S754_finite s' _ _ | S754_infinity s' => s' = s
  | _ => False
  end.

(** The contract of a comparator: on numbers other than NaN, the two
    tests the heap and the sort make on its result, [>= 0] and [< 0],
    agree with the numeric order. *)
Definition respects (compare : number -> number -> number) : Prop :=
  forall a b, ordered a = true -> ordered b = true ->
    (ge (compare a b) zero = true -> le b a = true)
    /\ (ge (compare a b) zero = false -> le a b = true)
    /\ (lt (compare a b) zero = true -> le a b = true)
    /\ (lt (compare a b) zero = false -> le b a = true).

(** [Math.PI], the binary64 value 0x400921FB54442D18. *)
Definition PI : number := S754_finite false 7074237752028440 (-51).

(** The [%] operator (Number::remainder): the result has the sign of the
    dividend and is exact. *)
Definition rem (n d : number) : number :=
  match n, d with
  | S754_nan, _ | _, S754_nan => NaN
  | S754_infinity _, _ => NaN
  | _, S754_zero _ => NaN
  | _, S754_infinity _ => n
  | S754_zero _, _ => n
  | S754_finite sn mn en, S754_finite _ md ed =>
      let e := Z.min en ed in
      let r := Z.modulo (Z.shiftl (Zpos mn) (en - e)) (Z.shiftl (Zpos md) (ed - e)) in
      if r =? 0 then S754_zero sn
      else binary_normalize prec emax (if sn then - r else r) e false
  end.

(** [Math.round]: the nearest integer, ties toward +Infinity; a result of
    zero keeps the sign of the argument. *)
Definition round (x : number) : number :=
  match x with
  | S754_finite s m e =>
      if 0 <=? e then x
      else
        let sm := if s then Zneg m else Zpos m in
        let n := Z.shiftr (2 * sm + Z.shiftl 1 (- e)) (1 - e) in
        if n =? 0 then S754_zero s else of_Z n
  | _ => x
  end.

(** Unary minus. *)
Definition neg (a : number) : number := SFopp a.

(** NaN, or a value whose sign bit is clear: a number that is never
    below zero and is not [-0]. *)
Definition nonneg (v : number) : bool :=
  match v with
  | S754_nan => true
  | S754_zero s | S754_infinity s | S754_finite s _ _ => negb s
  end.

(** A zero or a finite non-zero value: neither NaN nor an infinity. *)
Definition is_finite (v : number) : bool :=
  match v with
  | S754_zero _ | S754_finite _ _ _ => true
  | _ => false
  end.

End Num.

Export Num(number).

(** ** The functions of [Math] on two arguments *)

Module Math.
Import Num.

(** [Math.max(a, b)]: NaN if either argument is NaN; [+0] counts as
    larger than [-0]. *)
Definition max (a b : number) : number :=
  if is_nan a || is_nan b then NaN
  else if lt a b then b
  else if lt b a then a
  else match a with S754_zero true => b | _ => a end.

(** [Math.min(a, b)]: NaN if either argument is NaN; [-0] counts as
    smaller than [+0]. *)
Definition min (a b : number) : number :=
  if is_nan a || is_nan b then NaN
  else if lt a b then a
  else if lt b a then b
  else match a with S754_zero false => b | _ => a end.

End Math.

(** ** The [Point2] interface: anything exposing numeric [x] and [y] *)

Class Point2 (T : Type) : Type := {
  x : T -> number;
  y : T -> number
}.

(** A plain [{x, y}] record. *)
Record point : Type := Point { point_x : number; point_y : number }.

#[export] Instance point_Point2 : Point2 point :=
  {| x := point_x; y := point_y |}.

(** ** Arrays *)

Module JsArray.

(** [Array.prototype.slice(start, end)]: negative positions count from the
    end, and both are clamped to the array. *)
Definition position {A} (l : list A) (i : Z) : nat :=
  let len := Z.of_nat (length l) in
  Z.to_nat (if i <? 0 then Z.max (len + i) 0 else Z.min i len).

Definition slice {A} (l : list A) (start end_ : Z) : list A :=
  let k := position l start in
  take (position l end_ - k)%nat (drop k l).

(** [slice(start)] with the end omitted. *)
Definition slice_from {A} (l : list A) (start : Z) : list A :=
  slice l start (Z.of_nat (length l)).

End JsArray.

(** ** Path simplification (Douglas-Peucker) *)

Module DouglasPeucker.
Import Num JsArray.

Section Simplify.
Context {T : Type} `{Point2 T}.

Definition perpendicularDistance (point lineStart lineEnd : T) : number :=
  let x0 := x point in
  let y0 := y point in
  let x1 := x lineStart in
  let y1 := y lineStart in
  let x2 := x lineEnd in
  let y2 := y lineEnd in
  let num :=
    abs (sub (add (sub (mul (sub y2 y1) x0) (mul (sub x2 x1) y0))
                  (mul x2 y1))
             (mul y2 x1)) in
  let den := sqrt (add (sq (sub y2 y1)) (sq (sub x2 x1))) in
  div num den.

(** The [for] loop of [findFurthestPoint]: [n] iterations remain, [i] is
    the loop index, [(maxDist, index)] the two locals. *)
Fixpoint furthestLoop (path : list T) (start end_ : T) (n : nat) (i : nat)
    (maxDist : number) (index : Z) : number * Z :=
  match n with
  | O => (maxDist, index)
  | S n' =>
      match path !! i with
      | Some p =>
          let dist := perpendicularDistance p start end_ in
          if gt dist maxDist
          then furthestLoop path start end_ n' (S i) dist (Z.of_nat i)
          else furthestLoop path start end_ n' (S i) maxDist index
      | None => (maxDist, index)
      end
  end.

(** The same loop seen on the list of distances of the interior
    points, used to reason about it. *)
Fixpoint scan (dists : list number) (i : nat) (maxDist : number) (index : Z)
    : number * Z :=
  match dists with
  | [] => (maxDist, index)
  | d :: ds =>
      if gt d maxDist then scan ds (S i) d (Z.of_nat i)
      else scan ds (S i) maxDist index
  end.

Definition dists (start end_ : T) (mid : list T) : list number :=
  map (fun p => perpendicularDistance p start end_) mid.

Definition findFurthestPoint (path : list T) (epsilon : number) : Z :=
  match head path, last path with
  | Some start, Some end_ =>
      let '(maxDist, index) :=
        furthestLoop path start end_ (length path - 2) 1
                     (of_Z (-1)) (-1) in
      if gt maxDist epsilon then index else -1
  | _, _ => -1
  end.

(** The recursion of [douglasPeucker]; every call is on a strictly
    shorter path, so [fuel] bounds the depth. *)
Fixpoint simplify (fuel : nat) (path : list T) (epsilon : number) : list T :=
  if (length path <? 3)%nat then path
  else
    match fuel with
    | O => path
    | S fuel' =>
        let index := findFurthestPoint path epsilon in
        if index =? -1 then
          match head path, last path with
          | Some first, Some last_ => [first; last_]
          | _, _ => path
          end
        else
          let left := simplify fuel' (slice path 0 (index + 1)) epsilon in
          let right := simplify fuel' (slice_from path index) epsilon in
          slice left 0 (-1) ++ right
    end.

Definition douglasPeucker (path : list T) (epsilon : number) : list T :=
  simplify (length path) path epsilon.

End Simplify.

(** The default tolerance. *)
Definition default_epsilon : number := decimal 5 1.

(** Two sample paths: one that bends away from its chord by 0.3, 0.6 and
    0.9, and a closed one that returns to its starting point. *)
Definition sample_path : list point :=
  [Point (of_Z 0) (of_Z 0); Point (of_Z 1) (decimal 3 1);
   Point (of_Z 2) (decimal 6 1); Point (of_Z 3) (decimal 9 1);
   Point (of_Z 4) (of_Z 0)].

Definition closed_path : list point :=
  [Point (of_Z 0) (of_Z 0); Point (of_Z 1) (of_Z 5);
   Point (of_Z 2) (of_Z 1); Point (of_Z 0) (of_Z 0)].

End DouglasPeucker.

(** ** PriorityQueue *)

Module PriorityQueue.
Import Num.

(** The bitwise operators work on 32-bit signed integers. *)
Definition to_int32 (z : Z) : Z := (z + 2 ^ 31) mod 2 ^ 32 - 2 ^ 31.

(** [a >> k] and [a << k] for [0 <= k < 32]. *)
Definition sar (a k : Z) : Z := Z.shiftr (to_int32 a) k.
Definition shl (a k : Z) : Z := to_int32 (Z.shiftl (to_int32 a) k).

Record entry (T : Type) : Type := Entry { item : T; priority : number }.
Arguments Entry {T} _ _.
Arguments item {T} _.
Arguments priority {T} _.

Record queue (T : Type) : Type := Queue {
  items : list (entry T);
  compare : number -> number -> number
}.
Arguments Queue {T} _ _.
Arguments items {T} _.
Arguments compare {T} _.

(** The default comparator [(a, b) => a - b]. *)
Definition default_compare (a b : number) : number := sub a b.

(** A comparator a caller passes for a max-heap, [(a, b) => b - a]. *)
Definition descending_compare (a b : number) : number := sub b a.

Definition create {T} (compare : number -> number -> number) : queue T :=
  Queue [] compare.

Section Heap.
Context {T : Type}.
Implicit Types (q : queue T) (arr : list (entry T)).

(** [items[i]] for an integer index; out of range reads [undefined]. *)
Definition at_ arr (i : Z) : option (entry T) :=
  if i <? 0 then None else arr !! Z.to_nat i.

(** [items[i] = e] for an index inside the array. *)
Definition set_ arr (i : Z) (e : entry T) : list (entry T) :=
  <[Z.to_nat i := e]> arr.

(** The [while (current > 0)] loop; [fuel] bounds the iterations. *)
Fixpoint heapifyUpLoop (compare : number -> number -> number) (fuel : nat)
    arr (current : Z) : list (entry T) :=
  match fuel with
  | O => arr
  | S fuel' =>
      if 0 <? current then
        let parent := sar (current - 1) 1 in
        match at_ arr current, at_ arr parent with
        | Some c, Some p =>
            if ge (compare (priority c) (priority p)) zero then arr
            else
              let arr := set_ arr current p in
              let arr := set_ arr parent c in
              heapifyUpLoop compare fuel' arr parent
        | _, _ => arr
        end
      else arr
  end.

Definition heapifyUp compare arr (index : Z) : list (entry T) :=
  heapifyUpLoop compare (length arr) arr index.

(** The [while (true)] loop of [heapifyDown]. *)
Fixpoint heapifyDownLoop (compare : number -> number -> number) (fuel : nat)
    arr (current : Z) : list (entry T) :=
  match fuel with
  | O => arr
  | S fuel' =>
      let length := Z.of_nat (length arr) in
      let left := shl current 1 + 1 in
      let right := left + 1 in
      let smallest := current in
      let smallest :=
        match at_ arr left, at_ arr smallest with
        | Some l, Some s =>
            if (left <? length) && lt (compare (priority l) (priority s)) zero
            then left else smallest
        | _, _ => smallest
        end in
      let smallest :=
        match at_ arr right, at_ arr smallest with
        | Some r, Some s =>
            if (right <? length) && lt (compare (priority r) (priority s)) zero
            then right else smallest
        | _, _ => smallest
        end in
      if smallest =? current then arr
      else
        match at_ arr current, at_ arr smallest with
        | Some c, Some s =>
            let arr := set_ arr current s in
            let arr := set_ arr smallest c in
            heapifyDownLoop compare fuel' arr smallest
        | _, _ => arr
        end
  end.

Definition heapifyDown compare arr (index : Z) : list (entry T) :=
  heapifyDownLoop compare (length arr) arr index.

Definition enqueue q (item : T) (priority : number) : queue T :=
  let arr := items q ++ [Entry item priority] in
  Queue (heapifyUp (compare q) arr (Z.of_nat (length arr) - 1)) (compare q).

Definition dequeue q : option T * queue T :=
  let length := length (items q) in
  if (length =? 0)%nat then (None, q)
  else
    match items q !! 0%nat with
    | None => (None, q)
    | Some root =>
        if (length =? 1)%nat then
          (Some (item root), Queue (removelast (items q)) (compare q))
        else
          match last (items q) with
          | None => (None, q)
          | Some last_ =>
              let arr := removelast (items q) in
              let arr := set_ arr 0 last_ in
              (Some (item root), Queue (heapifyDown (compare q) arr 0) (compare q))
          end
    end.

Definition peek q : option T :=
  if (0 <? length (items q))%nat then item <$> (items q !! 0%nat) else None.

Definition isEmpty q : bool := (length (items q) =? 0)%nat.

Definition size q : nat := length (items q).

Definition clear q : queue T := Queue [] (compare q).

(** A client feeding a list of (item, priority) pairs to [enqueue]. *)
Definition enqueueAll q (l : list (T * number)) : queue T :=
  fold_left (fun q p => enqueue q (fst p) (snd p)) l q.

(** A client calling [dequeue] until [isEmpty]; at most [fuel] calls. *)
Fixpoint drain (fuel : nat) q : list T * queue T :=
  match fuel with
  | O => ([], q)
  | S fuel' =>
      if isEmpty q then ([], q)
      else
        match dequeue q with
        | (Some t, q') => let '(out, q'') := drain fuel' q' in (t :: out, q'')
        | (None, q') => ([], q')
        end
  end.

Definition dequeueAll q : list T * queue T := drain (size q) q.

(** A client's call, [enqueue(item, priority)] or [dequeue()], and a
    sequence of such calls made one after the other on the same queue;
    [run] returns what the calls to [dequeue] returned, in order, and the
    queue the calls leave. *)
Inductive call : Type :=
| Enqueue (item : T) (priority : number)
| Dequeue.

Fixpoint run q (calls : list call) : list (option T) * queue T :=
  match calls with
  | [] => ([], q)
  | Enqueue item priority :: rest => run (enqueue q item priority) rest
  | Dequeue :: rest =>
      let '(r, q') := dequeue q in
      let '(out, q'') := run q' rest in
      (r :: out, q'')
  end.

(** A call whose priority, if it has one, is a number other than NaN. *)
Definition admissible (c : call) : Prop :=
  match c with
  | Enqueue _ p => ordered p = true
  | Dequeue => True
  end.

(** The number of [enqueue] calls in a sequence. *)
Definition enqueued (calls : list call) : nat :=
  List.length (List.filter (fun c => match c with Enqueue _ _ => true | Dequeue => false end) calls).

(** The entry with its priority negated: a queue ordered by
    [descending_compare] handles its entries as a queue ordered by
    [default_compare] handles the negated ones. *)
Definition negated (e : entry T) : entry T :=
  Entry (item e) (neg (priority e)).

(** *** The heap invariant *)

Definition lep (e1 e2 : entry T) : Prop :=
  le (priority e1) (priority e2) = true.

(** The entry at [j] is not below its parent at [(j - 1) / 2]. *)
Definition heap_at arr (j : nat) : Prop :=
  forall ej ep, (0 < j)%nat ->
    arr !! j = Some ej -> arr !! ((j - 1) / 2)%nat = Some ep -> lep ep ej.

Definition heap arr : Prop := forall j, heap_at arr j.

(** The entry at [c] and its grandparent-side neighbours: whoever sits
    above [c] is not above the children of [c]. *)
Definition spans arr (c : nat) : Prop :=
  forall j ej eg, (0 < c)%nat -> (0 < j)%nat -> ((j - 1) / 2)%nat = c ->
    arr !! j = Some ej -> arr !! ((c - 1) / 2)%nat = Some eg -> lep eg ej.

(** While sifting up from [c]: only the edge from [c] to its parent may
    be out of order. *)
Definition up_inv arr (c : nat) : Prop :=
  (forall j, j <> c -> heap_at arr j) /\ spans arr c.

(** While sifting down from [c]: only the edges from [c] to its
    children may be out of order. *)
Definition down_inv arr (c : nat) : Prop :=
  (forall j, ((j - 1) / 2)%nat <> c -> heap_at arr j) /\ spans arr c.

(** The choice of [smallest] made by one round of [heapifyDown]. *)
Definition pick (compare : number -> number -> number) arr (current : Z) : Z :=
  let length := Z.of_nat (length arr) in
  let left := shl current 1 + 1 in
  let right := left + 1 in
  let smallest := current in
  let smallest :=
    match at_ arr left, at_ arr smallest with
    | Some l, Some s =>
        if (left <? length) && lt (compare (priority l) (priority s)) zero
        then left else smallest
    | _, _ => smallest
    end in
  match at_ arr right, at_ arr smallest with
  | Some r, Some s =>
      if (right <? length) && lt (compare (priority r) (priority s)) zero
      then right else smallest
  | _, _ => smallest
  end.

Definition priorities_ordered arr : Prop :=
  Forall (fun e => ordered (priority e) = true) arr.

End Heap.

End PriorityQueue.

(** ** The object store

    [Vector2], [Vector3] and arrays are mutable objects handled by
    reference: [new] allocates a fresh reference, and a method that returns
    [this] returns the reference it was called on. *)

Module Store.

Inductive object : Type :=
| OVector2 (x y : number)
| OVector3 (x y z : number)
| OArray (elems : list number).

Abbreviation ref := nat (only parsing).
Abbreviation store := (list object) (only parsing).

(** A computation either returns a value and a store or throws an
    [Error] with a message. *)
Inductive result (A : Type) : Type :=
| Return (a : A) (s : store)
| Throw (message : string).
Arguments Return {A} _ _.
Arguments Throw {A} _.

Definition M (A : Type) : Type := store -> result A.

Definition ret {A} (a : A) : M A := fun s => Return a s.

Definition bind {A B} (c : M A) (k : A -> M B) : M B :=
  fun s => match c s with
           | Return a s' => k a s'
           | Throw msg => Throw msg
           end.

Definition throw {A} (message : string) : M A := fun _ => Throw message.

(** [new C(...)]: the object is placed at a reference not in use. *)
Definition alloc (o : object) : M ref :=
  fun s => Return (length s) (s ++ [o]).

Definition read (r : ref) : M object :=
  fun s => match s !! r with
           | Some o => Return o s
           | None => Throw "TypeError"
           end.

Definition write (r : ref) (o : object) : M unit :=
  fun s => Return tt (<[r := o]> s).


End Store.

#[export] Instance store_ret : MRet Store.M := @Store.ret.
#[export] Instance store_bind : MBind Store.M := fun A B k c => Store.bind c k.

(** ** Vector2 *)

Module Vector2.
Import Num Store.

Definition new (x y : number) : M ref := alloc (OVector2 x y).

(** Reading the fields [this.x] and [this.y]. *)
Definition fields (this : ref) : M (number * number) :=
  o ← read this;
  match o with
  | OVector2 x y => ret (x, y)
  | _ => throw "TypeError"
  end.

Definition add (this v : ref) : M ref :=
  '(x1, y1) ← fields this;
  '(x2, y2) ← fields v;
  new (Num.add x1 x2) (Num.add y1 y2).

Definition length (this : ref) : M number :=
  '(x, y) ← fields this;
  ret (sqrt (Num.add (mul x x) (mul y y))).

Definition normalize (this : ref) : M ref :=
  len ← length this;
  if strict_eq len zero then new zero zero
  else
    '(x, y) ← fields this;
    new (div x len) (div y len).




(** [this.x += x; this.y += y]: the object itself is updated. *)
Definition addValue (this : ref) (x y : number) : M unit :=
  '(tx, ty) ← fields this;
  _ ← write this (OVector2 (Num.add tx x) ty);
  '(tx, ty) ← fields this;
  write this (OVector2 tx (Num.add ty y)).

Definition subtract (this v : ref) : M ref :=
  '(x1, y1) ← fields this;
  '(x2, y2) ← fields v;
  new (sub x1 x2) (sub y1 y2).

Definition dot (this v : ref) : M number :=
  '(x1, y1) ← fields this;
  '(x2, y2) ← fields v;
  ret (Num.add (mul x1 x2) (mul y1 y2)).

Definition perp (this : ref) : M ref :=
  '(x, y) ← fields this;
  new (neg y) x.

Definition clone (this : ref) : M ref :=
  '(x, y) ← fields this;
  new x y.

Definition scale (this : ref) (scalar : number) : M ref :=
  '(x, y) ← fields this;
  new (mul x scalar) (mul y scalar).

Definition isZero (this : ref) : M bool :=
  '(x, y) ← fields this;
  ret (strict_eq x zero && strict_eq y zero).

(** [vec] is any object with fields [x] and [y]. *)
Definition squaredDistanceTo (this vec : ref) : M number :=
  '(vx, vy) ← fields vec;
  '(tx, ty) ← fields this;
  let dx := sub vx tx in
  let dy := sub vy ty in
  ret (Num.add (mul dx dx) (mul dy dy)).

Definition distanceTo (this vec : ref) : M number :=
  d ← squaredDistanceTo this vec;
  ret (sqrt d).

(** The [for ... of vectors] loop of [getClosestVector], with its two
    locals; [None] is [null]. *)
Fixpoint closestLoop (this : ref) (vectors : list ref)
    (closestPosition : option ref) (closestDistance : number)
    : M (option ref) :=
  match vectors with
  | [] => ret closestPosition
  | vector :: rest =>
      distance ← squaredDistanceTo vector this;
      if lt distance closestDistance
      then closestLoop this rest (Some vector) distance
      else closestLoop this rest closestPosition closestDistance
  end.

Definition getClosestVector (this : ref) (vectors : list ref)
    : M (option ref) :=
  closestLoop this vectors None Infinity.

Definition interpolate (this goal : ref) (t : number) : M ref :=
  '(tx, ty) ← fields this;
  '(gx, gy) ← fields goal;
  new (Num.add tx (mul (sub gx tx) t)) (Num.add ty (mul (sub gy ty) t)).

(** The static [Vector2.cross(v1, v2)]. *)
Definition cross (v1 v2 : ref) : M number :=
  '(x1, y1) ← fields v1;
  '(x2, y2) ← fields v2;
  ret (sub (mul x1 y2) (mul y1 x2)).

(** The static [Vector2.equal(v1, v2)]. *)
Definition equal (v1 v2 : ref) : M bool :=
  '(x1, y1) ← fields v1;
  '(x2, y2) ← fields v2;
  ret (strict_eq x1 x2 && strict_eq y1 y2).

(** All references of [vectors] denote [Vector2] objects, with the given
    coordinates. *)
Definition denote (s : store) (vectors : list ref)
    (coords : list (number * number)) : Prop :=
  Forall2 (fun r c => s !! r = Some (OVector2 (fst c) (snd c))) vectors coords.


Section ToString.
(** The engine's Number-to-String conversion used by template
    literals. *)
Variable numberToString : number -> string.

(** The text [`${x},${y}`]. *)
Definition key (x y : number) : string :=
  (numberToString x ++ "," ++ numberToString y)%string.

Definition toString (this : ref) : M string :=
  '(x, y) ← fields this;
  ret (key x y).
End ToString.

(** Number-to-String on integers of magnitude below 2^53, where it
    prints the decimal digits (and "0" for both zeros); used on such
    values only. *)
Definition integerToString (n : number) : string :=
  match n with
  | S754_zero _ => "0"
  | S754_nan => "NaN"
  | S754_infinity s => if s then "-Infinity" else "Infinity"
  | S754_finite s m e =>
      ((if s then "-" else "") ++ pretty (Z.shiftl (Zpos m) e))%string
  end.

End Vector2.

(** ** Vector3 *)

Module Vector3.
Import Num Store.

Definition new (x y z : number) : M ref := alloc (OVector3 x y z).

Definition fields (this : ref) : M (number * number * number) :=
  o ← read this;
  match o with
  | OVector3 x y z => ret (x, y, z)
  | _ => throw "TypeError"
  end.

Definition scale (this : ref) (scalar : number) : M ref :=
  '(x, y, z) ← fields this;
  new (mul x scalar) (mul y scalar) (mul z scalar).

(** [Math.sqrt(this.x ** 2 + this.y ** 2 + this.z ** 2)]. *)
Definition norm (x y z : number) : number :=
  sqrt (Num.add (Num.add (sq x) (sq y)) (sq z)).

Definition normalize (this : ref) : M ref :=
  '(x, y, z) ← fields this;
  let length := norm x y z in
  if gt length zero then scale this (div (of_Z 1) length) else ret this.

(** The static [Vector3.fromVector2(v, z)]. *)
Definition fromVector2 (v : ref) (z : number) : M ref :=
  '(x, y) ← Vector2.fields v;
  new x y z.

Definition toVector2 (this : ref) : M ref :=
  '(x, y, z) ← fields this;
  Vector2.new x y.

Definition cross (this v : ref) : M ref :=
  '(x1, y1, z1) ← fields this;
  '(x2, y2, z2) ← fields v;
  new (sub (mul y1 z2) (mul z1 y2))
      (sub (mul z1 x2) (mul x1 z2))
      (sub (mul x1 y2) (mul y1 x2)).

Definition equals (this vector : ref) : M bool :=
  '(x1, y1, z1) ← fields this;
  '(x2, y2, z2) ← fields vector;
  ret (strict_eq x1 x2 && strict_eq y1 y2 && strict_eq z1 z2).

End Vector3.

(** ** Vector2Set *)

Module Vector2Set.
Import Num Store.

(** A [Map<string, Vector2>]: entries in insertion order; [set] on a key
    already present overwrites the value where it stands. *)
Abbreviation jsmap := (list (string * ref)) (only parsing).

Fixpoint map_set (m : jsmap) (key : string) (value : ref) : jsmap :=
  match m with
  | [] => [(key, value)]
  | (k, v) :: m' =>
      if String.eqb k key then (k, value) :: m'
      else (k, v) :: map_set m' key value
  end.

Definition map_has (m : jsmap) (key : string) : bool :=
  existsb (fun kv => String.eqb (fst kv) key) m.

Definition map_values (m : jsmap) : list ref := List.map snd m.

Record set : Type := Set_ { map : jsmap }.

Definition empty : set := Set_ [].

Section Keyed.
Variable numberToString : number -> string.

Definition add (this : set) (vector : ref) : M set :=
  key ← Vector2.toString numberToString vector;
  ret (Set_ (map_set (map this) key vector)).

Definition has (this : set) (vector : ref) : M bool :=
  key ← Vector2.toString numberToString vector;
  ret (map_has (map this) key).

(** The [for ... of this.map.values()] loop of [filter]. *)
Fixpoint filterLoop (filterFunction : ref -> bool) (vs : list ref)
    (newSet : set) : M set :=
  match vs with
  | [] => ret newSet
  | vector :: rest =>
      if filterFunction vector
      then newSet' ← add newSet vector; filterLoop filterFunction rest newSet'
      else filterLoop filterFunction rest newSet
  end.

Definition filter (this : set) (filterFunction : ref -> bool) : M set :=
  filterLoop filterFunction (map_values (map this)) empty.

(** A client adding a sequence of vectors. *)
Fixpoint addAll (this : set) (vectors : list ref) : M set :=
  match vectors with
  | [] => ret this
  | v :: rest => this' ← add this v; addAll this' rest
  end.
End Keyed.

Definition clear (this : set) : set := Set_ [].

Definition values (this : set) : list ref := map_values (map this).

Definition toArray (this : set) : list ref := values this.

(** The invariant of the backing map: keys are pairwise distinct, and
    every entry is filed under the key of the vector it holds. *)
Definition keyed (numberToString : number -> string) (s : store)
    (m : jsmap) : Prop :=
  NoDup (List.map fst m)
  /\ Forall (fun kv => exists x y, s !! snd kv = Some (OVector2 x y)
                                  /\ fst kv = Vector2.key numberToString x y) m.

End Vector2Set.

(** ** Scalar utilities *)

Module Utils.
Import Num Store.

(** [Array.prototype.sort(comparefn)].  The comparator's result is read as
    the specification of SortCompare does: NaN counts as zero, a negative
    value puts the first argument first.  When the comparator is
    consistent on the values of the array, ECMAScript fixes the result:
    the stable sorted order, which the insertion sort below produces.
    [(a, b) => a - b] is consistent on numbers other than NaN, and on NaN
    together with a single other value, where every comparison counts as
    zero and the order is kept.  On an array that holds NaN and two
    different numbers it is not consistent: ECMAScript then leaves the
    order to the engine, and the order computed below is one that is
    permitted, not necessarily the engine's.  What is proved below about
    the order of the sorted array, or about the value of a median, is
    for arrays on which the comparator is consistent. *)
Definition sortCompare (comparefn : number -> number -> number)
    (a b : number) : number :=
  let v := comparefn a b in
  if is_nan v then zero else v.

Fixpoint insert (comparefn : number -> number -> number) (a : number)
    (sorted : list number) : list number :=
  match sorted with
  | [] => [a]
  | b :: rest =>
      if lt (sortCompare comparefn a b) zero then a :: b :: rest
      else b :: insert comparefn a rest
  end.

Definition sort (comparefn : number -> number -> number)
    (elems : list number) : list number :=
  fold_left (fun acc a => insert comparefn a acc) elems [].

Definition elements (values : ref) : M (list number) :=
  o ← read values;
  match o with
  | OArray elems => ret elems
  | _ => throw "TypeError"
  end.

(** [values[i]]; reading past the end gives [undefined], which is NaN in
    arithmetic. *)
Definition index (elems : list number) (i : nat) : number :=
  default NaN (elems !! i).

Definition median (values : ref) : M number :=
  elems ← elements values;
  if (length elems =? 0)%nat then ret zero
  else
    _ ← write values (OArray (sort (fun a b => sub a b) elems));
    elems ← elements values;
    let mid := (length elems / 2)%nat in
    if negb (length elems mod 2 =? 0)%nat then ret (index elems mid)
    else ret (div (add (index elems (mid - 1)) (index elems mid)) (of_Z 2)).

Definition radiansToDegreesNormalized (radians : number) : number :=
  let degrees := mul radians (div (of_Z 180) PI) in
  let degrees := rem degrees (of_Z 360) in
  let degrees := if lt degrees zero then add degrees (of_Z 360) else degrees in
  round degrees.

(** Modelled from the spec: the constants module [@lob-sdk/constants] is
    not among the sources; [DEG_TO_RAD] is taken to be what its name says,
    [Math.PI / 180]. *)
Definition DEG_TO_RAD : number := div PI (of_Z 180).

(** Modelled from the spec: [TWO_PI], from the same absent module, is
    taken to be [2 * Math.PI], the upper end of the range [0, 2 pi). *)
Definition TWO_PI : number := mul (of_Z 2) PI.

Definition degreesToRadians (degrees : number) : number :=
  mul degrees DEG_TO_RAD.

Definition degreesToRadiansNormalized (degrees : number) : number :=
  let radians := mul degrees DEG_TO_RAD in
  let radians := rem radians TWO_PI in
  if lt radians zero then add radians TWO_PI else radians.

Section Points.
Context {T : Type} `{Point2 T}.

Definition getSquaredDistance (point1 point2 : T) : number :=
  let dx := sub (x point2) (x point1) in
  let dy := sub (y point2) (y point1) in
  add (mul dx dx) (mul dy dy).

(** [points.map(...)] builds the two arrays [xValues] and [yValues]
    anew; the result is a new [{x, y}] record. *)
Definition medianPoint (points : list T) : M point :=
  xValues ← alloc (OArray (List.map x points));
  yValues ← alloc (OArray (List.map y points));
  mx ← median xValues;
  my ← median yValues;
  ret (Point mx my).

End Points.

(** [Math.ceil(array.length / 2)]: a length is an integer below 2^32, so
    the quotient is exact and its ceiling is the integer [(n + 1) / 2]. *)
Definition divideArrayInHalf {A} (array : list A) : list A * list A :=
  let mid := Z.of_nat ((length array + 1) / 2) in
  let firstHalf := JsArray.slice array 0 mid in
  let secondHalf := JsArray.slice_from array mid in
  (firstHalf, secondHalf).

(** A zone, as [getClosestPointInsideZone] reads it: [zone.x], [zone.y],
    [zone.width] and [zone.height]. *)
Record Zone : Type := {
  zone_x : number;
  zone_y : number;
  zone_width : number;
  zone_height : number
}.

(** What clamping [p] to the range from [lo] to [hi] gives, [c]: NaN as
    soon as one of the three is NaN.  Otherwise [c] is fixed by where [p]
    lies: the lower bound when [p] is below it or when the range is
    inverted; [p] when [p] is within the range; the upper bound when [p]
    is above a range that is not inverted.  Where [c] is [p] or the upper
    bound it is so up to the sign of a zero, as [===] compares.  In a
    range that is not inverted [c] lies within the range. *)
Definition clamped (lo p hi c : number) : Prop :=
  (is_nan lo || is_nan p || is_nan hi = true -> c = NaN)
  /\ (is_nan lo || is_nan p || is_nan hi = false ->
      (lt p lo = true \/ lt hi lo = true -> c = lo)
      /\ (le lo p = true -> le p hi = true -> identical p c)
      /\ (lt hi p = true -> le lo hi = true -> identical hi c)
      /\ (le lo hi = true -> le lo c = true /\ le c hi = true)).

(** The parameter [buffer: number = 0]: an argument that is left out or
    is [undefined] ([None]) stands for 0. *)
Definition getClosestPointInsideZone {T : Type} `{Point2 T}
    (zone : Zone) (point : T) (buffer : option number) : M ref :=
  let buffer := default zero buffer in
  let clampedX :=
    Math.max (sub (zone_x zone) buffer)
             (Math.min (x point) (add (add (zone_x zone) (zone_width zone)) buffer)) in
  let clampedY :=
    Math.max (sub (zone_y zone) buffer)
             (Math.min (y point) (add (add (zone_y zone) (zone_height zone)) buffer)) in
  Vector2.new clampedX clampedY.

End Utils.

(** ** EventEmitter

    Listeners are function objects, compared by reference as [!==]
    does: a listener is named by a number, and [call] gives what calling
    the listener of that name with an argument does to the state of the
    program.  Listeners that call back into the emitter while it emits are
    not covered. *)

Module EventEmitter.

Section Emitter.
Context {Event : Type} `{EqDecision Event} {Arg World : Type}.

Definition listener : Type := nat.

(** Calling a listener with an argument changes the world the
    listeners act on.  [new_array] is the expression [[]]: it creates a
    new empty array in that world. *)
Variable call : listener -> Arg -> World -> World.
Variable new_array : World -> Arg * World.

(** The private [Map] from event names to arrays of listeners. *)
Definition listeners : Type := Event -> option (list listener).

Definition map_set (m : listeners) (event : Event) (value : list listener)
    : listeners :=
  fun k => if decide (k = event) then Some value else m k.

(** A new emitter: [new Map()]. *)
Definition create : listeners := fun _ => None.

Definition on (this : listeners) (event : Event) (l : listener) : listeners :=
  let this :=
    match this event with
    | None => map_set this event []
    | Some _ => this
    end in
  match this event with
  | Some eventListeners => map_set this event (eventListeners ++ [l])
  | None => this
  end.

Definition off (this : listeners) (event : Event) (l : listener) : listeners :=
  match this event with
  | None => this
  | Some eventListeners =>
      map_set this event
        (List.filter (fun l' => negb (l' =? l)%nat) eventListeners)
  end.

(** The parameter [arg: T[K] = [] as T[K]]: an argument that is left
    out or is [undefined] ([None]) is replaced, as the call begins, by a
    new empty array. *)
Definition argument (arg : option Arg) (w : World) : Arg * World :=
  match arg with
  | Some a => (a, w)
  | None => new_array w
  end.

Definition emit (this : listeners) (event : Event) (arg : option Arg)
    (w : World) : World :=
  let '(arg, w) := argument arg w in
  match this event with
  | None => w
  | Some eventListeners => fold_left (fun w l => call l arg w) eventListeners w
  end.

End Emitter.

End EventEmitter.

(* ===================================================================== *)
(** * Part II: facts about the embedding                                  *)
(* ===================================================================== *)

Module NumOrder.
Import Num.

Ltac split_compare :=
  repeat match goal with
  | |- context [Z.compare ?a ?b] => destruct (Z.compare_spec a b)
  | H : context [Z.compare ?a ?b] |- _ => destruct (Z.compare_spec a b)
  | |- context [Pos.compare_cont Eq ?a ?b] =>
      change (Pos.compare_cont Eq a b) with (Pos.compare a b);
      destruct (Pos.compare_spec a b)
  | H : context [Pos.compare_cont Eq ?a ?b] |- _ =>
      change (Pos.compare_cont Eq a b) with (Pos.compare a b) in H;
      destruct (Pos.compare_spec a b)
  end.

Ltac order_cases :=
  unfold gt, ge, lt, le, strict_eq, is_nan, SFltb, SFleb, SFeqb, SFcompare;
  intros;
  repeat match goal with a : number |- _ => destruct a end;
  repeat match goal with s : bool |- _ => destruct s end;
  try (simpl in *; congruence);
  split_compare; simpl in *; try congruence; try lia.

Lemma lt_trans (a b c : number) :
  lt a b = true -> lt b c = true -> lt a c = true.
Proof. order_cases. Qed.

Lemma lt_not_nan_r (a b : number) : lt a b = true -> is_nan b = false.
Proof. order_cases. Qed.

Lemma lt_above (m d a : number) :
  lt m d = true -> lt m a = false -> is_nan a = false -> lt a d = true.
Proof. order_cases. Qed.

Lemma le_lt_trans (a b c : number) :
  le a b = true -> lt b c = true -> lt a c = true.
Proof. order_cases. Qed.

Lemma le_trans (a b c : number) :
  le a b = true -> le b c = true -> le a c = true.
Proof. order_cases. Qed.

Lemma le_total (a b : number) :
  is_nan a = false -> is_nan b = false -> le a b = true \/ le b a = true.
Proof. order_cases; auto. Qed.

Lemma le_refl (a : number) : is_nan a = false -> le a a = true.
Proof. order_cases. Qed.
End NumOrder.

Module NumSpecial.
Import Num.

Lemma strict_eq_cases (a b : number) :
  strict_eq a b = true -> a = b \/ (null a = true /\ null b = true).
Proof.
  unfold strict_eq, SFeqb, SFcompare.
  destruct a as [s| s | |s m e], b as [s'|s'| |s' m' e']; try destruct s; try destruct s';
    simpl; try discriminate; auto.
  - destruct (Z.compare_spec e e'); try discriminate.
    change (Pos.compare_cont Eq m m') with (Pos.compare m m').
    destruct (Pos.compare_spec m m'); try discriminate. subst; auto.
  - destruct (Z.compare_spec e e'); try discriminate.
    change (Pos.compare_cont Eq m m') with (Pos.compare m m').
    destruct (Pos.compare_spec m m'); try discriminate. subst; auto.
Qed.

Lemma sub_self_null (a : number) : null (sub a a) = true.
Proof.
  destruct a as [[]|[]| |s m e]; try reflexivity.
  unfold sub, SFsub. rewrite Z.sub_diag. reflexivity.
Qed.

Lemma sub_null (a b : number) :
  null a = true -> null b = true -> null (sub a b) = true.
Proof. destruct a as [[]|[]| |], b as [[]|[]| |]; simpl; congruence. Qed.

Lemma add_null (a b : number) :
  null a = true -> null b = true -> null (add a b) = true.
Proof. destruct a as [[]|[]| |], b as [[]|[]| |]; simpl; congruence. Qed.

Lemma identical_cases (a b : number) :
  identical a b -> a = b \/ (null a = true /\ null b = true).
Proof. intros [->|E]; [auto | apply strict_eq_cases, E]. Qed.

Lemma sub_identical_null (a b : number) :
  identical a b -> null (sub b a) = true.
Proof.
  intros [->|E]; [apply sub_self_null|].
  apply strict_eq_cases in E as [->|[Ha Hb]];
    [apply sub_self_null | apply sub_null; assumption].
Qed.

Lemma mul_null_l (a b : number) : null a = true -> null (mul a b) = true.
Proof. destruct a as [[]|[]| |], b as [[]|[]| |]; simpl; congruence. Qed.

Lemma mul_null_r (a b : number) : null b = true -> null (mul a b) = true.
Proof. destruct a as [[]|[]| |], b as [[]|[]| |]; simpl; congruence. Qed.

Lemma mul_comm (a b : number) : mul a b = mul b a.
Proof.
  destruct a as [[]|[]| |s m e], b as [[]|[]| |s' m' e']; try reflexivity;
    try (simpl; rewrite xorb_comm; reflexivity).
  unfold mul, SFmul. rewrite Pos.mul_comm, Z.add_comm, xorb_comm. reflexivity.
Qed.

Lemma add_sub_cancel_null (u p : number) :
  null u = true -> null (sub (add u p) p) = true.
Proof.
  destruct u as [[]|[]| |]; try discriminate; intros _;
    destruct p as [[]|[]| |s m e]; try reflexivity;
    apply (sub_self_null (S754_finite s m e)).
Qed.

Lemma abs_null (a : number) : null a = true -> null (abs a) = true.
Proof. destruct a; simpl; congruence. Qed.

Lemma sq_null (a : number) : null a = true -> pnull (sq a) = true.
Proof. destruct a as [[]|[]| |]; simpl; congruence. Qed.

Lemma add_pnull (a b : number) :
  pnull a = true -> pnull b = true -> pnull (add a b) = true.
Proof. destruct a as [[]|[]| |], b as [[]|[]| |]; simpl; congruence. Qed.

Lemma sqrt_pnull (a : number) : pnull a = true -> pnull (sqrt a) = true.
Proof. destruct a as [[]|[]| |]; try discriminate; reflexivity. Qed.

Lemma div_null_pnull (a b : number) :
  null a = true -> pnull b = true -> div a b = NaN.
Proof.
  destruct a as [[]|[]| |], b as [[]|[]| |]; simpl; intros;
    (discriminate || reflexivity).
Qed.

Lemma gt_nan_l (m : number) : gt NaN m = false.
Proof. destruct m as [[]|[]| |[]]; reflexivity. Qed.

End NumSpecial.

Module NumRounding.
Import Num NumOrder.

Lemma digits2_pos_bounds (m : positive) :
  2 ^ (Zpos (digits2_pos m) - 1) <= Zpos m < 2 ^ Zpos (digits2_pos m).
Proof.
  induction m as [m IH|m IH|]; simpl digits2_pos.
  - rewrite Pos2Z.inj_succ. replace (Z.succ (Zpos (digits2_pos m)) - 1)
      with (Z.succ (Zpos (digits2_pos m) - 1)) by lia.
    rewrite !Z.pow_succ_r by lia. lia.
  - rewrite Pos2Z.inj_succ. replace (Z.succ (Zpos (digits2_pos m)) - 1)
      with (Z.succ (Zpos (digits2_pos m) - 1)) by lia.
    rewrite !Z.pow_succ_r by lia. lia.
  - simpl. lia.
Qed.

Lemma iter_xO_value (m d : positive) :
  Zpos (Pos.iter xO m d) = Zpos m * 2 ^ Zpos d.
Proof.
  induction d as [|d IH] using Pos.peano_ind.
  - simpl. lia.
  - rewrite Pos.iter_succ, Pos2Z.inj_xO, IH, Pos2Z.inj_succ, Z.pow_succ_r by lia.
    lia.
Qed.

Lemma shl_align_value (m : positive) (e e' : Z) :
  e' <= e ->
  Zpos (fst (shl_align m e e')) = Zpos m * 2 ^ (e - e')
  /\ snd (shl_align m e e') = e'.
Proof.
  intros L. unfold shl_align.
  destruct (e' - e) as [|d|d] eqn:E; simpl.
  - replace (e - e') with 0 by lia. split; lia.
  - lia.
  - rewrite iter_xO_value. replace (e - e') with (Zpos d) by lia. split; lia.
Qed.

Lemma shl_align_exponent (m : positive) (e e' : Z) :
  snd (shl_align m e e') = Z.min e e'.
Proof.
  unfold shl_align. destruct (e' - e) as [|d|d] eqn:E; simpl; lia.
Qed.

Lemma shr_1_m (mrs : shr_record) :
  0 <= shr_m mrs -> shr_m (shr_1 mrs) = shr_m mrs / 2.
Proof.
  destruct mrs as [m r s]. cbn [shr_m]. intros L.
  destruct m as [|[p|p|]|p]; cbn [shr_1 shr_m]; lia.
Qed.

Lemma pow2_xO (p : positive) : 2 ^ Zpos p~0 = 2 ^ Zpos p * 2 ^ Zpos p.
Proof.
  replace (Zpos p~0) with (Zpos p + Zpos p) by lia.
  apply Z.pow_add_r; lia.
Qed.

Lemma pow2_xI (p : positive) : 2 ^ Zpos p~1 = 2 * (2 ^ Zpos p * 2 ^ Zpos p).
Proof.
  replace (Zpos p~1) with (Z.succ (Zpos p~0)) by lia.
  rewrite Z.pow_succ_r, pow2_xO by lia. reflexivity.
Qed.

Lemma iter_shr_1_m (p : positive) (mrs : shr_record) :
  0 <= shr_m mrs ->
  shr_m (SpecFloat.iter_pos shr_1 p mrs) = shr_m mrs / 2 ^ Zpos p.
Proof.
  revert mrs. induction p as [p IH|p IH|]; intros mrs L; simpl SpecFloat.iter_pos.
  - assert (L1 : 0 <= shr_m (shr_1 mrs)).
    { rewrite shr_1_m by exact L. apply Z.div_pos; lia. }
    assert (L2 : 0 <= shr_m (SpecFloat.iter_pos shr_1 p (shr_1 mrs))).
    { rewrite IH by exact L1. apply Z.div_pos; lia. }
    rewrite IH, IH, shr_1_m by assumption.
    rewrite !Z.div_div by lia. rewrite pow2_xI. f_equal.
  - assert (L2 : 0 <= shr_m (SpecFloat.iter_pos shr_1 p mrs)).
    { rewrite IH by exact L. apply Z.div_pos; lia. }
    rewrite IH, IH by assumption.
    rewrite !Z.div_div by lia. rewrite pow2_xO. reflexivity.
  - rewrite shr_1_m by exact L. reflexivity.
Qed.

Lemma shr_record_of_loc_m (m : Z) (l : location) :
  shr_m (shr_record_of_loc m l) = m.
Proof. destruct l as [|[]]; reflexivity. Qed.

Lemma fexp_eq (e : Z) : fexp prec emax e = Z.max (e - 53) (-1074).
Proof. reflexivity. Qed.

(** Shifting to the canonical exponent never loses the whole mantissa. *)
Lemma shr_fexp_pos (m : positive) (e : Z) (l : location) :
  -1074 <= e ->
  0 < shr_m (fst (shr_fexp prec emax (Zpos m) e l))
  /\ -1074 <= snd (shr_fexp prec emax (Zpos m) e l).
Proof.
  intros L. unfold shr_fexp, shr. rewrite fexp_eq. simpl Zdigits2.
  pose proof (digits2_pos_bounds m) as [B _].
  set (d := Zpos (digits2_pos m)) in *.
  destruct (Z.max (d + e - 53) (-1074) - e) as [|n|n] eqn:E; simpl fst; simpl snd.
  - rewrite shr_record_of_loc_m. lia.
  - rewrite iter_shr_1_m by (rewrite shr_record_of_loc_m; lia).
    rewrite shr_record_of_loc_m. split; [|lia].
    assert (Hn : Zpos n <= d - 1) by lia.
    apply Z.div_str_pos. split; [lia|].
    apply Z.le_trans with (2 ^ (d - 1)); [|exact B].
    apply Z.pow_le_mono_r; lia.
  - rewrite shr_record_of_loc_m. lia.
Qed.

Lemma round_nearest_even_pos (m : Z) (l : location) :
  0 < m -> 0 < round_nearest_even m l.
Proof.
  intros L. destruct l as [|[]]; simpl; try lia. destruct (Z.even m); lia.
Qed.

Lemma binary_round_aux_signed (s : bool) (m : positive) (e : Z) (l : location) :
  -1074 <= e -> signed s (binary_round_aux prec emax s (Zpos m) e l).
Proof.
  intros L. unfold binary_round_aux.
  destruct (shr_fexp_pos m e l L) as [P1 E1].
  destruct (shr_fexp prec emax (Zpos m) e l) as [mrs' e']. simpl in P1, E1.
  pose proof (round_nearest_even_pos _ (loc_of_shr_record mrs') P1) as P2.
  destruct (round_nearest_even (shr_m mrs') (loc_of_shr_record mrs')) as [|m2|m2];
    try lia.
  destruct (shr_fexp_pos m2 e' loc_Exact E1) as [P3 _].
  destruct (shr_fexp prec emax (Zpos m2) e' loc_Exact) as [mrs'' e''].
  simpl in P3. destruct (shr_m mrs''); try lia.
  destruct (e'' <=? emax - prec); reflexivity.
Qed.

Lemma binary_round_signed (s : bool) (m : positive) (e : Z) :
  -1074 <= e -> signed s (binary_round prec emax s m e).
Proof.
  intros L. unfold binary_round.
  pose proof (shl_align_exponent m e (fexp prec emax (Zpos (digits2_pos m) + e))) as E.
  destruct (shl_align m e _) as [mz ez]. simpl in E.
  apply binary_round_aux_signed. rewrite fexp_eq in E. lia.
Qed.


Lemma bounded_inv (m : positive) (e : Z) :
  bounded prec emax m e = true ->
  -1074 <= e /\ Zpos (digits2_pos m) <= 53
  /\ (-1074 < e -> Zpos (digits2_pos m) = 53).
Proof.
  unfold bounded, canonical_mantissa. rewrite fexp_eq.
  intros [E _]%andb_true_iff. apply Z.eqb_eq in E. lia.
Qed.

Lemma bounded_mantissa (m : positive) (e : Z) :
  bounded prec emax m e = true ->
  Zpos m < 2 ^ 53 /\ (-1074 < e -> 2 ^ 52 <= Zpos m).
Proof.
  intros (_ & D & N)%bounded_inv.
  pose proof (digits2_pos_bounds m) as [B1 B2]. split.
  - apply Z.lt_le_trans with (2 ^ Zpos (digits2_pos m)); [exact B2|].
    apply Z.pow_le_mono_r; lia.
  - intros L. rewrite (N L) in B1. exact B1.
Qed.

(** Comparing canonical mantissas and exponents lexicographically is
    comparing the aligned mantissas. *)
Lemma aligned_compare (m1 : positive) (e1 : Z) (m2 : positive) (e2 : Z) :
  bounded prec emax m1 e1 = true -> bounded prec emax m2 e2 = true ->
  match e1 ?= e2 with
  | Lt => Lt
  | Gt => Gt
  | Eq => Pos.compare_cont Eq m1 m2
  end
  = (Zpos (fst (shl_align m1 e1 (Z.min e1 e2)))
     ?= Zpos (fst (shl_align m2 e2 (Z.min e1 e2)))).
Proof.
  intros B1 B2.
  destruct (shl_align_value m1 e1 (Z.min e1 e2)) as [-> _]; [lia|].
  destruct (shl_align_value m2 e2 (Z.min e1 e2)) as [-> _]; [lia|].
  pose proof (bounded_inv _ _ B1) as (L1 & _ & _).
  pose proof (bounded_inv _ _ B2) as (L2 & _ & _).
  apply bounded_mantissa in B1 as [U1 N1], B2 as [U2 N2].
  change (2 ^ 53) with (2 * 2 ^ 52) in *.
  destruct (Z.compare_spec e1 e2) as [->|L|L].
  - rewrite Z.min_id, Z.sub_diag, !Z.mul_1_r. reflexivity.
  - rewrite Z.min_l, Z.sub_diag, Z.mul_1_r by lia.
    symmetry. apply Z.compare_lt_iff.
    assert (2 ^ 1 <= 2 ^ (e2 - e1)) by (apply Z.pow_le_mono_r; lia).
    change (2 ^ 1) with 2 in *. nia.
  - rewrite Z.min_r, Z.sub_diag, Z.mul_1_r by lia.
    symmetry. apply Z.compare_gt_iff.
    assert (2 ^ 1 <= 2 ^ (e1 - e2)) by (apply Z.pow_le_mono_r; lia).
    change (2 ^ 1) with 2 in *. nia.
Qed.

(** The sign of a difference of two canonical finite numbers is the
    outcome of their comparison: the subtraction never underflows to
    zero. *)
Lemma sub_finite_sign (s1 : bool) (m1 : positive) (e1 : Z)
    (s2 : bool) (m2 : positive) (e2 : Z) :
  bounded prec emax m1 e1 = true -> bounded prec emax m2 e2 = true ->
  let a := S754_finite s1 m1 e1 in
  let b := S754_finite s2 m2 e2 in
  match SFcompare a b with
  | Some Eq => sub a b = S754_zero false
  | Some Lt => signed true (sub a b)
  | Some Gt => signed false (sub a b)
  | None => False
  end.
Proof.
  intros B1 B2 a b. unfold a, b, sub, SFsub, SFcompare.
  pose proof (aligned_compare m1 e1 m2 e2 B1 B2) as C.
  pose proof (bounded_inv _ _ B1) as (L1 & _ & _).
  pose proof (bounded_inv _ _ B2) as (L2 & _ & _).
  set (X := fst (shl_align m1 e1 (Z.min e1 e2))) in *.
  set (Y := fst (shl_align m2 e2 (Z.min e1 e2))) in *.
  assert (Lz : -1074 <= Z.min e1 e2) by lia.
  assert (O : match e1 ?= e2 with
              | Eq => CompOpp (Pos.compare_cont Eq m1 m2)
              | Lt => Gt
              | Gt => Lt
              end = CompOpp (Zpos X ?= Zpos Y))
    by (rewrite <- C; destruct (e1 ?= e2); reflexivity).
  destruct s1, s2; cbn [cond_Zopp]; rewrite ?C, ?O.
  - destruct (Z.compare_spec (Zpos X) (Zpos Y)) as [E|L|L]; cbn [CompOpp].
    + replace (- Zpos X - - Zpos Y) with 0 by lia. reflexivity.
    + destruct (- Zpos X - - Zpos Y) eqn:D; try lia.
      apply binary_round_signed, Lz.
    + destruct (- Zpos X - - Zpos Y) eqn:D; try lia.
      apply binary_round_signed, Lz.
  - destruct (- Zpos X - Zpos Y) eqn:D; try lia.
    apply binary_round_signed, Lz.
  - destruct (Zpos X - - Zpos Y) eqn:D; try lia.
    apply binary_round_signed, Lz.
  - destruct (Z.compare_spec (Zpos X) (Zpos Y)) as [E|L|L].
    + replace (Zpos X - Zpos Y) with 0 by lia. reflexivity.
    + destruct (Zpos X - Zpos Y) eqn:D; try lia.
      apply binary_round_signed, Lz.
    + destruct (Zpos X - Zpos Y) eqn:D; try lia.
      apply binary_round_signed, Lz.
Qed.


Lemma signed_true_tests (c : number) :
  signed true c -> ge c zero = false /\ lt c zero = true.
Proof.
  destruct c as [s|s| |s m e]; simpl; intros E; try contradiction;
    subst s; split; reflexivity.
Qed.

Lemma signed_false_tests (c : number) :
  signed false c -> ge c zero = true /\ lt c zero = false.
Proof.
  destruct c as [s|s| |s m e]; simpl; intros E; try contradiction;
    subst s; split; reflexivity.
Qed.

Lemma compare_antisym (a b : number) :
  SFcompare b a = match SFcompare a b with
                  | Some c => Some (CompOpp c)
                  | None => None
                  end.
Proof.
  destruct a as [[]|[]| |[] m e], b as [[]|[]| |[] m' e']; try reflexivity;
    simpl; split_compare; simpl; try reflexivity; try lia.
Qed.

(** The comparator [(a, b) => a - b] decides the numeric order of any
    two numbers other than NaN. *)
Lemma sub_respects : respects sub.
Proof.
  intros a b Ha Hb. unfold ordered in *.
  apply andb_true_iff in Ha as [Va Na], Hb as [Vb Nb].
  destruct a as [sa|sa| |sa ma ea], b as [sb|sb| |sb mb eb]; try discriminate;
    try (destruct sa, sb; simpl; repeat split; intros; (reflexivity || discriminate));
    try (destruct sa; simpl; repeat split; intros; (reflexivity || discriminate));
    try (destruct sb; simpl; repeat split; intros; (reflexivity || discriminate)).
  pose proof (sub_finite_sign sa ma ea sb mb eb Va Vb) as S. cbv zeta in S.
  unfold le, SFleb.
  rewrite (compare_antisym (S754_finite sa ma ea) (S754_finite sb mb eb)).
  destruct (SFcompare (S754_finite sa ma ea) (S754_finite sb mb eb)) as [[]|];
    try contradiction.
  - rewrite S. simpl. repeat split; intros; (reflexivity || discriminate).
  - apply signed_true_tests in S as [-> ->]. simpl.
    repeat split; intros; (reflexivity || discriminate).
  - apply signed_false_tests in S as [-> ->]. simpl.
    repeat split; intros; (reflexivity || discriminate).
Qed.

End NumRounding.

Module JsArrayFacts.
Import JsArray.

Lemma position_inside {A} (l : list A) (k : nat) :
  (k <= length l)%nat -> position l (Z.of_nat k) = k.
Proof.
  intros Hk. unfold position.
  destruct (Z.ltb_spec (Z.of_nat k) 0); lia.
Qed.

Lemma position_zero {A} (l : list A) : position l 0 = 0%nat.
Proof. apply (position_inside l 0). lia. Qed.

Lemma position_minus_one {A} (l : list A) :
  position l (-1) = (length l - 1)%nat.
Proof. unfold position. simpl. lia. Qed.

Lemma slice_prefix {A} (l : list A) (k : nat) :
  (k <= length l)%nat -> slice l 0 (Z.of_nat k) = take k l.
Proof.
  intros Hk. unfold slice.
  rewrite position_zero. rewrite position_inside by lia.
  rewrite Nat.sub_0_r. reflexivity.
Qed.

Lemma slice_from_suffix {A} (l : list A) (k : nat) :
  (k <= length l)%nat -> slice_from l (Z.of_nat k) = drop k l.
Proof.
  intros Hk. unfold slice_from, slice.
  rewrite !position_inside by lia.
  apply take_ge. rewrite length_drop. lia.
Qed.

Lemma slice_drop_last {A} (l : list A) :
  slice l 0 (-1) = take (length l - 1) l.
Proof.
  unfold slice. rewrite position_zero.
  rewrite position_minus_one, Nat.sub_0_r. reflexivity.
Qed.
End JsArrayFacts.

Module DouglasPeuckerFacts.
Import Num JsArray DouglasPeucker JsArrayFacts NumOrder NumSpecial.

Ltac len :=
  repeat (progress (cbn [length] in *;
                    rewrite ?length_app, ?length_take, ?length_drop, ?length_map in * ));
  lia.

Section Facts.
Context {T : Type} `{Point2 T}.
Implicit Types (path mid : list T) (a b p : T) (epsilon : number).

Lemma furthestLoop_scan path a b pre mid post m idx :
  path = pre ++ mid ++ post ->
  furthestLoop path a b (length mid) (length pre) m idx
  = scan (dists a b mid) (length pre) m idx.
Proof.
  revert pre m idx. induction mid as [|p mid IH]; intros pre m idx ->; [reflexivity|].
  simpl. rewrite lookup_app_r by lia. rewrite Nat.sub_diag. simpl.
  assert (E : pre ++ p :: mid ++ post = (pre ++ [p]) ++ mid ++ post)
    by (rewrite <- app_assoc; reflexivity).
  assert (L : S (length pre) = length (pre ++ [p]))
    by (rewrite length_app; simpl; lia).
  destruct (gt _ m); rewrite L; apply IH; exact E.
Qed.

Lemma findFurthestPoint_scan a mid b epsilon :
  findFurthestPoint (a :: mid ++ [b]) epsilon
  = let '(maxDist, index) := scan (dists a b mid) 1 (of_Z (-1)) (-1) in
    if gt maxDist epsilon then index else -1.
Proof.
  unfold findFurthestPoint.
  replace (last (a :: mid ++ [b])) with (Some b)
    by (rewrite app_comm_cons, last_snoc; reflexivity).
  replace (length (a :: mid ++ [b]) - 2)%nat with (length mid)
    by len.
  pose proof (furthestLoop_scan (a :: mid ++ [b]) a b [a] mid [b]
                (of_Z (-1)) (-1) eq_refl) as E.
  change (length [a]) with 1%nat in E.
  change (head (a :: mid ++ [b])) with (Some a). cbv beta iota.
  rewrite E. reflexivity.
Qed.

Lemma scan_index ds i m idx m' idx' :
  scan ds i m idx = (m', idx') ->
  (idx' = idx /\ m' = m) \/ (Z.of_nat i <= idx' < Z.of_nat (i + length ds)).
Proof.
  revert i m idx. induction ds as [|d ds IH]; simpl; intros i m idx E.
  - left. split; congruence.
  - destruct (gt d m); apply IH in E; destruct E as [[-> ->]|E];
      auto; right; lia.
Qed.

Lemma findFurthestPoint_range a mid b epsilon :
  findFurthestPoint (a :: mid ++ [b]) epsilon = -1
  \/ 1 <= findFurthestPoint (a :: mid ++ [b]) epsilon <= Z.of_nat (length mid).
Proof.
  rewrite findFurthestPoint_scan.
  destruct (scan _ _ _ _) as [m idx] eqn:E.
  destruct (gt m epsilon); [|auto].
  apply scan_index in E. unfold dists in E. rewrite length_map in E.
  destruct E as [[-> _]|E]; [auto | right; lia].
Qed.

Lemma path_decompose path :
  (2 <= length path)%nat -> exists a mid b, path = a :: mid ++ [b].
Proof.
  intros L. destruct path as [|a rest]; [simpl in L; lia|].
  destruct (rev_ind (fun l => (1 <= length l)%nat ->
                               exists mid b, l = mid ++ [b])) with (l := rest)
    as (mid & b & ->); [simpl; lia | eauto | simpl in L; lia | eauto].
Qed.

Lemma simplify_fuel f1 f2 path epsilon :
  (length path <= f1)%nat -> (length path <= f2)%nat ->
  simplify f1 path epsilon = simplify f2 path epsilon.
Proof.
  revert f2 path. induction f1 as [|f1 IH]; intros f2 path L1 L2.
  - destruct path; [|simpl in L1; lia]. destruct f2; reflexivity.
  - destruct f2 as [|f2].
    { destruct path; [reflexivity | simpl in L2; lia]. }
    simpl. destruct (Nat.ltb_spec (length path) 3) as [|L3]; [reflexivity|].
    destruct (path_decompose path) as (a & mid & b & ->); [lia|].
    destruct (findFurthestPoint_range a mid b epsilon) as [E|R].
    + rewrite E. reflexivity.
    + destruct (Z.eqb_spec (findFurthestPoint (a :: mid ++ [b]) epsilon) (-1)); [lia|].
      set (k := findFurthestPoint (a :: mid ++ [b]) epsilon) in *.
      assert (Lp : length (a :: mid ++ [b]) = S (S (length mid)))
        by len.
      replace (k + 1) with (Z.of_nat (Z.to_nat k + 1)) by lia.
      replace k with (Z.of_nat (Z.to_nat k)) at 2 4 by lia.
      rewrite slice_prefix, slice_from_suffix by lia.
      f_equal; [f_equal|]; apply IH;
        rewrite ?length_take, ?length_drop; lia.
Qed.

Lemma simplify_short fuel path epsilon :
  (length path < 3)%nat -> simplify fuel path epsilon = path.
Proof.
  intros L. destruct fuel; simpl;
    destruct (Nat.ltb_spec (length path) 3); auto; lia.
Qed.

Lemma douglasPeucker_short path epsilon :
  (length path < 3)%nat -> douglasPeucker path epsilon = path.
Proof. apply simplify_short. Qed.

Lemma simplify_step fuel path epsilon :
  simplify (S fuel) path epsilon
  = if (length path <? 3)%nat then path
    else
      let index := findFurthestPoint path epsilon in
      if index =? -1 then
        match head path, last path with
        | Some first, Some last_ => [first; last_]
        | _, _ => path
        end
      else
        slice (simplify fuel (slice path 0 (index + 1)) epsilon) 0 (-1)
        ++ simplify fuel (slice_from path index) epsilon.
Proof. reflexivity. Qed.

Lemma douglasPeucker_collapse a mid b epsilon :
  mid <> [] -> findFurthestPoint (a :: mid ++ [b]) epsilon = -1 ->
  douglasPeucker (a :: mid ++ [b]) epsilon = [a; b].
Proof.
  intros Hmid E. unfold douglasPeucker.
  assert (Lp : length (a :: mid ++ [b]) = S (S (length mid)))
    by len.
  rewrite Lp at 1. rewrite simplify_step, Lp, E.
  destruct mid; [congruence|]. simpl.
  rewrite app_comm_cons, last_snoc. reflexivity.
Qed.

Lemma douglasPeucker_split a A p B b epsilon :
  findFurthestPoint (a :: (A ++ p :: B) ++ [b]) epsilon
    = Z.of_nat (S (length A)) ->
  let left := douglasPeucker (a :: A ++ [p]) epsilon in
  let right := douglasPeucker (p :: B ++ [b]) epsilon in
  douglasPeucker (a :: (A ++ p :: B) ++ [b]) epsilon
  = take (length left - 1) left ++ right.
Proof.
  intros E left right. unfold douglasPeucker.
  set (path := a :: (A ++ p :: B) ++ [b]) in *.
  assert (Lp : length path = S (S (length A + S (length B))))
    by (unfold path; len).
  rewrite Lp at 1. rewrite simplify_step, Lp, E. cbv zeta.
  destruct (Nat.ltb_spec (S (S (length A + S (length B)))) 3); [lia|].
  destruct (Z.eqb_spec (Z.of_nat (S (length A))) (-1)); [lia|].
  replace (Z.of_nat (S (length A)) + 1) with (Z.of_nat (S (S (length A)))) by lia.
  rewrite slice_prefix, slice_from_suffix, slice_drop_last by lia.
  assert (Et : take (S (S (length A))) path = a :: A ++ [p]).
  { unfold path. simpl. f_equal. rewrite <- !app_assoc. simpl.
    replace (A ++ p :: B ++ [b]) with ((A ++ [p]) ++ B ++ [b])
      by (rewrite <- app_assoc; reflexivity).
    apply take_app_length'. len. }
  assert (Ed : drop (S (length A)) path = p :: B ++ [b]).
  { unfold path. simpl. rewrite <- !app_assoc. simpl.
    rewrite drop_app_length. reflexivity. }
  rewrite Et, Ed.
  rewrite (simplify_fuel _ (length (a :: A ++ [p])) (a :: A ++ [p])),
          (simplify_fuel _ (length (p :: B ++ [b])) (p :: B ++ [b]));
    try reflexivity; len.
Qed.

(** [douglasPeucker] satisfies the recursive equation of the source:
    the fuel never runs out. *)
Lemma douglasPeucker_equation path epsilon :
  douglasPeucker path epsilon
  = if (length path <? 3)%nat then path
    else
      let index := findFurthestPoint path epsilon in
      if index =? -1 then
        match head path, last path with
        | Some first, Some last_ => [first; last_]
        | _, _ => path
        end
      else
        slice (douglasPeucker (slice path 0 (index + 1)) epsilon) 0 (-1)
        ++ douglasPeucker (slice_from path index) epsilon.
Proof.
  destruct (Nat.ltb_spec (length path) 3) as [L|L].
  { apply douglasPeucker_short, L. }
  destruct (path_decompose path) as (a & mid & b & ->); [lia|].
  assert (Lp : length (a :: mid ++ [b]) = S (S (length mid))) by len.
  unfold douglasPeucker at 1. rewrite Lp at 1. rewrite simplify_step.
  destruct (Nat.ltb_spec (length (a :: mid ++ [b])) 3) as [|_]; [lia|]. cbv zeta.
  destruct (findFurthestPoint_range a mid b epsilon) as [E|R].
  { rewrite E. reflexivity. }
  set (k := findFurthestPoint (a :: mid ++ [b]) epsilon) in *.
  destruct (Z.eqb_spec k (-1)); [lia|].
  replace (k + 1) with (Z.of_nat (Z.to_nat k + 1)) by lia.
  replace k with (Z.of_nat (Z.to_nat k)) at 2 4 by lia.
  rewrite slice_prefix, slice_from_suffix by lia.
  unfold douglasPeucker.
  f_equal; [f_equal|]; apply simplify_fuel;
    rewrite ?length_take, ?length_drop; lia.
Qed.

(** Induction along the recursion of [douglasPeucker]. *)
Lemma douglasPeucker_ind epsilon (P : list T -> list T -> Prop) :
  (forall path, (length path < 3)%nat -> P path path) ->
  (forall a mid b, mid <> [] ->
     findFurthestPoint (a :: mid ++ [b]) epsilon = -1 ->
     P (a :: mid ++ [b]) [a; b]) ->
  (forall a A p B b,
     findFurthestPoint (a :: (A ++ p :: B) ++ [b]) epsilon
       = Z.of_nat (S (length A)) ->
     let left := douglasPeucker (a :: A ++ [p]) epsilon in
     let right := douglasPeucker (p :: B ++ [b]) epsilon in
     P (a :: A ++ [p]) left -> P (p :: B ++ [b]) right ->
     P (a :: (A ++ p :: B) ++ [b]) (take (length left - 1) left ++ right)) ->
  forall path, P path (douglasPeucker path epsilon).
Proof.
  intros Hshort Hcollapse Hsplit path.
  remember (length path) as n eqn:Hn. revert path Hn.
  induction n as [n IH] using lt_wf_ind. intros path ->.
  destruct (Nat.ltb_spec (length path) 3) as [L|L].
  { rewrite douglasPeucker_short by exact L. auto. }
  destruct (path_decompose path) as (a & mid & b & ->); [lia|].
  assert (Hmid : mid <> []).
  { intros ->. simpl in L. lia. }
  destruct (findFurthestPoint_range a mid b epsilon) as [E|R].
  { rewrite douglasPeucker_collapse by assumption. auto. }
  set (k := findFurthestPoint (a :: mid ++ [b]) epsilon) in *.
  destruct (lookup_lt_is_Some_2 mid (Z.to_nat k - 1)) as [p Hp]; [lia|].
  apply list_elem_of_split_length in Hp as (A & B & -> & HA).
  assert (Ek : k = Z.of_nat (S (length A))) by lia.
  rewrite douglasPeucker_split by exact Ek.
  apply Hsplit; [exact Ek| |].
  - eapply IH; [|reflexivity]. len.
  - eapply IH; [|reflexivity]. len.
Qed.

(** The output keeps both endpoints and a subsequence of the interior. *)
Lemma douglasPeucker_shape epsilon a mid b :
  exists mid', douglasPeucker (a :: mid ++ [b]) epsilon = a :: mid' ++ [b]
               /\ sublist mid' mid.
Proof.
  enough (G : forall path a mid b, path = a :: mid ++ [b] ->
            exists mid', douglasPeucker path epsilon = a :: mid' ++ [b]
                         /\ sublist mid' mid) by eauto.
  intros path. pattern path, (douglasPeucker path epsilon).
  apply douglasPeucker_ind; clear path a mid b.
  - intros path _ a mid b ->. exists mid. split; reflexivity.
  - intros a mid b _ _ a' mid' b' E. injection E as <- E.
    apply app_inj_tail in E as [<- <-].
    exists []. split; [reflexivity | apply sublist_nil_l].
  - intros a A p B b _ left right IHl IHr a' mid' b' E.
    injection E as <- E. apply app_inj_tail in E as [<- <-].
    destruct (IHl a A p eq_refl) as (A' & El & SA).
    destruct (IHr p B b eq_refl) as (B' & Er & SB).
    exists (A' ++ p :: B'). rewrite El, Er. split.
    + replace (length (a :: A' ++ [p]) - 1)%nat with (length (a :: A')) by len.
      rewrite app_comm_cons, take_app_length. simpl.
      rewrite <- app_assoc. reflexivity.
    + apply sublist_app; [assumption|]. apply sublist_skip. assumption.
Qed.

Lemma douglasPeucker_length_ge_2 path epsilon :
  (2 <= length path)%nat -> (2 <= length (douglasPeucker path epsilon))%nat.
Proof.
  intros L. destruct (path_decompose path L) as (a & mid & b & ->).
  destruct (douglasPeucker_shape epsilon a mid b) as (mid' & -> & _). len.
Qed.

(** C2: the output is no longer than the input and, for a non-empty
    input, starts with the input's first element and ends with its last
    one, whatever the tolerance. *)
Theorem douglasPeucker_keeps_endpoints path epsilon :
  (length (douglasPeucker path epsilon) <= length path)%nat
  /\ head (douglasPeucker path epsilon) = head path
  /\ last (douglasPeucker path epsilon) = last path.
Proof.
  destruct (Nat.ltb_spec (length path) 2) as [L|L].
  { rewrite douglasPeucker_short by lia. auto. }
  destruct (path_decompose path L) as (a & mid & b & ->).
  destruct (douglasPeucker_shape epsilon a mid b) as (mid' & -> & S).
  apply sublist_length in S. split; [len|]. split; [reflexivity|].
  rewrite !app_comm_cons, !last_snoc. reflexivity.
Qed.

(** What [findFurthestPoint] returning an index says about the loop. *)
Lemma findFurthestPoint_found a mid b epsilon k :
  findFurthestPoint (a :: mid ++ [b]) epsilon = k -> k <> -1 ->
  exists m, scan (dists a b mid) 1 (of_Z (-1)) (-1) = (m, k)
            /\ gt m epsilon = true.
Proof.
  rewrite findFurthestPoint_scan.
  destruct (scan _ _ _ _) as [m idx]. destruct (gt m epsilon) eqn:G.
  - intros -> _. eauto.
  - intros <- N. congruence.
Qed.

(** C3: with tolerances [e1 <= e2], the output for [e1] is at least as
    long as the output for [e2]. *)
Theorem douglasPeucker_monotone path e1 e2 :
  le e1 e2 = true ->
  (length (douglasPeucker path e2) <= length (douglasPeucker path e1))%nat.
Proof.
  intros Hle. pattern path, (douglasPeucker path e2).
  apply douglasPeucker_ind; clear path.
  - intros path L. rewrite douglasPeucker_short by exact L. lia.
  - intros a mid b Hmid _. simpl.
    apply douglasPeucker_length_ge_2. len.
  - intros a A p B b E left right IHl IHr.
    destruct (findFurthestPoint_found _ _ _ _ _ E) as (m & Hs & G); [lia|].
    assert (E1 : findFurthestPoint (a :: (A ++ p :: B) ++ [b]) e1
                 = Z.of_nat (S (length A))).
    { assert (G1 : gt m e1 = true) by exact (le_lt_trans e1 e2 m Hle G).
      rewrite findFurthestPoint_scan, Hs, G1. reflexivity. }
    rewrite (douglasPeucker_split _ _ _ _ _ _ E1). cbv zeta.
    rewrite !length_app, !length_take. lia.
Qed.

(** *** The loop on a subsequence that keeps the chosen point *)

Lemma scan_app ds1 ds2 i m idx :
  scan (ds1 ++ ds2) i m idx
  = let '(m1, idx1) := scan ds1 i m idx in
    scan ds2 (i + length ds1) m1 idx1.
Proof.
  revert i m idx. induction ds1 as [|d ds1 IH]; intros i m idx; simpl.
  - rewrite Nat.add_0_r. reflexivity.
  - replace (i + S (length ds1))%nat with (S i + length ds1)%nat by lia.
    destruct (gt d m); apply IH.
Qed.

Lemma scan_quiet ds i m idx :
  (forall d, d ∈ ds -> gt d m = false) -> scan ds i m idx = (m, idx).
Proof.
  revert i. induction ds as [|d ds IH]; intros i Hq; [reflexivity|].
  simpl. rewrite (Hq d) by apply list_elem_of_here.
  apply IH. intros d' Hd'. apply Hq. apply list_elem_of_further, Hd'.
Qed.

Lemma scan_quiet_inv ds i m idx m' :
  scan ds i m idx = (m', idx) -> idx < Z.of_nat i ->
  m' = m /\ forall d, d ∈ ds -> gt d m = false.
Proof.
  revert i m. induction ds as [|d ds IH]; simpl; intros i m E Hi.
  - split; [congruence|]. intros d Hd. inversion Hd.
  - destruct (gt d m) eqn:G.
    + apply scan_index in E. lia.
    + apply IH in E as [-> Hq]; [|lia]. split; [reflexivity|].
      intros d' Hd'. apply elem_of_cons in Hd' as [->|Hd']; auto.
Qed.

Lemma scan_dominated ds i m idx m' idx' d :
  scan ds i m idx = (m', idx') -> gt d m' = true ->
  gt d m = true
  /\ forall d', d' ∈ ds -> is_nan d' = false -> gt d d' = true.
Proof.
  revert i m idx. induction ds as [|d0 ds IH]; simpl; intros i m idx E G.
  - inversion E; subst. split; [assumption|]. intros d' Hd'. inversion Hd'.
  - destruct (gt d0 m) eqn:G0; apply IH in E as [Gm Hall]; try assumption.
    + split; [exact (lt_trans m d0 d G0 Gm)|].
      intros d' Hd' Hn. apply elem_of_cons in Hd' as [->|Hd']; auto.
    + split; [assumption|].
      intros d' Hd' Hn. apply elem_of_cons in Hd' as [->|Hd']; auto.
      exact (lt_above m d d0 Gm G0 Hn).
Qed.

Lemma scan_max_in ds i m idx m' idx' :
  scan ds i m idx = (m', idx') ->
  m' = m \/ (m' ∈ ds /\ is_nan m' = false).
Proof.
  revert i m idx. induction ds as [|d ds IH]; simpl; intros i m idx E.
  - left. congruence.
  - destruct (gt d m) eqn:G; apply IH in E as [->|[Hin Hn]].
    + right. split; [apply list_elem_of_here | exact (lt_not_nan_r m d G)].
    + right. split; [apply list_elem_of_further, Hin | exact Hn].
    + left. reflexivity.
    + right. split; [apply list_elem_of_further, Hin | exact Hn].
Qed.

Lemma sublist_map {A B} (f : A -> B) (l1 l2 : list A) :
  sublist l1 l2 -> sublist (map f l1) (map f l2).
Proof. induction 1; simpl; constructor; assumption. Qed.

Lemma scan_sublist dA d dB dA' dB' m0 m :
  scan (dA ++ d :: dB) 1 m0 (-1) = (m, Z.of_nat (S (length dA))) ->
  sublist dA' dA -> sublist dB' dB ->
  scan (dA' ++ d :: dB') 1 m0 (-1) = (m, Z.of_nat (S (length dA'))).
Proof.
  intros E SA SB. rewrite scan_app in E. rewrite scan_app.
  destruct (scan dA 1 m0 (-1)) as [mA iA] eqn:EA.
  destruct (scan dA' 1 m0 (-1)) as [mA' iA'] eqn:EA'.
  simpl in E. simpl.
  assert (RA := scan_index _ _ _ _ _ _ EA).
  destruct (gt d mA) eqn:G.
  - apply scan_quiet_inv in E as [-> Hq]; [|lia].
    destruct (scan_dominated _ _ _ _ _ _ _ EA G) as [G0 Hall].
    assert (G' : gt d mA' = true).
    { destruct (scan_max_in _ _ _ _ _ _ EA') as [->|[Hin Hn]]; [assumption|].
      apply Hall; [|assumption]. eapply elem_of_sublist; eassumption. }
    rewrite G'. rewrite scan_quiet.
    + reflexivity.
    + intros d' Hd'. apply Hq. eapply elem_of_sublist; eassumption.
  - apply scan_index in E. lia.
Qed.

Lemma scan_dists_sublist a b A p B A' B' m0 m :
  scan (dists a b (A ++ p :: B)) 1 m0 (-1) = (m, Z.of_nat (S (length A))) ->
  sublist A' A -> sublist B' B ->
  scan (dists a b (A' ++ p :: B')) 1 m0 (-1) = (m, Z.of_nat (S (length A'))).
Proof.
  unfold dists. rewrite !map_app. cbn [map]. intros E SA SB.
  rewrite <- (length_map (fun p => perpendicularDistance p a b) A) in E.
  rewrite <- (length_map (fun p => perpendicularDistance p a b) A').
  eapply scan_sublist; [exact E | |]; apply sublist_map; assumption.
Qed.

(** C4: simplifying an already simplified path with the same tolerance
    changes nothing. *)
Theorem douglasPeucker_idempotent path epsilon :
  douglasPeucker (douglasPeucker path epsilon) epsilon
  = douglasPeucker path epsilon.
Proof.
  pattern path, (douglasPeucker path epsilon).
  apply douglasPeucker_ind; clear path.
  - intros path L. apply douglasPeucker_short, L.
  - intros a mid b _ _. apply douglasPeucker_short. simpl. lia.
  - intros a A p B b E left right IHl IHr.
    destruct (findFurthestPoint_found _ _ _ _ _ E) as (m & Hs & G); [lia|].
    destruct (douglasPeucker_shape epsilon a A p) as (A' & El & SA).
    destruct (douglasPeucker_shape epsilon p B b) as (B' & Er & SB).
    fold left in El, IHl. fold right in Er, IHr.
    assert (Eo : take (length left - 1) left ++ right
                 = a :: (A' ++ p :: B') ++ [b]).
    { rewrite El, Er.
      replace (length (a :: A' ++ [p]) - 1)%nat with (length (a :: A')) by len.
      rewrite app_comm_cons, take_app_length. simpl.
      rewrite <- app_assoc. reflexivity. }
    rewrite Eo.
    assert (E' : findFurthestPoint (a :: (A' ++ p :: B') ++ [b]) epsilon
                 = Z.of_nat (S (length A'))).
    { rewrite findFurthestPoint_scan.
      rewrite (scan_dists_sublist _ _ _ _ _ _ _ _ _ Hs SA SB), G.
      reflexivity. }
    rewrite (douglasPeucker_split _ _ _ _ _ _ E'). cbv zeta.
    rewrite <- El, <- Er, IHl, IHr. exact Eo.
Qed.

(** *** Coincident reference endpoints *)

Lemma perpendicularDistance_coincident p a b :
  identical (x a) (x b) -> identical (y a) (y b) ->
  perpendicularDistance p a b = NaN.
Proof.
  intros Hx Hy. unfold perpendicularDistance. cbv zeta.
  assert (Dx := sub_identical_null _ _ Hx).
  assert (Dy := sub_identical_null _ _ Hy).
  apply div_null_pnull.
  - apply abs_null.
    set (u := sub (mul (sub (y b) (y a)) (x p)) (mul (sub (x b) (x a)) (y p))).
    assert (Hu : null u = true)
      by (apply sub_null; apply mul_null_l; assumption).
    apply identical_cases in Hx as [Ex|[Hxa Hxb]].
    + apply identical_cases in Hy as [Ey|[Hya Hyb]].
      * rewrite <- Ex, <- Ey, (mul_comm (y a) (x a)).
        apply add_sub_cancel_null, Hu.
      * apply sub_null; [apply add_null; [exact Hu|]|].
        -- apply mul_null_r, Hya.
        -- apply mul_null_l, Hyb.
    + apply sub_null; [apply add_null; [exact Hu|]|].
      * apply mul_null_l, Hxb.
      * apply mul_null_r, Hxa.
  - apply sqrt_pnull, add_pnull; apply sq_null; assumption.
Qed.

Lemma findFurthestPoint_coincident a mid b epsilon :
  identical (x a) (x b) -> identical (y a) (y b) ->
  findFurthestPoint (a :: mid ++ [b]) epsilon = -1.
Proof.
  intros Hx Hy. rewrite findFurthestPoint_scan, scan_quiet.
  - destruct (gt _ epsilon); reflexivity.
  - intros d Hd. unfold dists in Hd.
    apply list_elem_of_In, in_map_iff in Hd as (p & <- & _).
    rewrite perpendicularDistance_coincident by assumption.
    apply gt_nan_l.
Qed.

(** C9: a path of at least three points whose first and last points
    have identical coordinates collapses to these two points, whatever
    the interior points and the tolerance are: every distance is NaN. *)
Theorem douglasPeucker_closed_path_collapses path first last_ epsilon :
  (3 <= length path)%nat ->
  head path = Some first -> last path = Some last_ ->
  identical (x first) (x last_) -> identical (y first) (y last_) ->
  (forall p, p ∈ path -> perpendicularDistance p first last_ = NaN)
  /\ findFurthestPoint path epsilon = -1
  /\ douglasPeucker path epsilon = [first; last_].
Proof.
  intros L Hh Hl Hx Hy.
  destruct (path_decompose path) as (a & mid & b & ->); [lia|].
  simpl in Hh. rewrite app_comm_cons, last_snoc in Hl.
  injection Hh as ->. injection Hl as ->.
  split; [|split].
  - intros p _. apply perpendicularDistance_coincident; assumption.
  - apply findFurthestPoint_coincident; assumption.
  - apply douglasPeucker_collapse.
    + intros ->. simpl in L. lia.
    + apply findFurthestPoint_coincident; assumption.
Qed.
End Facts.

(** The scenarios of the test suite. *)

Example straight_line_collapses :
  douglasPeucker
    [Point (of_Z 0) (of_Z 0); Point (of_Z 1) (of_Z 1); Point (of_Z 2) (of_Z 2);
     Point (of_Z 3) (of_Z 3); Point (of_Z 4) (of_Z 4)] (decimal 1 1)
  = [Point (of_Z 0) (of_Z 0); Point (of_Z 4) (of_Z 4)].
Proof. vm_compute. reflexivity. Qed.

Example significant_deviation_kept :
  let path :=
    [Point (of_Z 0) (of_Z 0); Point (of_Z 1) (decimal 1 1);
     Point (of_Z 2) (of_Z 2); Point (of_Z 3) (decimal 1 1);
     Point (of_Z 4) (of_Z 0)] in
  douglasPeucker path default_epsilon = path.
Proof. vm_compute. reflexivity. Qed.

Example single_deviation :
  douglasPeucker
    [Point (of_Z 0) (of_Z 0); Point (of_Z 1) (of_Z 0); Point (of_Z 2) (of_Z 1);
     Point (of_Z 3) (of_Z 0); Point (of_Z 4) (of_Z 0)] default_epsilon
  = [Point (of_Z 0) (of_Z 0); Point (of_Z 2) (of_Z 1); Point (of_Z 4) (of_Z 0)].
Proof. vm_compute. reflexivity. Qed.

Example single_point_unchanged :
  douglasPeucker [Point (of_Z 1) (of_Z 2)] default_epsilon
  = [Point (of_Z 1) (of_Z 2)].
Proof. reflexivity. Qed.

Lemma douglasPeucker_monotone_witness :
  le (decimal 1 1) (of_Z 2) = true
  /\ (length (douglasPeucker sample_path (of_Z 2))
      <= length (douglasPeucker sample_path (decimal 1 1)))%nat.
Proof.
  split; [reflexivity|].
  apply (douglasPeucker_monotone sample_path (decimal 1 1) (of_Z 2)).
  reflexivity.
Defined.

Lemma douglasPeucker_closed_path_collapses_witness :
  douglasPeucker closed_path (decimal 5 1)
  = [Point (of_Z 0) (of_Z 0); Point (of_Z 0) (of_Z 0)].
Proof.
  apply (douglasPeucker_closed_path_collapses closed_path
           (Point (of_Z 0) (of_Z 0)) (Point (of_Z 0) (of_Z 0)) (decimal 5 1)).
  - simpl. lia.
  - reflexivity.
  - reflexivity.
  - left. reflexivity.
  - left. reflexivity.
Defined.
End DouglasPeuckerFacts.

Module PriorityQueueFacts.
Import Num NumOrder NumRounding PriorityQueue.

Lemma to_int32_small (z : Z) : - 2 ^ 31 <= z < 2 ^ 31 -> to_int32 z = z.
Proof. unfold to_int32. lia. Qed.

Lemma sar_1 (c : Z) : 0 <= c < 2 ^ 31 -> sar c 1 = c / 2.
Proof.
  intros B. unfold sar. rewrite to_int32_small by lia.
  rewrite Z.shiftr_div_pow2 by lia. reflexivity.
Qed.

Lemma shl_1 (c : Z) : 0 <= c < 2 ^ 30 -> shl c 1 = 2 * c.
Proof.
  intros B. unfold shl. rewrite (to_int32_small c) by lia.
  rewrite Z.shiftl_mul_pow2 by lia. rewrite to_int32_small; lia.
Qed.

Section Heap.
Context {T : Type}.
Implicit Types (arr : list (entry T)) (q : queue T).

Lemma at_nat arr (k : nat) : at_ arr (Z.of_nat k) = arr !! k.
Proof.
  unfold at_. destruct (Z.ltb_spec (Z.of_nat k) 0); [lia|].
  rewrite Nat2Z.id. reflexivity.
Qed.

Lemma set_nat arr (k : nat) e : set_ arr (Z.of_nat k) e = <[k := e]> arr.
Proof. unfold set_. rewrite Nat2Z.id. reflexivity. Qed.

(** *** Exchanging two entries *)

Lemma swap_lookup arr (i j : nat) ei ej (k : nat) :
  i <> j -> arr !! i = Some ei -> arr !! j = Some ej ->
  <[j := ei]> (<[i := ej]> arr) !! k
  = if decide (k = j) then Some ei
    else if decide (k = i) then Some ej else arr !! k.
Proof.
  intros N Hi Hj.
  apply lookup_lt_Some in Hi as Li. apply lookup_lt_Some in Hj as Lj.
  destruct (decide (k = j)) as [->|Nj].
  - apply list_lookup_insert_eq. rewrite length_insert. exact Lj.
  - rewrite list_lookup_insert_ne by congruence.
    destruct (decide (k = i)) as [->|Ni].
    + apply list_lookup_insert_eq. exact Li.
    + apply list_lookup_insert_ne. congruence.
Qed.

Lemma swap_Permutation arr (i j : nat) ei ej :
  i <> j -> arr !! i = Some ei -> arr !! j = Some ej ->
  Permutation (<[j := ei]> (<[i := ej]> arr)) arr.
Proof.
  intros N Hi Hj. apply Permutation_inj. split.
  { rewrite !length_insert. reflexivity. }
  exists (fun k => if decide (k = j) then i else if decide (k = i) then j else k).
  split.
  - intros a b. repeat case_decide; lia.
  - intros k. rewrite (swap_lookup arr i j ei ej k N Hi Hj).
    repeat case_decide; congruence.
Qed.

Lemma priorities_ordered_lookup arr (k : nat) e :
  priorities_ordered arr -> arr !! k = Some e -> ordered (priority e) = true.
Proof. intros Hok Hk. exact (proj1 (Forall_lookup _ _) Hok k e Hk). Qed.

Lemma priorities_ordered_Permutation arr arr' :
  Permutation arr' arr -> priorities_ordered arr -> priorities_ordered arr'.
Proof. intros P Hok. unfold priorities_ordered. rewrite P. exact Hok. Qed.

Lemma lep_trans (e1 e2 e3 : entry T) : lep e1 e2 -> lep e2 e3 -> lep e1 e3.
Proof. apply le_trans. Qed.

Lemma lep_refl (e : entry T) : ordered (priority e) = true -> lep e e.
Proof.
  intros [_ N]%andb_true_iff. apply le_refl, negb_true_iff, N.
Qed.


Section Comparator.
Variable compare : number -> number -> number.
Hypothesis compare_respects : respects compare.

(** *** Sifting up *)

Lemma up_inv_swap arr (c : nat) ec ep :
  (0 < c)%nat ->
  arr !! c = Some ec -> arr !! ((c - 1) / 2)%nat = Some ep ->
  lep ec ep -> up_inv arr c ->
  up_inv (<[((c - 1) / 2)%nat := ec]> (<[c := ep]> arr)) ((c - 1) / 2)%nat.
Proof.
  intros Hc0 Hc Hp Hle [I1 I2].
  set (p := ((c - 1) / 2)%nat) in *.
  assert (Npc : c <> p) by lia.
  split.
  - intros j Nj ej epj Hj0 Hj Hpj.
    rewrite (swap_lookup arr c p ec ep _ Npc Hc Hp) in Hj.
    rewrite (swap_lookup arr c p ec ep _ Npc Hc Hp) in Hpj.
    destruct (decide (j = p)) as [|_]; [contradiction|].
    destruct (decide (j = c)) as [->|Njc].
    + fold p in Hpj. destruct (decide (p = p)); [|contradiction].
      congruence.
    + destruct (decide (((j - 1) / 2)%nat = p)) as [Ep|Np].
      * injection Hpj as <-. eapply lep_trans; [exact Hle|].
        apply (I1 j Njc ej ep Hj0 Hj). rewrite Ep. exact Hp.
      * destruct (decide (((j - 1) / 2)%nat = c)) as [Ec|Nc].
        -- injection Hpj as <-. exact (I2 j ej ep Hc0 Hj0 Ec Hj Hp).
        -- exact (I1 j Njc ej epj Hj0 Hj Hpj).
  - intros j ej eg Hp0 Hj0 Hpar Hj Hg.
    rewrite (swap_lookup arr c p ec ep _ Npc Hc Hp) in Hj.
    rewrite (swap_lookup arr c p ec ep _ Npc Hc Hp) in Hg.
    destruct (decide (((p - 1) / 2)%nat = p)); [lia|].
    destruct (decide (((p - 1) / 2)%nat = c)); [lia|].
    assert (Hgp : lep eg ep) by (apply (I1 p (not_eq_sym Npc) ep eg Hp0 Hp Hg)).
    destruct (decide (j = p)); [lia|].
    destruct (decide (j = c)) as [->|Njc]; [congruence|].
    eapply lep_trans; [exact Hgp|].
    apply (I1 j Njc ej ep Hj0 Hj). rewrite Hpar. exact Hp.
Qed.

Lemma heapifyUpLoop_spec (fuel : nat) arr (c : nat) :
  (c < fuel)%nat -> (c < length arr)%nat ->
  Z.of_nat (length arr) < 2 ^ 30 ->
  priorities_ordered arr -> up_inv arr c ->
  heap (heapifyUpLoop compare fuel arr (Z.of_nat c))
  /\ Permutation (heapifyUpLoop compare fuel arr (Z.of_nat c)) arr.
Proof.
  revert arr c. induction fuel as [|fuel IH]; intros arr c Lf Lc Lb Hok Hinv; [lia|].
  cbn [heapifyUpLoop]. destruct (Z.ltb_spec 0 (Z.of_nat c)) as [Hc0|Hc0].
  - assert (Ep : sar (Z.of_nat c - 1) 1 = Z.of_nat ((c - 1) / 2)).
    { rewrite sar_1 by lia. lia. }
    rewrite Ep, !at_nat.
    destruct (lookup_lt_is_Some_2 arr c Lc) as [ec Hc].
    destruct (lookup_lt_is_Some_2 arr ((c - 1) / 2)%nat) as [ep Hp]; [lia|].
    rewrite Hc, Hp.
    pose proof (priorities_ordered_lookup _ _ _ Hok Hc) as Oc.
    pose proof (priorities_ordered_lookup _ _ _ Hok Hp) as Op.
    destruct (compare_respects _ _ Oc Op) as (R1 & R2 & _).
    destruct (ge (compare (priority ec) (priority ep)) zero) eqn:G.
    + split; [|reflexivity]. intros j.
      destruct (decide (j = c)) as [->|Nj]; [|apply Hinv, Nj].
      intros ej epj _ Hj Hpj. rewrite Hc in Hj. rewrite Hp in Hpj.
      injection Hj as <-. injection Hpj as <-. apply R1. reflexivity.
    + rewrite !set_nat.
      assert (P : Permutation (<[((c - 1) / 2)%nat := ec]> (<[c := ep]> arr)) arr)
        by (apply (swap_Permutation arr c _ ec ep); [lia|assumption..]).
      destruct (IH (<[((c - 1) / 2)%nat := ec]> (<[c := ep]> arr)) ((c - 1) / 2)%nat)
        as [Hh Hp'].
      * lia.
      * rewrite !length_insert. lia.
      * rewrite !length_insert. exact Lb.
      * exact (priorities_ordered_Permutation _ _ P Hok).
      * apply up_inv_swap; try assumption; [lia|]. apply R2. reflexivity.
      * split; [exact Hh|]. etransitivity; eassumption.
  - assert (c = 0%nat) as -> by lia. split; [|reflexivity].
    intros j. destruct (decide (j = 0%nat)) as [->|Nj]; [|apply Hinv, Nj].
    intros ej ep Hj0. lia.
Qed.

(** *** Sifting down *)

Lemma heapifyDownLoop_step (fuel : nat) arr (current : Z) :
  heapifyDownLoop compare (S fuel) arr current
  = let smallest := pick compare arr current in
    if smallest =? current then arr
    else
      match at_ arr current, at_ arr smallest with
      | Some c, Some s =>
          heapifyDownLoop compare fuel
            (set_ (set_ arr current s) smallest c) smallest
      | _, _ => arr
      end.
Proof. reflexivity. Qed.

Lemma pick_spec arr (c : nat) ec :
  Z.of_nat (length arr) < 2 ^ 30 -> priorities_ordered arr ->
  arr !! c = Some ec ->
  exists s : nat,
    pick compare arr (Z.of_nat c) = Z.of_nat s
    /\ (s = c \/ s = (2 * c + 1)%nat \/ s = (2 * c + 2)%nat)
    /\ exists es, arr !! s = Some es /\ lep es ec
        /\ forall j ej, (j = 2 * c + 1 \/ j = 2 * c + 2)%nat ->
              arr !! j = Some ej -> lep es ej.
Proof.
  intros Lb Hok Hc. apply lookup_lt_Some in Hc as Lc.
  pose proof (priorities_ordered_lookup _ _ _ Hok Hc) as Oc.
  assert (Rc : lep ec ec).
  { apply lep_refl, Oc. }
  unfold pick. rewrite shl_1 by lia.
  replace (2 * Z.of_nat c + 1) with (Z.of_nat (2 * c + 1)) by lia.
  replace (Z.of_nat (2 * c + 1) + 1) with (Z.of_nat (2 * c + 2)) by lia.
  rewrite !at_nat, Hc.
  destruct (arr !! (2 * c + 1)%nat) as [el|] eqn:Hl.
  - apply lookup_lt_Some in Hl as Ll.
    pose proof (priorities_ordered_lookup _ _ _ Hok Hl) as Ol.
    destruct (Z.ltb_spec (Z.of_nat (2 * c + 1)) (Z.of_nat (length arr))); [|lia].
    cbn [andb].
    destruct (compare_respects _ _ Ol Oc) as (_ & _ & R3 & R4).
    destruct (lt (compare (priority el) (priority ec)) zero) eqn:G1.
    + (* the left child is smaller than the current entry *)
      rewrite at_nat, Hl.
      destruct (arr !! (2 * c + 2)%nat) as [er|] eqn:Hr.
      * apply lookup_lt_Some in Hr as Lr.
        pose proof (priorities_ordered_lookup _ _ _ Hok Hr) as Or.
        destruct (Z.ltb_spec (Z.of_nat (2 * c + 2)) (Z.of_nat (length arr))); [|lia].
        cbn [andb].
        destruct (compare_respects _ _ Or Ol) as (_ & _ & R3' & R4').
        destruct (lt (compare (priority er) (priority el)) zero) eqn:G2.
        -- exists (2 * c + 2)%nat. split; [reflexivity|]. split; [auto|].
           exists er. split; [exact Hr|]. split.
           ++ eapply lep_trans; [apply R3'; reflexivity | apply R3; reflexivity].
           ++ intros j ej [->| ->] Hj.
              ** rewrite Hl in Hj. injection Hj as <-. apply R3'. reflexivity.
              ** rewrite Hr in Hj. injection Hj as <-.
                 apply lep_refl, Or.
        -- exists (2 * c + 1)%nat. split; [reflexivity|]. split; [auto|].
           exists el. split; [exact Hl|]. split; [apply R3; reflexivity|].
           intros j ej [->| ->] Hj.
           ++ rewrite Hl in Hj. injection Hj as <-.
              apply lep_refl, Ol.
           ++ rewrite Hr in Hj. injection Hj as <-. apply R4'. reflexivity.
      * exists (2 * c + 1)%nat. split; [reflexivity|]. split; [auto|].
        exists el. split; [exact Hl|]. split; [apply R3; reflexivity|].
        intros j ej [->| ->] Hj; [|congruence].
        rewrite Hl in Hj. injection Hj as <-.
        apply lep_refl, Ol.
    + (* the current entry is not above the left child *)
      rewrite at_nat, Hc.
      destruct (arr !! (2 * c + 2)%nat) as [er|] eqn:Hr.
      * apply lookup_lt_Some in Hr as Lr.
        pose proof (priorities_ordered_lookup _ _ _ Hok Hr) as Or.
        destruct (Z.ltb_spec (Z.of_nat (2 * c + 2)) (Z.of_nat (length arr))); [|lia].
        cbn [andb].
        destruct (compare_respects _ _ Or Oc) as (_ & _ & R3' & R4').
        destruct (lt (compare (priority er) (priority ec)) zero) eqn:G2.
        -- exists (2 * c + 2)%nat. split; [reflexivity|]. split; [auto|].
           exists er. split; [exact Hr|]. split; [apply R3'; reflexivity|].
           intros j ej [->| ->] Hj.
           ++ rewrite Hl in Hj. injection Hj as <-.
              eapply lep_trans; [apply R3'; reflexivity | apply R4; reflexivity].
           ++ rewrite Hr in Hj. injection Hj as <-.
              apply lep_refl, Or.
        -- exists c. split; [reflexivity|]. split; [auto|].
           exists ec. split; [exact Hc|]. split; [exact Rc|].
           intros j ej [->| ->] Hj.
           ++ rewrite Hl in Hj. injection Hj as <-. apply R4. reflexivity.
           ++ rewrite Hr in Hj. injection Hj as <-. apply R4'. reflexivity.
      * exists c. split; [reflexivity|]. split; [auto|].
        exists ec. split; [exact Hc|]. split; [exact Rc|].
        intros j ej [->| ->] Hj; [|congruence].
        rewrite Hl in Hj. injection Hj as <-. apply R4. reflexivity.
  - (* no left child, hence no right child *)
    rewrite at_nat, Hc.
    assert (Hr : arr !! (2 * c + 2)%nat = None).
    { apply lookup_ge_None. apply lookup_ge_None in Hl. lia. }
    rewrite Hr. exists c. split; [reflexivity|]. split; [auto|].
    exists ec. split; [exact Hc|]. split; [exact Rc|].
    intros j ej [->| ->] Hj; congruence.
Qed.

Lemma down_inv_swap arr (c s : nat) ec es :
  (s = 2 * c + 1 \/ s = 2 * c + 2)%nat ->
  arr !! c = Some ec -> arr !! s = Some es -> lep es ec ->
  (forall j ej, (j = 2 * c + 1 \/ j = 2 * c + 2)%nat ->
     arr !! j = Some ej -> lep es ej) ->
  down_inv arr c ->
  down_inv (<[s := ec]> (<[c := es]> arr)) s.
Proof.
  intros Hs Hc Hes Hle Hmin [J1 J2].
  assert (Ncs : c <> s) by lia.
  split.
  - intros j Npj ej epj Hj0 Hj Hpj.
    rewrite (swap_lookup arr c s ec es _ Ncs Hc Hes) in Hj.
    rewrite (swap_lookup arr c s ec es _ Ncs Hc Hes) in Hpj.
    destruct (decide (((j - 1) / 2)%nat = s)) as [|_]; [contradiction|].
    destruct (decide (((j - 1) / 2)%nat = c)) as [Epc|Npc].
    + injection Hpj as <-.
      destruct (decide (j = s)) as [->|Njs]; [congruence|].
      destruct (decide (j = c)) as [->|Njc]; [lia|].
      apply (Hmin j ej); [lia | exact Hj].
    + destruct (decide (j = s)) as [->|Njs]; [lia|].
      destruct (decide (j = c)) as [->|Njc].
      * injection Hj as <-.
        apply (J2 s es epj); [lia | lia | lia | exact Hes | exact Hpj].
      * exact (J1 j Npc ej epj Hj0 Hj Hpj).
  - intros j ej eg Hs0 Hj0 Hpar Hj Hg.
    rewrite (swap_lookup arr c s ec es _ Ncs Hc Hes) in Hj.
    rewrite (swap_lookup arr c s ec es _ Ncs Hc Hes) in Hg.
    destruct (decide (((s - 1) / 2)%nat = s)); [lia|].
    destruct (decide (((s - 1) / 2)%nat = c)); [|lia].
    injection Hg as <-.
    destruct (decide (j = s)); [lia|]. destruct (decide (j = c)); [lia|].
    apply (J1 j); [lia | exact Hj0 | exact Hj |]. rewrite Hpar. exact Hes.
Qed.

Lemma heapifyDownLoop_spec (fuel : nat) arr (c : nat) :
  (length arr <= fuel + c)%nat -> (c < length arr)%nat ->
  Z.of_nat (length arr) < 2 ^ 30 ->
  priorities_ordered arr -> down_inv arr c ->
  heap (heapifyDownLoop compare fuel arr (Z.of_nat c))
  /\ Permutation (heapifyDownLoop compare fuel arr (Z.of_nat c)) arr.
Proof.
  revert arr c. induction fuel as [|fuel IH]; intros arr c Lf Lc Lb Hok Hinv; [lia|].
  rewrite heapifyDownLoop_step. cbv zeta.
  destruct (lookup_lt_is_Some_2 arr c Lc) as [ec Hc].
  destruct (pick_spec arr c ec Lb Hok Hc) as (s & -> & Hs & es & Hes & Hle & Hmin).
  destruct (Z.eqb_spec (Z.of_nat s) (Z.of_nat c)) as [E|N].
  - assert (s = c) as -> by lia. split; [|reflexivity].
    rewrite Hc in Hes. injection Hes as <-.
    intros j. destruct (decide (((j - 1) / 2)%nat = c)) as [Ep|Np];
      [|apply Hinv, Np].
    intros ej ep Hj0 Hj Hpj. rewrite Ep, Hc in Hpj. injection Hpj as <-.
    apply (Hmin j ej); [lia | exact Hj].
  - assert (Hs' : (s = 2 * c + 1 \/ s = 2 * c + 2)%nat) by lia.
    apply lookup_lt_Some in Hes as Ls.
    rewrite !at_nat, Hc, Hes, !set_nat.
    assert (P : Permutation (<[s := ec]> (<[c := es]> arr)) arr)
      by (apply (swap_Permutation arr c s ec es); [lia|assumption..]).
    destruct (IH (<[s := ec]> (<[c := es]> arr)) s) as [Hh Hp'].
    + rewrite !length_insert. lia.
    + rewrite !length_insert. lia.
    + rewrite !length_insert. exact Lb.
    + exact (priorities_ordered_Permutation _ _ P Hok).
    + apply down_inv_swap; assumption.
    + split; [exact Hh|]. etransitivity; eassumption.
Qed.

(** *** The queue operations *)

Lemma heap_nil : heap (@nil (entry T)).
Proof. intros j ej ep _ Hj. rewrite lookup_nil in Hj. discriminate. Qed.

(** In a heap the root is not above any entry. *)
Lemma heap_root_min arr root :
  heap arr -> priorities_ordered arr -> arr !! 0%nat = Some root ->
  forall e, e ∈ arr -> lep root e.
Proof.
  intros Hh Hok Hroot e [j Hj]%list_elem_of_lookup. revert e Hj.
  induction j as [j IH] using lt_wf_ind. intros e Hj.
  destruct (decide (j = 0%nat)) as [->|Nj].
  - rewrite Hroot in Hj. injection Hj as <-.
    apply lep_refl. exact (priorities_ordered_lookup _ _ _ Hok Hroot).
  - apply lookup_lt_Some in Hj as Lj.
    destruct (lookup_lt_is_Some_2 arr ((j - 1) / 2)%nat) as [ep Hp]; [lia|].
    eapply lep_trans; [apply (IH ((j - 1) / 2)%nat); [lia | exact Hp]|].
    apply (Hh j e ep); [lia | exact Hj | exact Hp].
Qed.

Lemma enqueue_spec arr (t : T) (p : number) :
  heap arr -> priorities_ordered arr -> ordered p = true ->
  Z.of_nat (length arr) + 1 < 2 ^ 30 ->
  exists arr',
    enqueue (Queue arr compare) t p = Queue arr' compare
    /\ heap arr' /\ Permutation arr' (arr ++ [Entry t p]).
Proof.
  intros Hh Hok Hp Lb. unfold enqueue. cbn [items PriorityQueue.compare].
  eexists. split; [reflexivity|]. unfold heapifyUp.
  replace (Z.of_nat (length (arr ++ [Entry t p])) - 1)
    with (Z.of_nat (length arr)) by (rewrite length_app; simpl; lia).
  apply heapifyUpLoop_spec.
  - rewrite length_app. simpl. lia.
  - rewrite length_app. simpl. lia.
  - rewrite length_app. simpl. lia.
  - apply Forall_app. split; [exact Hok|]. constructor; [exact Hp|constructor].
  - split.
    + intros j Nj ej ep Hj0 Hj Hpj.
      apply lookup_lt_Some in Hj as Lj. rewrite length_app in Lj. simpl in Lj.
      rewrite lookup_app_l in Hj by lia. rewrite lookup_app_l in Hpj by lia.
      exact (Hh j ej ep Hj0 Hj Hpj).
    + intros j ej eg _ Hj0 Hpar Hj _.
      apply lookup_lt_Some in Hj. rewrite length_app in Hj. simpl in Hj. lia.
Qed.

Lemma enqueueAll_spec (l : list (T * number)) arr :
  heap arr -> priorities_ordered arr ->
  Forall (fun p => ordered (snd p) = true) l ->
  Z.of_nat (length arr + length l) < 2 ^ 30 ->
  exists arr',
    enqueueAll (Queue arr compare) l = Queue arr' compare
    /\ heap arr'
    /\ Permutation arr' (arr ++ map (fun p => Entry (fst p) (snd p)) l).
Proof.
  revert arr. induction l as [|[t p] l IH]; intros arr Hh Hok Hl Lb.
  - exists arr. rewrite app_nil_r. auto.
  - inversion Hl as [|? ? Hp Hl']; subst. simpl in Hp, Lb.
    destruct (enqueue_spec arr t p Hh Hok Hp) as (arr1 & E1 & Hh1 & P1); [lia|].
    assert (Hok1 : priorities_ordered arr1).
    { apply (priorities_ordered_Permutation _ _ P1).
      apply Forall_app. split; [exact Hok|]. constructor; [exact Hp|constructor]. }
    destruct (IH arr1 Hh1 Hok1 Hl') as (arr' & E' & Hh' & P').
    { rewrite (Permutation_length P1), length_app. simpl. lia. }
    exists arr'. split; [|split; [exact Hh'|]].
    + unfold enqueueAll in *. simpl. rewrite E1. exact E'.
    + rewrite P', P1, <- app_assoc. reflexivity.
Qed.

Lemma dequeue_spec root rest :
  heap (root :: rest) -> priorities_ordered (root :: rest) ->
  Z.of_nat (length (root :: rest)) < 2 ^ 30 ->
  exists arr',
    dequeue (Queue (root :: rest) compare)
      = (Some (item root), Queue arr' compare)
    /\ heap arr' /\ Permutation (root :: rest) (root :: arr').
Proof.
  intros Hh Hok Lb. unfold dequeue. cbn [items PriorityQueue.compare].
  destruct rest as [|r rest'] using rev_ind.
  { exists []. split; [reflexivity|]. split; [apply heap_nil | reflexivity]. }
  clear IHrest'. rename rest' into mid, r into l.
  assert (Ll : length (root :: mid ++ [l]) = S (S (length mid)))
    by (simpl; rewrite length_app; simpl; lia).
  rewrite Ll. cbn [Nat.eqb lookup list_lookup].
  rewrite app_comm_cons, last_snoc, removelast_last.
  eexists. split; [reflexivity|].
  unfold heapifyDown, set_. change (Z.to_nat 0) with 0%nat.
  cbn [insert list_insert]. change 0 with (Z.of_nat 0).
  assert (P0 : Permutation ((root :: mid) ++ [l]) (root :: l :: mid)).
  { simpl. constructor. rewrite Permutation_app_comm. reflexivity. }
  destruct (heapifyDownLoop_spec (length (l :: mid)) (l :: mid) 0) as [Hh' P'].
  - lia.
  - simpl. lia.
  - rewrite Ll in Lb. simpl. lia.
  - apply (priorities_ordered_Permutation _ _ (Permutation_sym P0)) in Hok.
    inversion Hok as [|? ? _ Hok']. exact Hok'.
  - split.
    + intros j Np ej ep Hj0 Hj Hpj.
      apply lookup_lt_Some in Hj as Lj. simpl in Lj.
      apply (Hh j ej ep Hj0).
      * destruct j as [|j]; [lia|].
        change (mid !! j = Some ej) in Hj.
        change ((mid ++ [l]) !! j = Some ej).
        rewrite lookup_app_l by lia. exact Hj.
      * destruct ((j - 1) / 2)%nat as [|k] eqn:Ek; [congruence|].
        change (mid !! k = Some ep) in Hpj.
        change ((mid ++ [l]) !! k = Some ep).
        apply lookup_lt_Some in Hpj as Lk.
        rewrite lookup_app_l by lia. exact Hpj.
    + intros j ej eg Hc0. lia.
  - split; [exact Hh'|]. rewrite P0. constructor. symmetry. exact P'.
Qed.

Lemma drain_spec (fuel : nat) arr :
  heap arr -> priorities_ordered arr ->
  Z.of_nat (length arr) < 2 ^ 30 -> (length arr <= fuel)%nat ->
  exists es,
    drain fuel (Queue arr compare) = (map item es, Queue [] compare)
    /\ Permutation es arr
    /\ StronglySorted lep es.
Proof.
  revert arr. induction fuel as [|fuel IH]; intros arr Hh Hok Lb Lf.
  { destruct arr; [|simpl in Lf; lia]. exists []. repeat split; constructor. }
  destruct arr as [|root rest].
  { exists []. repeat split; constructor. }
  cbn [drain isEmpty items length Nat.eqb].
  destruct (dequeue_spec root rest Hh Hok Lb) as (arr' & -> & Hh' & P).
  assert (Hok' : priorities_ordered arr').
  { apply (priorities_ordered_Permutation _ _ (Permutation_sym P)) in Hok.
    inversion Hok; assumption. }
  assert (Len : length rest = length arr').
  { apply Permutation_length in P. simpl in P. lia. }
  destruct (IH arr' Hh' Hok') as (es & -> & Pes & Ses).
  { simpl in Lb. lia. }
  { simpl in Lf. lia. }
  exists (root :: es). split; [reflexivity|]. split.
  - rewrite P. constructor. exact Pes.
  - constructor; [exact Ses|]. apply Forall_forall. intros e He.
    apply (heap_root_min (root :: rest) root Hh Hok eq_refl).
    rewrite P. apply list_elem_of_further. rewrite <- Pes. exact He.
Qed.
End Comparator.
End Heap.

(** C1: with the default comparator, enqueuing any pairs whose priorities
    are numbers other than NaN and then dequeuing until the queue is empty
    emits the items in non-decreasing order of priority, and leaves the
    queue empty; (A,5), (B,1), (C,3) come out as B, C, A.  The bitwise
    operators of the heap work on 32-bit integers, hence the bound on the
    number of entries. *)
Theorem dequeue_order_nondecreasing (T : Type) (l : list (T * number)) :
  Z.of_nat (length l) < 2 ^ 30 ->
  Forall (fun p => ordered (snd p) = true) l ->
  (exists es : list (entry T),
     dequeueAll (enqueueAll (create default_compare) l)
       = (map item es, create default_compare)
     /\ Permutation es (map (fun p => Entry (fst p) (snd p)) l)
     /\ StronglySorted (fun a b => le (priority a) (priority b) = true) es)
  /\ fst (dequeueAll (enqueueAll (create default_compare)
             [("A", of_Z 5); ("B", of_Z 1); ("C", of_Z 3)]%string))
     = ["B"; "C"; "A"]%string.
Proof.
  intros Lb Hl. split; [|vm_compute; reflexivity].
  destruct (enqueueAll_spec default_compare sub_respects l [])
    as (arr & E & Hh & P); [apply heap_nil | constructor | exact Hl | simpl; lia |].
  simpl in P. unfold create. rewrite E. unfold dequeueAll, size. cbn [items].
  assert (Hok : priorities_ordered arr).
  { apply (priorities_ordered_Permutation _ _ P).
    apply Forall_forall. intros e [p [<- Hp]]%list_elem_of_In%in_map_iff.
    apply (proj1 (Forall_forall _ _) Hl p). apply list_elem_of_In, Hp. }
  destruct (drain_spec default_compare sub_respects (length arr) arr)
    as (es & -> & Pes & Ses); [assumption.. | | lia |].
  { rewrite (Permutation_length P), length_map. exact Lb. }
  exists es. split; [reflexivity|]. split; [|exact Ses].
  rewrite Pes. exact P.
Qed.

Lemma dequeue_order_nondecreasing_witness :
  exists es : list (entry string),
    dequeueAll (enqueueAll (create default_compare)
                  [("A", of_Z 5); ("B", Infinity); ("C", of_Z 3); ("D", Infinity)]%string)
      = (map item es, create default_compare)
    /\ Permutation es
         (map (fun p => Entry (fst p) (snd p))
              [("A", of_Z 5); ("B", Infinity); ("C", of_Z 3); ("D", Infinity)]%string)
    /\ StronglySorted (fun a b => le (priority a) (priority b) = true) es.
Proof.
  apply (dequeue_order_nondecreasing string
           [("A", of_Z 5); ("B", Infinity); ("C", of_Z 3); ("D", Infinity)]%string).
  - vm_compute. reflexivity.
  - repeat constructor.
Defined.
End PriorityQueueFacts.

Module VectorFacts.
Import Num NumSpecial Store.

Lemma strict_eq_zero (a : number) :
  strict_eq a zero = true <-> exists s, a = S754_zero s.
Proof.
  split.
  - destruct a as [s|[]| |[]]; try discriminate. eauto.
  - intros [s ->]. reflexivity.
Qed.

Lemma fields2_read (s : store) (this : ref) (x y : number) :
  s !! this = Some (OVector2 x y) -> Vector2.fields this s = Return (x, y) s.
Proof.
  intros H. unfold Vector2.fields, mbind, store_bind, bind, read. rewrite H.
  reflexivity.
Qed.

Lemma fields3_read (s : store) (this : ref) (x y z : number) :
  s !! this = Some (OVector3 x y z) ->
  Vector3.fields this s = Return (x, y, z) s.
Proof.
  intros H. unfold Vector3.fields, mbind, store_bind, bind, read. rewrite H.
  reflexivity.
Qed.

Lemma length2_read (s : store) (this : ref) (x y : number) :
  s !! this = Some (OVector2 x y) ->
  Vector2.length this s = Return (sqrt (add (mul x x) (mul y y))) s.
Proof.
  intros H. unfold Vector2.length, mbind, store_bind, bind.
  rewrite (fields2_read _ _ _ _ H). reflexivity.
Qed.









(** *** Division and centroid *)






End VectorFacts.

Module UtilsFacts.
Import Num NumOrder NumRounding Store Utils.

(** *** Sorting *)

Lemma sortCompare_lt comparefn (a b : number) :
  lt (sortCompare comparefn a b) zero = lt (comparefn a b) zero.
Proof. unfold sortCompare. destruct (comparefn a b) as [| | |]; reflexivity. Qed.

Lemma insert_Permutation comparefn (a : number) (l : list number) :
  Permutation (insert comparefn a l) (a :: l).
Proof.
  induction l as [|b l IH]; simpl; [reflexivity|].
  destruct (lt _ zero); [reflexivity|].
  rewrite IH. apply perm_swap.
Qed.

Lemma sort_Permutation comparefn (l : list number) :
  Permutation (sort comparefn l) l.
Proof.
  unfold sort.
  enough (G : forall acc,
             Permutation (fold_left (fun acc a => insert comparefn a acc) l acc)
                                      (acc ++ l))
    by (apply (G [])).
  induction l as [|a l IH]; intros acc; simpl.
  - rewrite app_nil_r. reflexivity.
  - rewrite IH, insert_Permutation. apply Permutation_middle.
Qed.

Section Consistent.
Variable comparefn : number -> number -> number.
Hypothesis comparefn_respects : respects comparefn.

Lemma insert_sorted (a : number) (l : list number) :
  ordered a = true -> Forall (fun b => ordered b = true) l ->
  StronglySorted lenum l -> StronglySorted lenum (insert comparefn a l).
Proof.
  intros Oa Ol S. induction S as [|b l S IH Hb]; simpl.
  - repeat constructor.
  - inversion Ol as [|? ? Ob Ol']; subst.
    destruct (comparefn_respects a b Oa Ob) as (_ & _ & R3 & R4).
    rewrite sortCompare_lt.
    destruct (lt (comparefn a b) zero) eqn:G.
    + constructor; [constructor; assumption|].
      constructor; [apply R3; reflexivity|].
      eapply Forall_impl; [exact Hb|]. intros c Hc.
      exact (le_trans a b c (R3 eq_refl) Hc).
    + constructor; [apply IH, Ol'|].
      rewrite insert_Permutation. constructor; [apply R4; reflexivity | exact Hb].
Qed.

Lemma sort_sorted (l : list number) :
  Forall (fun b => ordered b = true) l ->
  StronglySorted lenum (sort comparefn l).
Proof.
  unfold sort.
  enough (G : forall acc, Forall (fun b => ordered b = true) acc ->
              StronglySorted lenum acc ->
              Forall (fun b => ordered b = true) l ->
              StronglySorted lenum
                (fold_left (fun acc a => insert comparefn a acc) l acc))
    by (apply G; constructor).
  induction l as [|a l IH]; intros acc Oacc Sacc Ol; simpl; [exact Sacc|].
  inversion Ol as [|? ? Oa Ol']; subst. apply IH.
  - rewrite insert_Permutation. constructor; assumption.
  - apply insert_sorted; assumption.
  - exact Ol'.
Qed.
End Consistent.

(** *** median *)

Lemma elements_read (s : store) (values : ref) (elems : list number) :
  s !! values = Some (OArray elems) -> elements values s = Return elems s.
Proof.
  intros H. unfold elements, mbind, store_bind, bind, read. rewrite H.
  reflexivity.
Qed.

Lemma median_empty (s : store) (values : ref) :
  s !! values = Some (OArray []) -> median values s = Return zero s.
Proof.
  intros H. unfold median, mbind, store_bind, bind.
  rewrite (elements_read _ _ _ H). reflexivity.
Qed.

(** What [median] leaves in the store. *)
Lemma median_run (s : store) (values : ref) (elems : list number) :
  s !! values = Some (OArray elems) -> elems <> [] ->
  exists v,
    median values s
    = Return v (<[values := OArray (sort (fun a b => sub a b) elems)]> s).
Proof.
  intros H N. unfold median, mbind, store_bind, bind.
  rewrite (elements_read _ _ _ H).
  destruct elems as [|a elems]; [congruence|]. cbn [length Nat.eqb].
  unfold write at 1.
  rewrite (elements_read _ _ (sort (fun a b => sub a b) (a :: elems))).
  - destruct (negb _); eexists; reflexivity.
  - apply list_lookup_insert_eq. apply lookup_lt_Some in H. exact H.
Qed.

(** C10, as amended: when no element is NaN, [median] leaves the caller's
    array sorted in ascending numeric order, a permutation of what it
    held; the sorted array is written to the very object the caller
    passed, so whoever holds that reference reads the sorted array. *)
Theorem median_sorts_argument (s : store) (values : ref) (elems : list number) :
  s !! values = Some (OArray elems) ->
  Forall (fun a => ordered a = true) elems ->
  exists v sorted s',
    median values s = Return v s'
    /\ s' = <[values := OArray sorted]> s
    /\ s' !! values = Some (OArray sorted)
    /\ Permutation sorted elems
    /\ StronglySorted (fun a b => le a b = true) sorted.
Proof.
  intros H Hok. apply lookup_lt_Some in H as L. destruct elems as [|a elems].
  - exists zero, [], s. rewrite (median_empty _ _ H).
    rewrite list_insert_id by exact H.
    split; [reflexivity|]. split; [reflexivity|]. split; [exact H|].
    split; constructor.
  - destruct (median_run s values (a :: elems) H) as [v E]; [congruence|].
    exists v, (sort (fun a b => sub a b) (a :: elems)). eexists.
    split; [exact E|]. split; [reflexivity|].
    split; [apply list_lookup_insert_eq, L|].
    split; [apply sort_Permutation|].
    apply (sort_sorted _ sub_respects). exact Hok.
Qed.

Lemma median_sorts_argument_witness :
  exists v sorted s',
    median 0%nat [OArray [of_Z 3; Infinity; of_Z 1; of_Z 2]] = Return v s'
    /\ s' = <[0%nat := OArray sorted]> [OArray [of_Z 3; Infinity; of_Z 1; of_Z 2]]
    /\ s' !! 0%nat = Some (OArray sorted)
    /\ Permutation sorted [of_Z 3; Infinity; of_Z 1; of_Z 2]
    /\ StronglySorted (fun a b => le a b = true) sorted.
Proof.
  apply (median_sorts_argument [OArray [of_Z 3; Infinity; of_Z 1; of_Z 2]] 0%nat
           [of_Z 3; Infinity; of_Z 1; of_Z 2]).
  - reflexivity.
  - repeat constructor.
Defined.

(** C10 as stated fails on an array that holds NaN: the comparator
    answers NaN whenever NaN is involved, the array stays as it was, it is
    not in ascending order, and no arrangement of it is. *)
Lemma median_nan_counterexample :
  median 0%nat [OArray [NaN; of_Z 1]] = Return NaN [OArray [NaN; of_Z 1]]
  /\ ~ Sorted lenum [NaN; of_Z 1]
  /\ forall sorted, Permutation sorted [NaN; of_Z 1] -> ~ Sorted lenum sorted.
Proof.
  assert (G : forall sorted, Permutation sorted [NaN; of_Z 1] ->
                ~ Sorted lenum sorted).
  { intros sorted P S.
    assert (L : length sorted = 2%nat)
      by (rewrite (Permutation_length P); reflexivity).
    destruct sorted as [|a [|b [|c rest]]]; try discriminate L.
    inversion S as [|? ? _ Hab]; subst. inversion Hab as [|? ? Hle]; subst.
    assert (Ha : In a [NaN; of_Z 1]) by (apply (Permutation_in _ P); simpl; auto).
    assert (Hb : In b [NaN; of_Z 1]) by (apply (Permutation_in _ P); simpl; auto).
    destruct Ha as [<-|[<-|[]]]; destruct Hb as [<-|[<-|[]]];
      try (vm_compute in Hle; discriminate).
    apply Permutation_sym, Permutation_length_2 in P.
    destruct P as [[E _]|[E _]]; vm_compute in E; discriminate. }
  split; [vm_compute; reflexivity|]. split; [apply G; reflexivity | exact G].
Qed.

(** *** Angle conversions *)

(** C5: the normalized conversions evaluated where they leave the
    half-open range.  An angle of 6.28125 rad is 359.889... degrees after
    wrapping, and [Math.round], applied last, turns it into 360.  A tiny
    negative angle, here -2^-70 degrees, is wrapped by adding 2 pi, and the
    sum rounds to 2 pi itself. *)
Theorem normalized_conversions_reach_the_bound :
  radiansToDegreesNormalized (of_dyadic 201 (-5)) = of_Z 360
  /\ lt (radiansToDegreesNormalized (of_dyadic 201 (-5))) (of_Z 360) = false
  /\ degreesToRadiansNormalized (of_dyadic (-1) (-70)) = TWO_PI
  /\ lt (degreesToRadiansNormalized (of_dyadic (-1) (-70))) TWO_PI = false.
Proof. vm_compute. repeat split. Qed.

End UtilsFacts.

Module ErrorPolicyFacts.
Import Num Store VectorFacts UtilsFacts.



End ErrorPolicyFacts.

Module Vector2SetFacts.
Import Num Store Vector2Set VectorFacts.

Section Keyed.
Variable numberToString : number -> string.

Lemma toString_read (s : store) (this : ref) (x y : number) :
  s !! this = Some (OVector2 x y) ->
  Vector2.toString numberToString this s
  = Return (Vector2.key numberToString x y) s.
Proof.
  intros H. unfold Vector2.toString, mbind, store_bind, bind.
  rewrite (fields2_read _ _ _ _ H). reflexivity.
Qed.

Lemma set_add_run (s : store) (this : set) (vector : ref) (x y : number) :
  s !! vector = Some (OVector2 x y) ->
  add numberToString this vector s
  = Return (Set_ (map_set (map this) (Vector2.key numberToString x y) vector)) s.
Proof.
  intros H. unfold add, mbind, store_bind, bind.
  rewrite (toString_read _ _ _ _ H). reflexivity.
Qed.

(** *** The backing map *)

Lemma map_set_absent (m : jsmap) (k : string) (v : ref) :
  k ∉ List.map fst m -> map_set m k v = m ++ [(k, v)].
Proof.
  induction m as [|[k' v'] m IH]; intros N; simpl; [reflexivity|].
  destruct (String.eqb_spec k' k) as [->|Nk].
  - exfalso. apply N. simpl. apply list_elem_of_here.
  - rewrite IH; [reflexivity|]. intros Hin. apply N. simpl.
    apply list_elem_of_further, Hin.
Qed.

Lemma map_set_present (m : jsmap) (i : nat) (k : string) (v v' : ref) :
  NoDup (List.map fst m) -> m !! i = Some (k, v') ->
  map_set m k v = <[i := (k, v)]> m.
Proof.
  revert i. induction m as [|[k0 v0] m IH]; intros i ND Hi; [discriminate|].
  simpl. apply NoDup_cons in ND as [Nk0 ND].
  destruct i as [|i]; simpl in Hi.
  - injection Hi as -> ->. rewrite String.eqb_refl. reflexivity.
  - destruct (String.eqb_spec k0 k) as [->|Nk].
    + exfalso. apply Nk0. apply list_elem_of_In, in_map_iff.
      exists (k, v'). split; [reflexivity|].
      apply list_elem_of_In. eapply list_elem_of_lookup_2, Hi.
    + simpl. f_equal. apply IH; assumption.
Qed.

Lemma map_set_keyed (s : store) (m : jsmap) (vector : ref) (x y : number) :
  s !! vector = Some (OVector2 x y) -> Vector2Set.keyed numberToString s m ->
  Vector2Set.keyed numberToString s
    (map_set m (Vector2.key numberToString x y) vector).
Proof.
  intros Hv [ND F].
  destruct (decide (Vector2.key numberToString x y ∈ List.map fst m))
    as [Hin|Hout].
  - apply list_elem_of_In, in_map_iff in Hin as ([k v'] & Ek & Hin).
    simpl in Ek. subst k.
    apply list_elem_of_In, list_elem_of_lookup in Hin as [i Hi].
    rewrite (map_set_present m i _ vector v' ND Hi). split.
    + replace (List.map fst (<[i := (Vector2.key numberToString x y, vector)]> m))
        with (List.map fst m); [exact ND|].
      clear -Hi. revert i Hi. induction m as [|kv m IH]; intros [|i] Hi;
        try discriminate; simpl in *.
      * injection Hi as ->. reflexivity.
      * f_equal. apply IH, Hi.
    + apply Forall_insert; [exact F|]. exists x, y. split; [exact Hv|reflexivity].
  - rewrite (map_set_absent m _ vector Hout). split.
    + rewrite map_app. simpl. apply NoDup_app. split; [exact ND|].
      split; [|apply NoDup_singleton].
      intros k Hk Hk'. apply list_elem_of_singleton in Hk'. subst k. contradiction.
    + apply Forall_app. split; [exact F|].
      constructor; [|constructor]. exists x, y. split; [exact Hv|reflexivity].
Qed.

Lemma addAll_run (s : store) (vectors : list ref) (this : set) :
  Forall (fun r => exists x y, s !! r = Some (OVector2 x y)) vectors ->
  Vector2Set.keyed numberToString s (map this) ->
  exists set', addAll numberToString this vectors s = Return set' s
               /\ Vector2Set.keyed numberToString s (map set').
Proof.
  intros Hvs. revert this. induction Hvs as [|v vectors (x & y & Hv) _ IH];
    intros this K.
  - exists this. split; [reflexivity | exact K].
  - cbn [addAll]. unfold mbind, store_bind, bind.
    rewrite (set_add_run s this v x y Hv).
    apply IH. cbn [map]. apply map_set_keyed; assumption.
Qed.

(** Under the invariant, two entries hold vectors with different keys,
    hence with different coordinates. *)
Lemma keyed_distinct (s : store) (m : jsmap) (i j : nat) (ri rj : ref)
    (x y x' y' : number) :
  Vector2Set.keyed numberToString s m -> i <> j ->
  map_values m !! i = Some ri -> map_values m !! j = Some rj ->
  s !! ri = Some (OVector2 x y) -> s !! rj = Some (OVector2 x' y') ->
  Vector2.key numberToString x y <> Vector2.key numberToString x' y'.
Proof.
  intros [ND F] Nij Hi Hj Hri Hrj E. unfold map_values in *.
  apply list_lookup_fmap_Some in Hi as ([ki ri'] & Ei & Hi).
  apply list_lookup_fmap_Some in Hj as ([kj rj'] & Ej & Hj).
  simpl in Ei, Ej. subst ri' rj'.
  destruct (proj1 (Forall_lookup _ _) F i _ Hi) as (a & b & Ha & Ka).
  destruct (proj1 (Forall_lookup _ _) F j _ Hj) as (c & d & Hc & Kc).
  simpl in *. rewrite Hri in Ha. rewrite Hrj in Hc.
  injection Ha as <- <-. injection Hc as <- <-.
  apply Nij. apply (NoDup_lookup _ i j ki ND).
  - change (List.map fst m) with (fst <$> m).
    rewrite list_lookup_fmap, Hi. reflexivity.
  - change (List.map fst m) with (fst <$> m).
    rewrite list_lookup_fmap, Hj. simpl. congruence.
Qed.

(** Adding a vector whose coordinates are those of the vector stored at
    position [i] overwrites that entry. *)
Lemma add_replaces (s : store) (this : set) (i : nat) (r vector : ref)
    (x y : number) :
  Vector2Set.keyed numberToString s (map this) ->
  toArray this !! i = Some r ->
  s !! r = Some (OVector2 x y) -> s !! vector = Some (OVector2 x y) ->
  exists set',
    add numberToString this vector s = Return set' s
    /\ toArray set' = <[i := vector]> (toArray this).
Proof.
  intros [ND F] Hi Hr Hv. rewrite (set_add_run s this vector x y Hv).
  eexists. split; [reflexivity|].
  unfold toArray, values, map_values in *. cbn [map].
  apply list_lookup_fmap_Some in Hi as ([k r'] & Er & Hi). simpl in Er. subst r'.
  destruct (proj1 (Forall_lookup _ _) F i _ Hi) as (a & b & Ha & Ka).
  simpl in Ha, Ka. rewrite Hr in Ha. injection Ha as <- <-. subst k.
  rewrite (map_set_present (map this) i _ vector r ND Hi).
  change (List.map snd ?l) with (snd <$> l).
  rewrite list_fmap_insert. reflexivity.
Qed.

Lemma keyed_empty (s : store) : Vector2Set.keyed numberToString s (map empty).
Proof. split; constructor. Qed.
End Keyed.

(** C8: after any sequence of [add], no two stored vectors have the same
    key, hence none have the same coordinate pair (nor, when the printed
    text of a number does not tell [===]-equal numbers apart, coordinates
    that are equal under [===]); adding a vector with the coordinates of a
    stored one overwrites that entry, so the set does not grow.  Adding
    (1,2), (1,2) again and (3,4) leaves two elements, the second (1,2) and
    the (3,4).  This holds for whatever text the engine prints for a
    number, as long as the keys of (1,2) and (3,4) differ. *)
Theorem vector2set_one_per_coordinate_pair (numberToString : number -> string)
    (s : store) (vectors : list ref) :
  Forall (fun r => exists x y, s !! r = Some (OVector2 x y)) vectors ->
  (exists set',
     addAll numberToString empty vectors s = Return set' s
     /\ (forall i j ri rj x y x' y',
           i <> j ->
           toArray set' !! i = Some ri -> toArray set' !! j = Some rj ->
           s !! ri = Some (OVector2 x y) -> s !! rj = Some (OVector2 x' y') ->
           Vector2.key numberToString x y <> Vector2.key numberToString x' y'
           /\ ~ (x = x' /\ y = y')
           /\ ((forall a b, strict_eq a b = true ->
                            numberToString a = numberToString b) ->
               ~ (strict_eq x x' = true /\ strict_eq y y' = true)))
     /\ (forall i r vector x y,
           toArray set' !! i = Some r ->
           s !! r = Some (OVector2 x y) -> s !! vector = Some (OVector2 x y) ->
           exists set'',
             add numberToString set' vector s = Return set'' s
             /\ toArray set'' = <[i := vector]> (toArray set')
             /\ length (toArray set'') = length (toArray set')))
  /\ (forall r1 r2 r3,
        s !! r1 = Some (OVector2 (of_Z 1) (of_Z 2)) ->
        s !! r2 = Some (OVector2 (of_Z 1) (of_Z 2)) ->
        s !! r3 = Some (OVector2 (of_Z 3) (of_Z 4)) ->
        Vector2.key numberToString (of_Z 1) (of_Z 2)
          <> Vector2.key numberToString (of_Z 3) (of_Z 4) ->
        exists set',
          addAll numberToString empty [r1; r2; r3] s = Return set' s
          /\ toArray set' = [r2; r3]
          /\ length (toArray set') = 2%nat).
Proof.
  intros Hvs. split.
  - destruct (addAll_run numberToString s vectors empty Hvs (keyed_empty _ s))
      as (set' & E & K).
    exists set'. split; [exact E|]. split.
    + intros i j ri rj x y x' y' Nij Hi Hj Hri Hrj.
      pose proof (keyed_distinct numberToString s (map set') i j ri rj x y x' y'
                    K Nij Hi Hj Hri Hrj) as N.
      split; [exact N|]. split.
      * intros [<- <-]. apply N. reflexivity.
      * intros Hstr [Ex Ey]. apply N. unfold Vector2.key.
        rewrite (Hstr _ _ Ex), (Hstr _ _ Ey). reflexivity.
    + intros i r vector x y Hi Hr Hv.
      destruct (add_replaces numberToString s set' i r vector x y K Hi Hr Hv)
        as (set'' & E' & A).
      exists set''. split; [exact E'|]. split; [exact A|].
      rewrite A. apply length_insert.
  - intros r1 r2 r3 H1 H2 H3 N. cbn [addAll]. unfold mbind, store_bind, bind.
    rewrite (set_add_run numberToString s _ r1 _ _ H1).
    rewrite (set_add_run numberToString s _ r2 _ _ H2).
    rewrite (set_add_run numberToString s _ r3 _ _ H3).
    eexists. split; [reflexivity|]. cbn [map empty map_set].
    rewrite String.eqb_refl. cbn [map map_set].
    apply String.eqb_neq in N. rewrite N. split; reflexivity.
Qed.

Lemma vector2set_one_per_coordinate_pair_witness :
  exists set',
    addAll Vector2.integerToString empty [0; 1; 2]%nat
      [OVector2 (of_Z 1) (of_Z 2); OVector2 (of_Z 1) (of_Z 2);
       OVector2 (of_Z 3) (of_Z 4)]
    = Return set'
        [OVector2 (of_Z 1) (of_Z 2); OVector2 (of_Z 1) (of_Z 2);
         OVector2 (of_Z 3) (of_Z 4)]
    /\ toArray set' = [1; 2]%nat
    /\ length (toArray set') = 2%nat.
Proof.
  refine (proj2 (vector2set_one_per_coordinate_pair Vector2.integerToString
                   [OVector2 (of_Z 1) (of_Z 2); OVector2 (of_Z 1) (of_Z 2);
                    OVector2 (of_Z 3) (of_Z 4)] [0; 1; 2]%nat _)
                0%nat 1%nat 2%nat eq_refl eq_refl eq_refl _).
  - repeat constructor; eexists; eexists; reflexivity.
  - vm_compute. discriminate.
Defined.
End Vector2SetFacts.
(** ** Signs *)

Module NumSign.
Import Num NumOrder.

Lemma round_aux_nonneg (m e : Z) (l : location) :
  nonneg (binary_round_aux prec emax false m e l) = true.
Proof.
  unfold binary_round_aux.
  destruct (shr_fexp prec emax m e l) as [mrs' e'].
  destruct (shr_fexp prec emax _ e' loc_Exact) as [mrs'' e''].
  destruct (shr_m mrs''); try reflexivity.
  destruct (e'' <=? emax - prec); reflexivity.
Qed.

Lemma round_aux_neg (s : bool) (m e : Z) (l : location) :
  binary_round_aux prec emax (negb s) m e l
  = neg (binary_round_aux prec emax s m e l).
Proof.
  unfold binary_round_aux.
  destruct (shr_fexp prec emax m e l) as [mrs' e'].
  destruct (shr_fexp prec emax _ e' loc_Exact) as [mrs'' e''].
  destruct (shr_m mrs''); try reflexivity.
  destruct (e'' <=? emax - prec); reflexivity.
Qed.

Lemma round_neg (s : bool) (m : positive) (e : Z) :
  binary_round prec emax (negb s) m e = neg (binary_round prec emax s m e).
Proof.
  unfold binary_round. destruct (shl_align m e _) as [mz ez].
  apply round_aux_neg.
Qed.

Lemma round_nonneg (m : positive) (e : Z) :
  nonneg (binary_round prec emax false m e) = true.
Proof.
  unfold binary_round. destruct (shl_align m e _) as [mz ez].
  apply round_aux_nonneg.
Qed.

Lemma neg_involutive (a : number) : neg (neg a) = a.
Proof. destruct a as [[]|[]| |[] m e]; reflexivity. Qed.

Lemma sq_nonneg (a : number) : nonneg (mul a a) = true.
Proof.
  destruct a as [[]|[]| |s m e]; try reflexivity.
  unfold mul, SFmul. rewrite xorb_nilpotent. apply round_aux_nonneg.
Qed.

Lemma add_nonneg (a b : number) :
  nonneg a = true -> nonneg b = true -> nonneg (add a b) = true.
Proof.
  destruct a as [[]|[]| |[] ma ea], b as [[]|[]| |[] mb eb];
    try discriminate; try reflexivity.
  intros _ _. unfold add, SFadd. cbn [cond_Zopp]. cbv zeta.
  simpl Z.add. apply round_nonneg.
Qed.

Lemma sqrt_nonneg (a : number) : nonneg a = true -> nonneg (sqrt a) = true.
Proof.
  destruct a as [[]|[]| |[] m e]; try discriminate; try reflexivity.
  intros _. unfold sqrt, SFsqrt.
  destruct (SFsqrt_core_binary prec emax (Zpos m) e) as [[mz ez] lz].
  apply round_aux_nonneg.
Qed.

Lemma abs_nonneg (a : number) : nonneg (abs a) = true.
Proof. destruct a; reflexivity. Qed.

Lemma div_nonneg (a b : number) :
  nonneg a = true -> nonneg b = true -> nonneg (div a b) = true.
Proof.
  destruct a as [[]|[]| |[] ma ea], b as [[]|[]| |[] mb eb];
    try discriminate; try reflexivity.
  intros _ _. unfold div, SFdiv.
  destruct (SFdiv_core_binary prec emax (Zpos ma) ea (Zpos mb) eb) as [[mz ez] lz].
  apply round_aux_nonneg.
Qed.

Lemma nonneg_not_below_zero (a : number) :
  nonneg a = true -> lt a zero = false /\ a <> neg_zero.
Proof.
  destruct a as [[]|[]| |[] m e]; try discriminate; intros _; split;
    (reflexivity || discriminate).
Qed.

Lemma strict_eq_refl (a : number) : strict_eq a a = negb (is_nan a).
Proof.
  destruct a as [[]|[]| |[] m e]; try reflexivity;
    unfold strict_eq, SFeqb, SFcompare; rewrite Z.compare_refl;
    change (Pos.compare_cont Eq m m) with (Pos.compare m m);
    rewrite Pos.compare_refl; reflexivity.
Qed.

Lemma strict_eq_sym (a b : number) : strict_eq a b = strict_eq b a.
Proof.
  unfold strict_eq, SFeqb. rewrite (NumRounding.compare_antisym b a).
  destruct (SFcompare b a) as [[]|]; reflexivity.
Qed.

End NumSign.

(** ** More on the order of numbers *)

Module NumOrderMore.
Import Num NumOrder NumSign.

Lemma gt_irrefl (a : number) : gt a a = false.
Proof. order_cases. Qed.

Lemma gt_asym (a b : number) : gt a b = true -> gt b a = false.
Proof. order_cases. Qed.

Lemma gt_not_ge (a b : number) : gt a b = true -> ge b a = false.
Proof. order_cases. Qed.

Lemma gt_below (d m m' : number) :
  gt d m = false -> gt m' m = true -> gt d m' = false.
Proof. order_cases. Qed.

Lemma ge_below (d m m' : number) :
  gt d m = false -> gt m' m = true -> ge d m' = false.
Proof. order_cases. Qed.

Lemma gt_capped (d m e : number) :
  gt d m = false -> is_nan m = false -> gt m e = false -> gt d e = false.
Proof. order_cases. Qed.

Lemma lt_not_nan_l (a b : number) : lt a b = true -> is_nan a = false.
Proof. order_cases. Qed.

Lemma lt_irrefl (a : number) : lt a a = false.
Proof. order_cases. Qed.

Lemma lt_asym (a b : number) : lt a b = true -> lt b a = false.
Proof. order_cases. Qed.

Lemma lt_not_le (a b : number) : lt a b = true -> le b a = false.
Proof. order_cases. Qed.

Lemma lt_kept (d0 d cd : number) :
  lt d0 cd = false -> lt d cd = true -> lt d0 d = false.
Proof. order_cases. Qed.

Lemma le_kept (d0 d cd : number) :
  lt d0 cd = false -> is_nan cd = false -> lt d cd = true -> le d0 d = false.
Proof. order_cases. Qed.

Lemma lt_le (a b : number) : lt a b = true -> le a b = true.
Proof. order_cases. Qed.

Lemma le_not_lt (a b : number) : le a b = true -> lt b a = false.
Proof. order_cases. Qed.

Lemma le_nan (a b : number) : le a b = true -> is_nan a = false /\ is_nan b = false.
Proof. order_cases; auto. Qed.

Lemma not_lt_strict_eq (a b : number) :
  is_nan a = false -> is_nan b = false ->
  lt a b = false -> lt b a = false -> strict_eq a b = true.
Proof. order_cases. Qed.

Lemma strict_eq_le (a b : number) : strict_eq a b = true -> le a b = true.
Proof. order_cases. Qed.

Lemma strict_eq_trans (a b c : number) :
  strict_eq a b = true -> strict_eq b c = true -> strict_eq a c = true.
Proof. order_cases. Qed.

Lemma le_strict_eq_r (a b c : number) :
  le a b = true -> strict_eq b c = true -> le a c = true.
Proof. order_cases. Qed.

Lemma identical_trans (a b c : number) :
  identical a b -> identical b c -> identical a c.
Proof.
  intros [->|E1] [->|E2]; [left; reflexivity | right; exact E2 | right; exact E1|].
  right. exact (strict_eq_trans a b c E1 E2).
Qed.

Lemma le_identical_r (a b c : number) :
  le a b = true -> identical b c -> le a c = true.
Proof. intros L [->|E]; [exact L | exact (le_strict_eq_r a b c L E)]. Qed.

End NumOrderMore.

(** ** [Math.max] and [Math.min] *)

Module MathFacts.
Import Num NumOrder NumOrderMore NumSpecial NumSign.

Lemma max_nan (a b : number) : is_nan a || is_nan b = true -> Math.max a b = NaN.
Proof. unfold Math.max. intros ->. reflexivity. Qed.

Lemma min_nan (a b : number) : is_nan a || is_nan b = true -> Math.min a b = NaN.
Proof. unfold Math.min. intros ->. reflexivity. Qed.

Lemma min_spec (a b : number) :
  is_nan a = false -> is_nan b = false ->
  (Math.min a b = a \/ Math.min a b = b)
  /\ le (Math.min a b) a = true /\ le (Math.min a b) b = true
  /\ (le a b = true -> identical a (Math.min a b)).
Proof.
  intros Na Nb. unfold Math.min. rewrite Na, Nb. cbn [orb].
  destruct (lt a b) eqn:L1; [|destruct (lt b a) eqn:L2].
  - split; [auto|]. split; [apply le_refl, Na|]. split; [apply lt_le, L1|].
    left. reflexivity.
  - split; [auto|]. split; [apply lt_le, L2|]. split; [apply le_refl, Nb|].
    intros L. apply le_not_lt in L. congruence.
  - pose proof (not_lt_strict_eq a b Na Nb L1 L2) as E.
    pose proof (strict_eq_le a b E) as Lab.
    rewrite strict_eq_sym in E. pose proof (strict_eq_le b a E) as Lba.
    rewrite strict_eq_sym in E.
    destruct a as [[]| | |]; (split; [auto|]);
      repeat split; try assumption; try (apply le_refl; assumption);
      intros _; (left; reflexivity) || (right; exact E).
Qed.

Lemma max_spec (a b : number) :
  is_nan a = false -> is_nan b = false ->
  (Math.max a b = a \/ Math.max a b = b)
  /\ le a (Math.max a b) = true /\ le b (Math.max a b) = true
  /\ (le a b = true -> identical b (Math.max a b))
  /\ (lt b a = true -> Math.max a b = a).
Proof.
  intros Na Nb. unfold Math.max. rewrite Na, Nb. cbn [orb].
  destruct (lt a b) eqn:L1; [|destruct (lt b a) eqn:L2].
  - split; [auto|]. split; [apply lt_le, L1|]. split; [apply le_refl, Nb|].
    split; [left; reflexivity|]. intros L. apply lt_asym in L. congruence.
  - split; [auto|]. split; [apply le_refl, Na|]. split; [apply lt_le, L2|].
    split; [|reflexivity]. intros L. apply le_not_lt in L. congruence.
  - pose proof (not_lt_strict_eq a b Na Nb L1 L2) as E.
    pose proof (strict_eq_le a b E) as Lab.
    rewrite strict_eq_sym in E. pose proof (strict_eq_le b a E) as Lba.
    destruct a as [[]| | |]; (split; [auto|]);
      repeat split; try assumption; try (apply le_refl; assumption);
      try discriminate;
      intros _; (left; reflexivity) || (right; exact E).
Qed.

Lemma nan_any (lo p hi : number) :
  is_nan lo || is_nan p || is_nan hi = false ->
  is_nan lo = false /\ is_nan p = false /\ is_nan hi = false.
Proof. destruct (is_nan lo), (is_nan p), (is_nan hi); simpl; auto; discriminate. Qed.

Lemma clamp_spec (lo p hi : number) :
  Utils.clamped lo p hi (Math.max lo (Math.min p hi)).
Proof.
  unfold Utils.clamped. split.
  - intros N. apply max_nan.
    destruct (is_nan lo); [reflexivity|]. simpl in N.
    rewrite (min_nan p hi N). reflexivity.
  - intros (Nlo & Np & Nhi)%nan_any.
    destruct (min_spec p hi Np Nhi) as (Cm & Lmp & Lmh & Im).
    assert (Nm : is_nan (Math.min p hi) = false) by (destruct Cm as [->| ->]; assumption).
    destruct (max_spec lo (Math.min p hi) Nlo Nm) as (Cc & Llc & Lmc & Ic & G).
    split; [|split; [|split]].
    + intros [L|L]; apply G.
      * exact (le_lt_trans _ _ _ Lmp L).
      * exact (le_lt_trans _ _ _ Lmh L).
    + intros L1 L2. specialize (Im L2).
      apply (identical_trans _ _ _ Im), Ic. exact (le_identical_r _ _ _ L1 Im).
    + intros L1 L2.
      assert (E : Math.min p hi = hi).
      { unfold Math.min. rewrite Np, Nhi. cbn [orb].
        rewrite (lt_asym _ _ L1), L1. reflexivity. }
      rewrite E in *. apply Ic, L2.
    + intros L. split; [exact Llc|]. destruct Cc as [->| ->]; assumption.
Qed.

End MathFacts.

(** ** More on path simplification *)

Module DouglasPeuckerMore.
Import Num JsArray DouglasPeucker JsArrayFacts NumOrder NumOrderMore NumSpecial NumSign.
Import DouglasPeuckerFacts.

Lemma nonneg_above_minus_one (d : number) :
  nonneg d = true -> gt d (of_Z (-1)) = false -> is_nan d = true.
Proof. destruct d as [[]|[]| |[] m e]; try discriminate; reflexivity. Qed.

(** What the loop of [findFurthestPoint] leaves in its two locals: the
    largest distance, and the position where it first occurs. *)
Lemma scan_first_max ds i m idx m' idx' :
  scan ds i m idx = (m', idx') -> is_nan m = false ->
  is_nan m' = false
  /\ (forall d, d ∈ ds -> gt d m' = false)
  /\ ((m' = m /\ idx' = idx)
      \/ exists j : nat,
           idx' = Z.of_nat (i + j) /\ ds !! j = Some m' /\ gt m' m = true
           /\ forall (j' : nat) d, (j' < j)%nat -> ds !! j' = Some d ->
                ge d m' = false).
Proof.
  revert i m idx. induction ds as [|d0 ds IH]; simpl; intros i m idx E Nm.
  - injection E as <- <-. split; [exact Nm|]. split; [|auto].
    intros d Hd. inversion Hd.
  - destruct (gt d0 m) eqn:G.
    + assert (N0 : is_nan d0 = false) by exact (lt_not_nan_r m d0 G).
      destruct (IH _ _ _ E N0) as (N' & Hall & Hidx). split; [exact N'|].
      destruct Hidx as [[-> ->]|(j & -> & Hj & Gj & Hfirst)].
      * split.
        -- intros d [->|Hd]%elem_of_cons; [apply gt_irrefl | auto].
        -- right. exists 0%nat. rewrite Nat.add_0_r.
           split; [reflexivity|]. split; [reflexivity|]. split; [exact G|].
           intros j' d Hj'. lia.
      * split.
        -- intros d [->|Hd]%elem_of_cons; [apply gt_asym, Gj | auto].
        -- right. exists (S j). split; [f_equal; lia|]. split; [exact Hj|].
           split; [exact (lt_trans m d0 m' G Gj)|].
           intros [|j'] d Hj' Hd; simpl in Hd.
           ++ injection Hd as <-. apply gt_not_ge, Gj.
           ++ apply (Hfirst j' d); [lia | exact Hd].
    + destruct (IH _ _ _ E Nm) as (N' & Hall & Hidx). split; [exact N'|].
      destruct Hidx as [[-> ->]|(j & -> & Hj & Gj & Hfirst)].
      * split; [|auto].
        intros d [->|Hd]%elem_of_cons; [exact G | auto].
      * split.
        -- intros d [->|Hd]%elem_of_cons; [exact (gt_below _ _ _ G Gj) | auto].
        -- right. exists (S j). split; [f_equal; lia|]. split; [exact Hj|].
           split; [exact Gj|].
           intros [|j'] d Hj' Hd; simpl in Hd.
           ++ injection Hd as <-. exact (ge_below _ _ _ G Gj).
           ++ apply (Hfirst j' d); [lia | exact Hd].
Qed.

Section More.
Context {T : Type} `{Point2 T}.
Implicit Types (path mid : list T) (a b p q : T) (epsilon : number).

Lemma perpendicularDistance_nonneg p a b :
  nonneg (perpendicularDistance p a b) = true.
Proof.
  unfold perpendicularDistance. cbv zeta. apply div_nonneg.
  - apply abs_nonneg.
  - apply sqrt_nonneg, add_nonneg; apply sq_nonneg.
Qed.

(** X1: The distance computed for a point is NaN or a number that is not
    negative, whatever the three points are. *)
Theorem perpendicularDistance_never_negative p a b :
  lt (perpendicularDistance p a b) zero = false
  /\ perpendicularDistance p a b <> neg_zero
  /\ (is_nan (perpendicularDistance p a b) = false ->
      ge (perpendicularDistance p a b) zero = true).
Proof.
  pose proof (perpendicularDistance_nonneg p a b) as N.
  destruct (nonneg_not_below_zero _ N) as [L Z]. split; [exact L|].
  split; [exact Z|].
  destruct (perpendicularDistance p a b) as [[]|[]| |[] m e];
    try discriminate; reflexivity.
Qed.

Lemma dists_lookup a b mid (j : nat) d :
  dists a b mid !! j = Some d ->
  exists q, mid !! j = Some q /\ d = perpendicularDistance q a b.
Proof.
  unfold dists. change (List.map ?f ?l) with (f <$> l).
  intros (q & -> & Hq)%list_lookup_fmap_Some. eauto.
Qed.

Lemma dists_elem a b mid q :
  q ∈ mid -> perpendicularDistance q a b ∈ dists a b mid.
Proof.
  intros Hq. unfold dists. apply list_elem_of_In, in_map_iff.
  exists q. split; [reflexivity | apply list_elem_of_In, Hq].
Qed.

Lemma findFurthestPoint_none a mid b epsilon :
  findFurthestPoint (a :: mid ++ [b]) epsilon = -1
  <-> forall q, q ∈ mid -> gt (perpendicularDistance q a b) epsilon = false.
Proof.
  rewrite findFurthestPoint_scan.
  destruct (scan (dists a b mid) 1 (of_Z (-1)) (-1)) as [m idx] eqn:E.
  destruct (scan_first_max _ _ _ _ _ _ E eq_refl) as (Nm & Hall & Hidx).
  split.
  - intros K q Hq.
    pose proof (Hall _ (dists_elem a b mid q Hq)) as Gq.
    destruct (gt m epsilon) eqn:G.
    + destruct Hidx as [[-> _]|(j & -> & _)]; [|lia].
      pose proof (nonneg_above_minus_one _ (perpendicularDistance_nonneg q a b) Gq) as Nq.
      destruct (perpendicularDistance q a b); try discriminate. apply gt_nan_l.
    + exact (gt_capped _ _ _ Gq Nm G).
  - intros Hq. destruct (gt m epsilon) eqn:G; [|reflexivity].
    destruct Hidx as [[_ ->]|(j & -> & Hj & _)]; [reflexivity|].
    apply dists_lookup in Hj as (q & Hq' & ->).
    rewrite Hq in G; [discriminate|]. eapply list_elem_of_lookup_2, Hq'.
Qed.

(** X2: [findFurthestPoint] answers -1 exactly when no interior point lies
    farther than [epsilon] from the line through the two end points;
    otherwise it answers the position of an interior point that lies
    farther than [epsilon], that no interior point exceeds, and that is
    the first such position. *)
Theorem findFurthestPoint_first_maximum a mid b epsilon :
  let path := a :: mid ++ [b] in
  let k := findFurthestPoint path epsilon in
  (k = -1 <-> forall q, q ∈ mid -> gt (perpendicularDistance q a b) epsilon = false)
  /\ (k <> -1 ->
      exists p,
        1 <= k <= Z.of_nat (length mid)
        /\ path !! Z.to_nat k = Some p
        /\ gt (perpendicularDistance p a b) epsilon = true
        /\ (forall q, q ∈ mid ->
              gt (perpendicularDistance q a b) (perpendicularDistance p a b) = false)
        /\ (forall (j : nat) q, (1 <= j)%nat -> Z.of_nat j < k ->
              path !! j = Some q ->
              ge (perpendicularDistance q a b) (perpendicularDistance p a b) = false)).
Proof.
  intros path k. split; [apply findFurthestPoint_none|].
  unfold k, path. rewrite findFurthestPoint_scan.
  destruct (scan (dists a b mid) 1 (of_Z (-1)) (-1)) as [m idx] eqn:E.
  destruct (scan_first_max _ _ _ _ _ _ E eq_refl) as (Nm & Hall & Hidx).
  destruct (gt m epsilon) eqn:G; [|congruence].
  intros K. destruct Hidx as [[_ ->]|(j & -> & Hj & _ & Hfirst)]; [congruence|].
  pose proof Hj as Hj'. apply dists_lookup in Hj' as (p & Hp & ->).
  apply lookup_lt_Some in Hp as Lp.
  exists p. split; [lia|]. split; [|split; [exact G|split]].
  - replace (Z.to_nat (Z.of_nat (1 + j))) with (S j) by lia.
    change ((mid ++ [b]) !! j = Some p). rewrite lookup_app_l by lia. exact Hp.
  - intros q Hq. apply Hall, dists_elem, Hq.
  - intros [|j'] q L1 L2 Hq; [lia|].
    change ((mid ++ [b]) !! j' = Some q) in Hq.
    rewrite lookup_app_l in Hq by lia.
    apply (Hfirst j'); [lia|]. unfold dists.
    change (List.map ?f ?l) with (f <$> l).
    rewrite list_lookup_fmap, Hq. reflexivity.
Qed.

(** X3: A path of three or more points is reduced to its two end points
    exactly when no interior point lies farther than [epsilon] from the
    line through them. *)
Theorem douglasPeucker_collapses_iff a mid b epsilon :
  mid <> [] ->
  douglasPeucker (a :: mid ++ [b]) epsilon = [a; b]
  <-> forall q, q ∈ mid -> gt (perpendicularDistance q a b) epsilon = false.
Proof.
  intros Hmid. rewrite <- findFurthestPoint_none. split.
  - intros E.
    destruct (findFurthestPoint_range a mid b epsilon) as [K|R]; [exact K|].
    exfalso. set (k := findFurthestPoint (a :: mid ++ [b]) epsilon) in *.
    destruct (lookup_lt_is_Some_2 mid (Z.to_nat k - 1)) as [p Hp]; [lia|].
    apply list_elem_of_split_length in Hp as (A & B & -> & HA).
    assert (Ek : k = Z.of_nat (S (length A))) by lia.
    rewrite (douglasPeucker_split _ _ _ _ _ _ Ek) in E. cbv zeta in E.
    destruct (douglasPeucker_shape epsilon a A p) as (A' & El & _).
    destruct (douglasPeucker_shape epsilon p B b) as (B' & Er & _).
    rewrite El, Er in E. apply (f_equal length) in E.
    rewrite length_app, length_take in E. simpl in E.
    rewrite !length_app in E. simpl in E. lia.
  - intros K. apply douglasPeucker_collapse; assumption.
Qed.

(** X4: The output is a subsequence of the input: every point of the
    output is a point of the input, and the points keep their order.  A
    path of fewer than three points is returned as it is, and the output
    for a path of two or more points has at least two points. *)
Theorem douglasPeucker_subsequence path epsilon :
  sublist (douglasPeucker path epsilon) path
  /\ ((length path < 3)%nat -> douglasPeucker path epsilon = path)
  /\ ((2 <= length path)%nat -> (2 <= length (douglasPeucker path epsilon))%nat).
Proof.
  split; [|split; [apply douglasPeucker_short | apply douglasPeucker_length_ge_2]].
  destruct (Nat.ltb_spec (length path) 2) as [L|L].
  { rewrite douglasPeucker_short by lia. reflexivity. }
  destruct (path_decompose path L) as (a & mid & b & ->).
  destruct (douglasPeucker_shape epsilon a mid b) as (mid' & -> & S).
  apply sublist_skip, sublist_app; [exact S | reflexivity].
Qed.

Lemma gt_unreachable (d epsilon : number) :
  is_nan epsilon = true \/ epsilon = Infinity -> gt d epsilon = false.
Proof. intros [N| ->]; order_cases. Qed.

(** X5: A tolerance that no distance exceeds, NaN or Infinity, reduces every
    path of three or more points to its two end points. *)
Theorem douglasPeucker_unreachable_tolerance path first last_ epsilon :
  (3 <= length path)%nat ->
  head path = Some first -> last path = Some last_ ->
  is_nan epsilon = true \/ epsilon = Infinity ->
  findFurthestPoint path epsilon = -1
  /\ douglasPeucker path epsilon = [first; last_].
Proof.
  intros L Hh Hl He.
  destruct (path_decompose path) as (a & mid & b & ->); [lia|].
  simpl in Hh. rewrite app_comm_cons, last_snoc in Hl.
  injection Hh as ->. injection Hl as ->.
  assert (E : findFurthestPoint (first :: mid ++ [last_]) epsilon = -1).
  { rewrite findFurthestPoint_scan.
    destruct (scan _ _ _ _) as [m idx]. rewrite (gt_unreachable m epsilon He).
    reflexivity. }
  split; [exact E|]. apply douglasPeucker_collapse; [|exact E].
  intros ->. simpl in L. lia.
Qed.

(** X6: The points kept with a tolerance are kept with every smaller
    tolerance: for [e1 <= e2], the output for [e2] is a subsequence of
    the output for [e1]. *)
Theorem douglasPeucker_refines path e1 e2 :
  le e1 e2 = true ->
  sublist (douglasPeucker path e2) (douglasPeucker path e1).
Proof.
  intros Hle. pattern path, (douglasPeucker path e2).
  apply douglasPeucker_ind; clear path.
  - intros path L. rewrite douglasPeucker_short by exact L. reflexivity.
  - intros a mid b _ _.
    destruct (douglasPeucker_shape e1 a mid b) as (mid' & -> & _).
    apply sublist_skip, sublist_inserts_l. reflexivity.
  - intros a A p B b E left right IHl IHr.
    destruct (findFurthestPoint_found _ _ _ _ _ E) as (m & Hs & G); [lia|].
    assert (E1 : findFurthestPoint (a :: (A ++ p :: B) ++ [b]) e1
                 = Z.of_nat (S (length A))).
    { assert (G1 : gt m e1 = true) by exact (le_lt_trans e1 e2 m Hle G).
      rewrite findFurthestPoint_scan, Hs, G1. reflexivity. }
    rewrite (douglasPeucker_split _ _ _ _ _ _ E1). cbv zeta.
    apply sublist_app; [|exact IHr].
    destruct (douglasPeucker_shape e2 a A p) as (A2 & E2l & _).
    destruct (douglasPeucker_shape e1 a A p) as (A1 & E1l & _).
    fold left in E2l, IHl. rewrite E2l, E1l in *.
    replace (length (a :: A2 ++ [p]) - 1)%nat with (length (a :: A2)) by len.
    replace (length (a :: A1 ++ [p]) - 1)%nat with (length (a :: A1)) by len.
    rewrite !app_comm_cons, !take_app_length.
    rewrite !app_comm_cons in IHl. exact (sublist_app_inv_r _ _ _ IHl).
Qed.

End More.

Lemma douglasPeucker_collapses_iff_witness :
  douglasPeucker sample_path (of_Z 1)
  = [Point (of_Z 0) (of_Z 0); Point (of_Z 4) (of_Z 0)]
  <-> forall q,
        q ∈ [Point (of_Z 1) (decimal 3 1); Point (of_Z 2) (decimal 6 1);
              Point (of_Z 3) (decimal 9 1)] ->
        gt (perpendicularDistance q (Point (of_Z 0) (of_Z 0))
              (Point (of_Z 4) (of_Z 0))) (of_Z 1) = false.
Proof.
  apply (douglasPeucker_collapses_iff (Point (of_Z 0) (of_Z 0))
           [Point (of_Z 1) (decimal 3 1); Point (of_Z 2) (decimal 6 1);
            Point (of_Z 3) (decimal 9 1)] (Point (of_Z 4) (of_Z 0)) (of_Z 1)).
  discriminate.
Defined.

Lemma douglasPeucker_refines_witness :
  sublist (douglasPeucker sample_path (of_Z 2))
          (douglasPeucker sample_path (decimal 1 1)).
Proof.
  apply (douglasPeucker_refines sample_path (decimal 1 1) (of_Z 2)).
  reflexivity.
Defined.

Lemma douglasPeucker_unreachable_tolerance_witness :
  findFurthestPoint sample_path Infinity = -1
  /\ douglasPeucker sample_path Infinity
     = [Point (of_Z 0) (of_Z 0); Point (of_Z 4) (of_Z 0)].
Proof.
  apply (douglasPeucker_unreachable_tolerance sample_path
           (Point (of_Z 0) (of_Z 0)) (Point (of_Z 4) (of_Z 0)) Infinity).
  - simpl. lia.
  - reflexivity.
  - reflexivity.
  - right. reflexivity.
Defined.

End DouglasPeuckerMore.

(** ** More on the priority queue *)

Module PriorityQueueMore.
Import Num NumOrder NumRounding PriorityQueue PriorityQueueFacts.

Section AnyComparator.
Context {T : Type}.
Variable compare : number -> number -> number.
Implicit Types (arr : list (entry T)) (q : queue T).

Lemma at_Some arr (i : Z) e :
  at_ arr i = Some e -> 0 <= i /\ arr !! Z.to_nat i = Some e.
Proof. unfold at_. destruct (Z.ltb_spec i 0); [discriminate|]. auto. Qed.

(** Sifting up only exchanges entries, whatever the comparator
    answers. *)
Lemma heapifyUpLoop_Permutation (fuel : nat) arr (current : Z) :
  Z.of_nat (length arr) < 2 ^ 31 ->
  Permutation (heapifyUpLoop compare fuel arr current) arr.
Proof.
  revert arr current. induction fuel as [|fuel IH]; intros arr current Lb;
    [reflexivity|].
  cbn [heapifyUpLoop]. destruct (Z.ltb_spec 0 current) as [Hc0|Hc0]; [|reflexivity].
  destruct (at_ arr current) as [ec|] eqn:Hc; [|reflexivity].
  destruct (at_ arr (sar (current - 1) 1)) as [ep|] eqn:Hp; [|reflexivity].
  destruct (ge _ zero); [reflexivity|].
  apply at_Some in Hc as [_ Hc]. apply at_Some in Hp as [_ Hp].
  apply lookup_lt_Some in Hc as Lc.
  assert (Ep : sar (current - 1) 1 = (current - 1) / 2) by (apply sar_1; lia).
  rewrite Ep in *. unfold set_.
  assert (P : Permutation (<[Z.to_nat ((current - 1) / 2) := ec]>
                             (<[Z.to_nat current := ep]> arr)) arr).
  { apply (swap_Permutation arr _ _ ec ep); [|assumption..].
    assert ((current - 1) / 2 < current) by (apply Z.div_lt_upper_bound; lia).
    assert (0 <= (current - 1) / 2) by (apply Z.div_pos; lia). lia. }
  etransitivity; [apply IH|exact P].
  rewrite !length_insert. exact Lb.
Qed.

(** So does sifting down. *)
Lemma heapifyDownLoop_Permutation (fuel : nat) arr (current : Z) :
  Z.of_nat (length arr) < 2 ^ 30 ->
  Permutation (heapifyDownLoop compare fuel arr current) arr.
Proof.
  revert arr current. induction fuel as [|fuel IH]; intros arr current Lb;
    [reflexivity|].
  rewrite heapifyDownLoop_step. cbv zeta.
  destruct (Z.eqb_spec (pick compare arr current) current) as [|N]; [reflexivity|].
  destruct (at_ arr current) as [ec|] eqn:Hc; [|reflexivity].
  destruct (at_ arr (pick compare arr current)) as [es|] eqn:Hs; [|reflexivity].
  apply at_Some in Hc as [Hc0 Hc]. apply at_Some in Hs as [Hs0 Hs].
  unfold set_.
  assert (P : Permutation (<[Z.to_nat (pick compare arr current) := ec]>
                             (<[Z.to_nat current := es]> arr)) arr).
  { apply (swap_Permutation arr _ _ ec es); [lia|assumption..]. }
  etransitivity; [apply IH|exact P].
  rewrite !length_insert. exact Lb.
Qed.

Lemma enqueue_Permutation arr (t : T) (p : number) :
  Z.of_nat (length arr) + 1 < 2 ^ 30 ->
  Permutation (items (enqueue (Queue arr compare) t p)) (Entry t p :: arr).
Proof.
  intros Lb. unfold enqueue, heapifyUp. cbn [items PriorityQueue.compare].
  rewrite heapifyUpLoop_Permutation.
  - rewrite Permutation_app_comm. reflexivity.
  - rewrite length_app. simpl. lia.
Qed.

Lemma dequeue_Permutation root rest :
  Z.of_nat (length (root :: rest)) < 2 ^ 30 ->
  exists arr',
    dequeue (Queue (root :: rest) compare)
    = (Some (item root), Queue arr' compare)
    /\ Permutation rest arr'.
Proof.
  intros Lb. unfold dequeue. cbn [items PriorityQueue.compare].
  destruct rest as [|r rest'] using rev_ind.
  { exists []. split; reflexivity. }
  clear IHrest'. rename rest' into mid, r into l.
  assert (Ll : length (root :: mid ++ [l]) = S (S (length mid)))
    by (simpl; rewrite length_app; simpl; lia).
  rewrite Ll. cbn [Nat.eqb lookup list_lookup].
  rewrite app_comm_cons, last_snoc, removelast_last.
  eexists. split; [reflexivity|].
  unfold heapifyDown, set_. change (Z.to_nat 0) with 0%nat.
  cbn [insert list_insert].
  rewrite heapifyDownLoop_Permutation.
  - rewrite Permutation_app_comm. reflexivity.
  - rewrite Ll in Lb. simpl. lia.
Qed.

End AnyComparator.

(** X7: Whatever the comparator answers, even NaN or answers that follow no
    order, the queue neither loses nor duplicates an entry: [enqueue]
    adds exactly the new entry, [dequeue] returns the item at the front
    and removes exactly that entry, and on an empty queue it returns
    [undefined] and changes nothing.  [peek] shows what the next
    [dequeue] returns. *)
Theorem queue_keeps_its_entries (T : Type) (compare : number -> number -> number)
    (arr : list (entry T)) (t : T) (p : number) :
  Z.of_nat (length arr) + 1 < 2 ^ 30 ->
  let q := Queue arr compare in
  Permutation (items (enqueue q t p)) (Entry t p :: arr)
  /\ size (enqueue q t p) = S (size q)
  /\ match arr with
     | [] => dequeue q = (None, q) /\ isEmpty q = true
     | root :: rest =>
         exists arr',
           dequeue q = (Some (item root), Queue arr' compare)
           /\ Permutation rest arr'
           /\ size (Queue arr' compare) = (size q - 1)%nat
           /\ isEmpty q = false
     end
  /\ peek q = fst (dequeue q).
Proof.
  intros Lb q. subst q.
  pose proof (enqueue_Permutation compare arr t p Lb) as P.
  split; [exact P|]. split.
  { unfold size. rewrite (Permutation_length P). reflexivity. }
  destruct arr as [|root rest].
  - repeat split.
  - destruct (dequeue_Permutation compare root rest) as (arr' & E & P').
    { simpl in *. lia. }
    split.
    + exists arr'. split; [exact E|]. split; [exact P'|].
      unfold size. cbn [items]. rewrite <- (Permutation_length P').
      simpl. split; [lia | reflexivity].
    + rewrite E. reflexivity.
Qed.

Lemma queue_keeps_its_entries_witness :
  Permutation
    (items (enqueue (Queue [Entry "a" NaN; Entry "b" (of_Z 1)]%string
                       (fun _ _ => NaN)) "c"%string (of_Z 0)))
    [Entry "c" (of_Z 0); Entry "a" NaN; Entry "b" (of_Z 1)]%string.
Proof.
  apply (queue_keeps_its_entries string (fun _ _ => NaN)
           [Entry "a" NaN; Entry "b" (of_Z 1)]%string "c"%string (of_Z 0)).
  vm_compute. reflexivity.
Defined.

(** *** Calls in any order *)

Lemma run_invariant {T} (calls : list (call (T := T))) (arr : list (entry T)) :
  heap arr -> priorities_ordered arr -> Forall admissible calls ->
  Z.of_nat (length arr + enqueued calls) < 2 ^ 30 ->
  exists arr',
    snd (run (Queue arr default_compare) calls) = Queue arr' default_compare
    /\ heap arr' /\ priorities_ordered arr'
    /\ (length arr' <= length arr + enqueued calls)%nat.
Proof.
  revert arr. induction calls as [|c calls IH]; intros arr Hh Hok Hc Lb.
  { exists arr. simpl. rewrite Nat.add_0_r. auto. }
  inversion Hc as [|? ? Hc1 Hc']; subst.
  destruct c as [t p|].
  - simpl in Hc1. change (enqueued (Enqueue t p :: calls)) with (S (enqueued calls)) in *.
    destruct (enqueue_spec default_compare sub_respects arr t p Hh Hok Hc1)
      as (arr1 & E1 & Hh1 & P1); [lia|].
    assert (Hok1 : priorities_ordered arr1).
    { apply (priorities_ordered_Permutation _ _ P1).
      apply Forall_app. split; [exact Hok|]. constructor; [exact Hc1|constructor]. }
    assert (L1 : length arr1 = S (length arr)).
    { rewrite (Permutation_length P1), length_app. simpl. lia. }
    destruct (IH arr1 Hh1 Hok1 Hc') as (arr' & E' & Hh' & Hok' & L'); [lia|].
    exists arr'. cbn [run]. rewrite E1. split; [exact E'|].
    split; [exact Hh'|]. split; [exact Hok'|]. lia.
  - change (enqueued (Dequeue :: calls)) with (enqueued calls) in *.
    destruct arr as [|root rest].
    + destruct (IH [] Hh Hok Hc' Lb) as (arr' & E' & Hh' & Hok' & L').
      exists arr'. cbn [run]. change (dequeue (Queue [] default_compare))
        with (@None T, Queue (@nil (entry T)) default_compare).
      cbv iota beta. destruct (run (Queue [] default_compare) calls) as [out q''].
      simpl in *. auto.
    + destruct (dequeue_spec default_compare sub_respects root rest Hh Hok)
        as (arr1 & E1 & Hh1 & P1); [simpl in *; lia|].
      assert (Hok1 : priorities_ordered arr1).
      { apply (priorities_ordered_Permutation _ _ (Permutation_sym P1)) in Hok.
        inversion Hok; assumption. }
      assert (L1 : length rest = length arr1).
      { apply Permutation_length in P1. simpl in P1. lia. }
      destruct (IH arr1 Hh1 Hok1 Hc') as (arr' & E' & Hh' & Hok' & L').
      { simpl in Lb. lia. }
      exists arr'. cbn [run]. rewrite E1. cbv iota beta.
      destruct (run (Queue arr1 default_compare) calls) as [out q''].
      simpl in *. split; [exact E'|]. split; [exact Hh'|].
      split; [exact Hok'|]. lia.
Qed.

(** X8: After any sequence of [enqueue] and [dequeue] calls, in any order, on
    a queue with the default comparator, the next [dequeue] returns an
    item whose priority no stored entry undercuts and takes exactly that
    entry out; on an empty queue it returns [undefined].  Priorities are
    numbers other than NaN. *)
Theorem dequeue_returns_a_minimum (T : Type) (calls : list (call (T := T))) :
  Z.of_nat (enqueued calls) < 2 ^ 30 ->
  Forall admissible calls ->
  let q := snd (run (create default_compare) calls) in
  match dequeue q with
  | (None, q') => items q = [] /\ q' = q
  | (Some t, q') =>
      exists p,
        Permutation (items q) (Entry t p :: items q')
        /\ Forall (fun e => le p (priority e) = true) (items q)
  end
  /\ peek q = fst (dequeue q).
Proof.
  intros Lb Hc q.
  destruct (run_invariant calls [] heap_nil (List.Forall_nil _) Hc)
    as (arr & E & Hh & Hok & L); [simpl; lia|].
  unfold q, create. rewrite E. destruct arr as [|root rest].
  { split; [split|]; reflexivity. }
  destruct (dequeue_spec default_compare sub_respects root rest Hh Hok)
    as (arr' & E' & Hh' & P'); [simpl in *; lia|].
  rewrite E'. split; [|reflexivity].
  exists (priority root). cbn [items]. split.
  - destruct root as [t p]. exact P'.
  - apply Forall_forall. intros e He.
    exact (heap_root_min (root :: rest) root Hh Hok eq_refl e He).
Qed.

Lemma dequeue_returns_a_minimum_witness :
  let q := snd (run (create default_compare)
                  [Enqueue "a" (of_Z 4); Enqueue "b" (of_Z 2); Dequeue;
                   Enqueue "c" (of_Z 3); Enqueue "d" Infinity; Dequeue]%string) in
  match dequeue q with
  | (None, q') => items q = [] /\ q' = q
  | (Some t, q') =>
      exists p,
        Permutation (items q) (Entry t p :: items q')
        /\ Forall (fun e => le p (priority e) = true) (items q)
  end
  /\ peek q = fst (dequeue q).
Proof.
  apply (dequeue_returns_a_minimum string
           [Enqueue "a" (of_Z 4); Enqueue "b" (of_Z 2); Dequeue;
            Enqueue "c" (of_Z 3); Enqueue "d" Infinity; Dequeue]%string).
  - vm_compute. reflexivity.
  - repeat constructor.
Defined.

(** *** A max-heap *)

Lemma sub_neg_neg (a b : number) : sub (neg a) (neg b) = sub b a.
Proof.
  destruct a as [[]|[]| |sa ma ea], b as [[]|[]| |sb mb eb]; try reflexivity;
    try (destruct sa; reflexivity); try (destruct sb; reflexivity).
  unfold sub, neg. cbn [SFopp SFsub]. cbv zeta. rewrite (Z.min_comm eb ea).
  f_equal. destruct sa, sb; cbn [negb cond_Zopp]; lia.
Qed.

Lemma compare_neg (a b : number) :
  SFcompare (neg a) (neg b) = SFcompare b a.
Proof.
  destruct a as [[]|[]| |[] m e], b as [[]|[]| |[] m' e']; try reflexivity;
    simpl; split_compare; simpl; try reflexivity; try lia.
Qed.

Lemma le_neg (a b : number) : le (neg a) (neg b) = le b a.
Proof. unfold le, SFleb. rewrite compare_neg. reflexivity. Qed.

Lemma ordered_neg (a : number) : ordered (neg a) = ordered a.
Proof. destruct a as [[]|[]| |[] m e]; reflexivity. Qed.

Section MaxHeap.
Context {T : Type}.
Implicit Types (arr : list (entry T)) (q : queue T).

Lemma negated_involutive (e : entry T) : negated (negated e) = e.
Proof. destruct e as [t p]. unfold negated. simpl. rewrite NumSign.neg_involutive. reflexivity. Qed.

Lemma at_negated arr (i : Z) : at_ (negated <$> arr) i = negated <$> at_ arr i.
Proof.
  unfold at_. destruct (i <? 0); [reflexivity|]. apply list_lookup_fmap.
Qed.

Lemma set_negated arr (i : Z) (e : entry T) :
  set_ (negated <$> arr) i (negated e) = negated <$> set_ arr i e.
Proof. unfold set_. symmetry. apply list_fmap_insert. Qed.

Lemma compare_negated (c p : entry T) :
  default_compare (priority (negated c)) (priority (negated p))
  = descending_compare (priority c) (priority p).
Proof. apply sub_neg_neg. Qed.

Lemma heapifyUpLoop_negated (fuel : nat) arr (current : Z) :
  heapifyUpLoop default_compare fuel (negated <$> arr) current
  = negated <$> heapifyUpLoop descending_compare fuel arr current.
Proof.
  revert arr current. induction fuel as [|fuel IH]; intros arr current;
    [reflexivity|].
  cbn [heapifyUpLoop]. destruct (0 <? current); [|reflexivity].
  rewrite !at_negated.
  destruct (at_ arr current) as [c|]; [|reflexivity].
  destruct (at_ arr (sar (current - 1) 1)) as [p|]; [|reflexivity].
  cbn [fmap option_fmap option_map]. rewrite compare_negated.
  destruct (ge _ zero); [reflexivity|].
  rewrite !set_negated. apply IH.
Qed.

Lemma choice_negated arr (candidate smallest : Z) :
  match at_ (negated <$> arr) candidate, at_ (negated <$> arr) smallest with
  | Some l, Some s =>
      if (candidate <? Z.of_nat (length (negated <$> arr)))
         && lt (default_compare (priority l) (priority s)) zero
      then candidate else smallest
  | _, _ => smallest
  end
  = match at_ arr candidate, at_ arr smallest with
    | Some l, Some s =>
        if (candidate <? Z.of_nat (length arr))
           && lt (descending_compare (priority l) (priority s)) zero
        then candidate else smallest
    | _, _ => smallest
    end.
Proof.
  rewrite !at_negated, length_fmap.
  destruct (at_ arr candidate) as [l|], (at_ arr smallest) as [s|];
    cbn [fmap option_fmap option_map]; try reflexivity.
  rewrite compare_negated. reflexivity.
Qed.

Lemma pick_negated arr (current : Z) :
  pick default_compare (negated <$> arr) current
  = pick descending_compare arr current.
Proof. unfold pick. cbv zeta. rewrite !choice_negated. reflexivity. Qed.

Lemma heapifyDownLoop_negated (fuel : nat) arr (current : Z) :
  heapifyDownLoop default_compare fuel (negated <$> arr) current
  = negated <$> heapifyDownLoop descending_compare fuel arr current.
Proof.
  revert arr current. induction fuel as [|fuel IH]; intros arr current;
    [reflexivity|].
  rewrite !heapifyDownLoop_step. cbv zeta. rewrite pick_negated.
  destruct (pick descending_compare arr current =? current);
    [reflexivity|].
  rewrite !at_negated.
  destruct (at_ arr current) as [c|]; [|reflexivity].
  destruct (at_ arr (pick descending_compare arr current)) as [s|]; [|reflexivity].
  cbn [fmap option_fmap option_map]. rewrite !set_negated. apply IH.
Qed.

Lemma enqueue_negated arr (t : T) (p : number) :
  enqueue (Queue (negated <$> arr) default_compare) t (neg p)
  = Queue (negated <$> items (enqueue (Queue arr descending_compare) t p))
      default_compare.
Proof.
  unfold enqueue, heapifyUp. cbn [items PriorityQueue.compare].
  change ((negated <$> arr) ++ [Entry t (neg p)])
    with ((negated <$> arr) ++ (negated <$> [Entry t p])).
  rewrite <- fmap_app, heapifyUpLoop_negated, !length_fmap. reflexivity.
Qed.

Lemma enqueueAll_negated (l : list (T * number)) arr :
  enqueueAll (Queue (negated <$> arr) default_compare)
    (List.map (fun p => (fst p, neg (snd p))) l)
  = Queue (negated <$> items (enqueueAll (Queue arr descending_compare) l))
      default_compare.
Proof.
  revert arr. induction l as [|[t p] l IH]; intros arr; [reflexivity|].
  unfold enqueueAll in *. cbn [List.map fold_left fst snd].
  rewrite enqueue_negated.
  assert (E : enqueue (Queue arr descending_compare) t p
              = Queue (items (enqueue (Queue arr descending_compare) t p))
                  descending_compare) by reflexivity.
  rewrite E at 2. apply IH.
Qed.

Lemma dequeue_negated arr :
  dequeue (Queue (negated <$> arr) default_compare)
  = (fst (dequeue (Queue arr descending_compare)),
     Queue (negated <$> items (snd (dequeue (Queue arr descending_compare))))
       default_compare).
Proof.
  unfold dequeue. cbn [items PriorityQueue.compare]. rewrite length_fmap.
  destruct arr as [|root rest]; [reflexivity|].
  cbn [length Nat.eqb fmap list_fmap lookup list_lookup].
  destruct rest as [|r rest'] using rev_ind; [reflexivity|].
  clear IHrest'.
  assert (Ll : length (rest' ++ [r]) = S (length rest'))
    by (rewrite length_app; simpl; lia).
  rewrite Ll. cbn [Nat.eqb].
  change (negated root :: (negated <$> (rest' ++ [r])))
    with (negated <$> (root :: rest' ++ [r])).
  rewrite app_comm_cons. rewrite fmap_app.
  change (negated <$> [r]) with [negated r].
  rewrite !last_snoc, !removelast_last. cbn [fst snd items].
  unfold heapifyDown.
  rewrite set_negated, heapifyDownLoop_negated, !length_fmap. reflexivity.
Qed.

Lemma drain_negated (fuel : nat) arr :
  drain fuel (Queue (negated <$> arr) default_compare)
  = (fst (drain fuel (Queue arr descending_compare)),
     Queue (negated <$> items (snd (drain fuel (Queue arr descending_compare))))
       default_compare).
Proof.
  revert arr. induction fuel as [|fuel IH]; intros arr; [reflexivity|].
  cbn [drain]. unfold isEmpty. cbn [items]. rewrite length_fmap.
  destruct (length arr =? 0)%nat; [reflexivity|].
  rewrite dequeue_negated.
  destruct (dequeue (Queue arr descending_compare)) as [[t|] [arr' cmp]] eqn:E;
    cbn [fst snd items]; [|reflexivity].
  assert (Ec : cmp = descending_compare).
  { unfold dequeue in E. cbn [items PriorityQueue.compare] in E.
    destruct (length arr =? 0)%nat; [congruence|].
    destruct (arr !! 0%nat); [|congruence].
    destruct (length arr =? 1)%nat; [congruence|].
    destruct (last arr); congruence. }
  subst cmp. rewrite IH.
  destruct (drain fuel (Queue arr' descending_compare)) as [out q''].
  reflexivity.
Qed.

Lemma enqueueAll_compare (l : list (T * number)) q :
  compare (enqueueAll q l) = compare q.
Proof.
  revert q. induction l as [|[t p] l IH]; intros q; [reflexivity|].
  unfold enqueueAll in *. cbn [fold_left]. rewrite IH. reflexivity.
Qed.

Lemma dequeue_compare q : compare (snd (dequeue q)) = compare q.
Proof.
  unfold dequeue. destruct (length (items q) =? 0)%nat; [reflexivity|].
  destruct (items q !! 0%nat); [|reflexivity].
  destruct (length (items q) =? 1)%nat; [reflexivity|].
  destruct (last (items q)); reflexivity.
Qed.

Lemma drain_compare (fuel : nat) q : compare (snd (drain fuel q)) = compare q.
Proof.
  revert q. induction fuel as [|fuel IH]; intros q; [reflexivity|].
  cbn [drain]. destruct (isEmpty q); [reflexivity|].
  pose proof (dequeue_compare q) as E.
  destruct (dequeue q) as [[t|] q']; cbn [snd] in E; [|exact E].
  specialize (IH q'). destruct (drain fuel q') as [out q''].
  cbn [snd] in *. congruence.
Qed.

Lemma negated_sorted (es : list (entry T)) :
  StronglySorted lep es ->
  StronglySorted (fun a b => ge (priority a) (priority b) = true) (negated <$> es).
Proof.
  induction 1 as [|e es S IH He]; [constructor|].
  cbn [fmap list_fmap]. constructor; [exact IH|].
  apply Forall_fmap. eapply Forall_impl; [exact He|].
  intros e' L. unfold lep in L. cbn. unfold ge. fold (le (neg (priority e')) (neg (priority e))).
  rewrite le_neg. exact L.
Qed.

End MaxHeap.

(** X9: With the comparator [(a, b) => b - a] the queue is a max-heap:
    enqueuing any pairs whose priorities are numbers other than NaN and
    then dequeuing until the queue is empty emits the items in
    non-increasing order of priority, and leaves the queue empty. *)
Theorem descending_dequeue_order (T : Type) (l : list (T * number)) :
  Z.of_nat (length l) < 2 ^ 30 ->
  Forall (fun p => ordered (snd p) = true) l ->
  exists es : list (entry T),
    dequeueAll (enqueueAll (create descending_compare) l)
      = (List.map item es, create descending_compare)
    /\ Permutation es (List.map (fun p => Entry (fst p) (snd p)) l)
    /\ StronglySorted (fun a b => ge (priority a) (priority b) = true) es.
Proof.
  intros Lb Hl.
  set (l' := List.map (fun p => (fst p, neg (snd p))) l).
  assert (Hl' : Forall (fun p => ordered (snd p) = true) l').
  { unfold l'. apply Forall_forall. intros p [p0 [<- Hp]]%list_elem_of_In%in_map_iff.
    cbn [snd]. rewrite ordered_neg.
    apply (proj1 (Forall_forall _ _) Hl p0), list_elem_of_In, Hp. }
  destruct (enqueueAll_spec default_compare sub_respects l' [])
    as (arr' & E & Hh & P); [apply heap_nil | constructor | exact Hl' | |].
  { unfold l'. rewrite length_map. simpl. lia. }
  simpl in P.
  pose proof (enqueueAll_negated l []) as En. fold l' in En.
  change (Queue (negated <$> []) default_compare) with (@Queue T [] default_compare) in En.
  rewrite E in En. injection En as En.
  set (A := items (enqueueAll (Queue [] descending_compare) l)) in *.
  assert (EA : enqueueAll (create descending_compare) l = Queue A descending_compare).
  { unfold create, A.
    pose proof (enqueueAll_compare l (Queue [] descending_compare)) as C.
    destruct (enqueueAll (Queue [] descending_compare) l) as [a c].
    cbn [items PriorityQueue.compare] in *. congruence. }
  assert (Hok : priorities_ordered arr').
  { apply (priorities_ordered_Permutation _ _ P).
    apply Forall_forall. intros e [p [<- Hp]]%list_elem_of_In%in_map_iff.
    apply (proj1 (Forall_forall _ _) Hl' p), list_elem_of_In, Hp. }
  destruct (drain_spec default_compare sub_respects (length A) arr')
    as (es' & Ed & Pes & Ses); [assumption.. | | |].
  { rewrite (Permutation_length P), length_map. unfold l'. rewrite length_map. exact Lb. }
  { rewrite En, length_fmap. lia. }
  rewrite En, drain_negated in Ed. injection Ed as Ed1 Ed2.
  rewrite EA. unfold dequeueAll, size. cbn [items].
  pose proof (drain_compare (length A) (Queue A descending_compare)) as C.
  destruct (drain (length A) (Queue A descending_compare)) as [out [a c]].
  cbn [fst snd items PriorityQueue.compare] in *. subst c.
  apply fmap_nil_inv in Ed2. subst a.
  exists (negated <$> es'). split; [|split].
  - rewrite Ed1. unfold create. f_equal.
    change (List.map item (negated <$> es')) with (item <$> (negated <$> es')).
    rewrite <- list_fmap_compose. reflexivity.
  - rewrite Pes, P. unfold l'.
    change (List.map ?f ?x) with (f <$> x).
    rewrite <- !list_fmap_compose.
    erewrite list_fmap_ext; [reflexivity|].
    intros i [t p] _. unfold negated. cbn.
    rewrite NumSign.neg_involutive. reflexivity.
  - apply negated_sorted, Ses.
Qed.

Lemma descending_dequeue_order_witness :
  exists es : list (entry string),
    dequeueAll (enqueueAll (create descending_compare)
                  [("A", of_Z 5); ("B", of_Z 1); ("C", Infinity)]%string)
      = (List.map item es, create descending_compare)
    /\ Permutation es
         (List.map (fun p => Entry (fst p) (snd p))
              [("A", of_Z 5); ("B", of_Z 1); ("C", Infinity)]%string)
    /\ StronglySorted (fun a b => ge (priority a) (priority b) = true) es.
Proof.
  apply (descending_dequeue_order string
           [("A", of_Z 5); ("B", of_Z 1); ("C", Infinity)]%string).
  - vm_compute. reflexivity.
  - repeat constructor.
Defined.


End PriorityQueueMore.

(** ** Arithmetic behind the vector operations *)

Module NumAlgebra.
Import Num NumOrder NumSpecial NumSign.

Lemma mul_neg_r (a b : number) : mul a (neg b) = neg (mul a b).
Proof.
  destruct a as [[]|[]| |sa ma ea], b as [[]|[]| |sb mb eb]; try reflexivity;
    try (destruct sa; reflexivity); try (destruct sb; reflexivity).
  change (neg (S754_finite sb mb eb)) with (S754_finite (negb sb) mb eb).
  unfold mul. cbn [SFmul]. rewrite <- round_aux_neg.
  f_equal. destruct sa, sb; reflexivity.
Qed.

Lemma mul_neg_neg (a : number) : mul (neg a) (neg a) = mul a a.
Proof.
  destruct a as [[]|[]| |[] m e]; reflexivity.
Qed.

(** Exchanging the operands of a subtraction negates the result, except
    that a zero result is [+0] both ways. *)
Lemma sub_swap (a b : number) :
  sub b a = neg (sub a b) \/ (sub a b = zero /\ sub b a = zero).
Proof.
  destruct a as [[]|[]| |sa ma ea], b as [[]|[]| |sb mb eb];
    try (left; reflexivity); try (right; split; reflexivity);
    try (destruct sa; left; reflexivity); try (destruct sb; left; reflexivity).
  unfold sub, SFsub. cbv zeta. rewrite (Z.min_comm eb ea).
  set (X := cond_Zopp sa (Zpos (fst (shl_align ma ea (Z.min ea eb))))).
  set (Y := cond_Zopp sb (Zpos (fst (shl_align mb eb (Z.min ea eb))))).
  replace (Y - X) with (- (X - Y)) by lia.
  destruct (X - Y) as [|d|d]; simpl Z.opp; unfold binary_normalize.
  - right. split; reflexivity.
  - left. exact (round_neg false d _).
  - left. exact (round_neg true d _).
Qed.

Lemma sq_sub_swap (a b : number) :
  mul (sub a b) (sub a b) = mul (sub b a) (sub b a).
Proof.
  destruct (sub_swap a b) as [->|[-> ->]]; [|reflexivity].
  symmetry. apply mul_neg_neg.
Qed.

Lemma sub_swap_identical (a b : number) : identical (sub b a) (neg (sub a b)).
Proof.
  destruct (sub_swap a b) as [->|[-> ->]]; [left; reflexivity|].
  right. reflexivity.
Qed.

(** A finite number minus itself is [+0]. *)
Lemma sub_self_finite (a : number) : is_finite a = true -> sub a a = zero.
Proof.
  destruct a as [[]|[]| |s m e]; try discriminate; try reflexivity.
  intros _. unfold sub, SFsub. rewrite Z.sub_diag. reflexivity.
Qed.

Lemma sub_self_pnull (a : number) : pnull (sub a a) = true.
Proof.
  destruct a as [[]|[]| |s m e]; try reflexivity.
  unfold sub, SFsub. rewrite Z.sub_diag. reflexivity.
Qed.

(** [-p + p] and [p - p] are [+0] when [p] is finite, and NaN when [p] is
    NaN or infinite. *)
Lemma add_neg_self_value (p : number) :
  add (neg p) p = if is_finite p then zero else NaN.
Proof.
  destruct p as [[]|[]| |s m e]; try reflexivity.
  unfold add, SFadd, neg, SFopp. cbv zeta.
  replace (cond_Zopp (negb s) (Zpos (fst (shl_align m e (Z.min e e))))
           + cond_Zopp s (Zpos (fst (shl_align m e (Z.min e e))))) with 0
    by (destruct s; simpl; lia).
  reflexivity.
Qed.

Lemma sub_self_value (a : number) :
  sub a a = if is_finite a then zero else NaN.
Proof.
  destruct a as [[]|[]| |s m e]; try reflexivity.
  unfold sub, SFsub. rewrite Z.sub_diag. reflexivity.
Qed.

(** A finite number times zero is a zero; adding a zero to a number
    gives a number equal to it. *)
Lemma add_mul_zero (a d t : number) :
  is_finite d = true -> strict_eq t zero = true ->
  identical a (add a (mul d t)).
Proof.
  intros Fd Ft. apply VectorFacts.strict_eq_zero in Ft as [st ->].
  destruct d as [sd| | |sd md ed]; try discriminate;
    destruct a as [[]|[]| |sa ma ea], sd, st;
    (left; reflexivity) || (right; reflexivity).
Qed.

End NumAlgebra.

(** ** More on [Vector2] and [Vector3] *)

Module Vector2More.
Import Num NumOrder NumOrderMore NumSpecial NumSign NumAlgebra Store VectorFacts.

Lemma lookup_snoc (s : store) (o : object) :
  (s ++ [o]) !! length s = Some o.
Proof. rewrite lookup_app_r by lia. rewrite Nat.sub_diag. reflexivity. Qed.

Lemma lookup_snoc_old (s : store) (o o' : object) (r : ref) :
  s !! r = Some o -> (s ++ [o']) !! r = Some o.
Proof.
  intros H. rewrite lookup_app_l; [exact H|]. apply lookup_lt_Some in H. exact H.
Qed.

Lemma clone_run (s : store) (this : ref) (x y : number) :
  s !! this = Some (OVector2 x y) ->
  Vector2.clone this s = Return (length s) (s ++ [OVector2 x y]).
Proof.
  intros H. unfold Vector2.clone, mbind, store_bind, bind.
  rewrite (fields2_read _ _ _ _ H). reflexivity.
Qed.

Lemma addValue_run (s : store) (this : ref) (x y dx dy : number) :
  s !! this = Some (OVector2 x y) ->
  Vector2.addValue this dx dy s
  = Return tt (<[this := OVector2 (add x dx) (add y dy)]> s).
Proof.
  intros H. apply lookup_lt_Some in H as L.
  unfold Vector2.addValue, mbind, store_bind, bind.
  rewrite (fields2_read _ _ _ _ H). unfold write at 1.
  rewrite (fields2_read _ _ (add x dx) y)
    by (apply list_lookup_insert_eq; exact L).
  unfold write. rewrite list_insert_insert_eq. reflexivity.
Qed.

(** X10: A clone is a separate object: changing it with [addValue] leaves the
    vector it was cloned from as it was.  [addValue] itself changes the
    object it is called on, and no other. *)
Theorem clone_is_independent (s : store) (v : ref) (x y dx dy : number) :
  s !! v = Some (OVector2 x y) ->
  (exists c s',
     (c ← Vector2.clone v; _ ← Vector2.addValue c dx dy; mret c) s = Return c s'
     /\ c <> v
     /\ s' !! v = Some (OVector2 x y)
     /\ s' !! c = Some (OVector2 (add x dx) (add y dy)))
  /\ (exists s'',
        Vector2.addValue v dx dy s = Return tt s''
        /\ s'' !! v = Some (OVector2 (add x dx) (add y dy))
        /\ forall r, r <> v -> s'' !! r = s !! r).
Proof.
  intros H. apply lookup_lt_Some in H as L. split.
  - exists (length s). eexists. unfold mbind, store_bind, bind.
    rewrite (clone_run _ _ _ _ H).
    rewrite (addValue_run _ _ x y dx dy) by apply lookup_snoc.
    split; [reflexivity|]. split; [lia|]. split.
    + rewrite list_lookup_insert_ne by lia. apply lookup_snoc_old, H.
    + apply list_lookup_insert_eq. rewrite length_app. simpl. lia.
  - eexists. rewrite (addValue_run _ _ _ _ _ _ H). split; [reflexivity|].
    split; [apply list_lookup_insert_eq, L|].
    intros r N. apply list_lookup_insert_ne. congruence.
Qed.

Lemma clone_is_independent_witness :
  exists c s',
    (c ← Vector2.clone 0%nat; _ ← Vector2.addValue c (of_Z 1) (of_Z 1); mret c)
      [OVector2 (of_Z 3) (of_Z 4)] = Return c s'
    /\ c <> 0%nat
    /\ s' !! 0%nat = Some (OVector2 (of_Z 3) (of_Z 4))
    /\ s' !! c = Some (OVector2 (add (of_Z 3) (of_Z 1)) (add (of_Z 4) (of_Z 1))).
Proof.
  apply (clone_is_independent [OVector2 (of_Z 3) (of_Z 4)] 0%nat
           (of_Z 3) (of_Z 4) (of_Z 1) (of_Z 1)).
  reflexivity.
Defined.

Lemma perp_run (s : store) (this : ref) (x y : number) :
  s !! this = Some (OVector2 x y) ->
  Vector2.perp this s = Return (length s) (s ++ [OVector2 (neg y) x]).
Proof.
  intros H. unfold Vector2.perp, mbind, store_bind, bind.
  rewrite (fields2_read _ _ _ _ H). reflexivity.
Qed.

Lemma dot_run (s : store) (this v : ref) (x1 y1 x2 y2 : number) :
  s !! this = Some (OVector2 x1 y1) -> s !! v = Some (OVector2 x2 y2) ->
  Vector2.dot this v s = Return (add (mul x1 x2) (mul y1 y2)) s.
Proof.
  intros H1 H2. unfold Vector2.dot, mbind, store_bind, bind.
  rewrite (fields2_read _ _ _ _ H1), (fields2_read _ _ _ _ H2). reflexivity.
Qed.

(** X11: [perp] turns by a quarter: two turns negate both coordinates, four
    turns give the coordinates back exactly, each in a new object.  The
    dot product of a vector with its [perp] is [+0] when the product
    [x * y] of the coordinates is finite, and NaN when that product is
    infinite or NaN. *)
Theorem perp_quarter_turns (s : store) (v : ref) (x y : number) :
  s !! v = Some (OVector2 x y) ->
  (exists r2 r4 s',
     (r1 ← Vector2.perp v; r2 ← Vector2.perp r1;
      r3 ← Vector2.perp r2; r4 ← Vector2.perp r3; mret (r2, r4)) s
     = Return (r2, r4) s'
     /\ s' !! r2 = Some (OVector2 (neg x) (neg y))
     /\ s' !! r4 = Some (OVector2 x y)
     /\ r4 <> v
     /\ s' !! v = Some (OVector2 x y))
  /\ (exists s',
        (p ← Vector2.perp v; Vector2.dot v p) s
        = Return (if is_finite (mul x y) then zero else NaN) s').
Proof.
  intros H. apply lookup_lt_Some in H as L. split.
  - unfold mbind, store_bind, bind.
    rewrite (perp_run _ _ _ _ H).
    rewrite (perp_run _ _ (neg y) x) by apply lookup_snoc.
    rewrite (perp_run _ _ (neg x) (neg y)) by apply lookup_snoc.
    rewrite (perp_run _ _ (neg (neg y)) (neg x)) by apply lookup_snoc.
    rewrite !neg_involutive. do 3 eexists. split; [reflexivity|].
    rewrite !length_app. simpl. split; [|split; [|split]].
    + rewrite <- !app_assoc. simpl.
      rewrite lookup_app_r by lia.
      replace (length s + 1 - length s)%nat with 1%nat by lia. reflexivity.
    + rewrite lookup_app_r by (rewrite !length_app; simpl; lia).
      rewrite !length_app. simpl.
      replace (length s + 1 + 1 + 1 - (length s + 1 + 1 + 1))%nat with 0%nat by lia.
      reflexivity.
    + lia.
    + do 4 apply lookup_snoc_old. exact H.
  - unfold mbind, store_bind, bind. rewrite (perp_run _ _ _ _ H).
    rewrite (dot_run _ _ _ x y (neg y) x);
      [|apply lookup_snoc_old, H | apply lookup_snoc].
    eexists. rewrite mul_neg_r, (mul_comm y x), add_neg_self_value.
    reflexivity.
Qed.

Lemma perp_quarter_turns_witness :
  exists s',
    (p ← Vector2.perp 0%nat; Vector2.dot 0%nat p)
      [OVector2 (of_Z 3) (of_Z 4)]
    = Return (if is_finite (mul (of_Z 3) (of_Z 4)) then zero else NaN) s'.
Proof.
  apply (perp_quarter_turns [OVector2 (of_Z 3) (of_Z 4)] 0%nat (of_Z 3) (of_Z 4)).
  reflexivity.
Defined.

Lemma equal_run (s : store) (v1 v2 : ref) (x1 y1 x2 y2 : number) :
  s !! v1 = Some (OVector2 x1 y1) -> s !! v2 = Some (OVector2 x2 y2) ->
  Vector2.equal v1 v2 s = Return (strict_eq x1 x2 && strict_eq y1 y2) s.
Proof.
  intros H1 H2. unfold Vector2.equal, mbind, store_bind, bind.
  rewrite (fields2_read _ _ _ _ H1), (fields2_read _ _ _ _ H2). reflexivity.
Qed.

(** X12: [Vector2.equal] compares coordinates with [===]: a point equals
    itself exactly when neither coordinate is NaN; the answer does not
    depend on the order of the arguments; and two points found equal have,
    coordinate by coordinate, the same value or two zeros. *)
Theorem equal_is_strict_equality (s : store) (v w : ref) (x y x' y' : number) :
  s !! v = Some (OVector2 x y) -> s !! w = Some (OVector2 x' y') ->
  Vector2.equal v v s = Return (negb (is_nan x || is_nan y)) s
  /\ Vector2.equal v w s = Vector2.equal w v s
  /\ (Vector2.equal v w s = Return true s ->
      (x = x' \/ exists s1 s2, x = S754_zero s1 /\ x' = S754_zero s2)
      /\ (y = y' \/ exists s1 s2, y = S754_zero s1 /\ y' = S754_zero s2)).
Proof.
  intros Hv Hw.
  rewrite (equal_run _ _ _ _ _ _ _ Hv Hv), (equal_run _ _ _ _ _ _ _ Hv Hw),
          (equal_run _ _ _ _ _ _ _ Hw Hv).
  split; [|split].
  - rewrite !strict_eq_refl, negb_orb. reflexivity.
  - rewrite (strict_eq_sym x x'), (strict_eq_sym y y'). reflexivity.
  - intros E. injection E as E. apply andb_true_iff in E as [Ex Ey].
    assert (G : forall a b, strict_eq a b = true ->
                  a = b \/ exists s1 s2, a = S754_zero s1 /\ b = S754_zero s2).
    { clear. intros a b E. destruct (strict_eq_cases a b E) as [->|[Na Nb]]; [auto|].
      destruct a as [sa| | |], b as [sb| | |]; try discriminate; eauto. }
    split; apply G; assumption.
Qed.

Lemma equal_is_strict_equality_witness :
  Vector2.equal 0%nat 0%nat [OVector2 NaN (of_Z 1); OVector2 zero neg_zero]
  = Return false [OVector2 NaN (of_Z 1); OVector2 zero neg_zero].
Proof.
  apply (equal_is_strict_equality [OVector2 NaN (of_Z 1); OVector2 zero neg_zero]
           0%nat 1%nat NaN (of_Z 1) zero neg_zero); reflexivity.
Defined.

(** *** Distances *)

Lemma squaredDistanceTo_run (s : store) (this vec : ref) (tx ty vx vy : number) :
  s !! this = Some (OVector2 tx ty) -> s !! vec = Some (OVector2 vx vy) ->
  Vector2.squaredDistanceTo this vec s
  = Return (Utils.getSquaredDistance (Point tx ty) (Point vx vy)) s.
Proof.
  intros H1 H2. unfold Vector2.squaredDistanceTo, mbind, store_bind, bind.
  rewrite (fields2_read _ _ _ _ H2), (fields2_read _ _ _ _ H1). reflexivity.
Qed.

Section Points.
Context {T : Type} `{Point2 T}.

Lemma getSquaredDistance_sym (p1 p2 : T) :
  Utils.getSquaredDistance p1 p2 = Utils.getSquaredDistance p2 p1.
Proof.
  unfold Utils.getSquaredDistance. cbv zeta.
  rewrite (sq_sub_swap (x p2) (x p1)), (sq_sub_swap (y p2) (y p1)). reflexivity.
Qed.

Lemma getSquaredDistance_nonneg (p1 p2 : T) :
  nonneg (Utils.getSquaredDistance p1 p2) = true.
Proof. apply add_nonneg; apply sq_nonneg. Qed.

(** X13: The squared distance is the same in both directions, bit for bit; it
    is NaN or a number that is not negative; and from a point with finite
    coordinates to itself, or to a point with the same coordinates, it is
    [+0]. *)
Theorem getSquaredDistance_symmetric (p1 p2 : T) :
  Utils.getSquaredDistance p1 p2 = Utils.getSquaredDistance p2 p1
  /\ lt (Utils.getSquaredDistance p1 p2) zero = false
  /\ (is_finite (x p1) = true -> is_finite (y p1) = true ->
      x p2 = x p1 -> y p2 = y p1 ->
      Utils.getSquaredDistance p1 p2 = zero).
Proof.
  split; [apply getSquaredDistance_sym|]. split.
  - apply nonneg_not_below_zero, getSquaredDistance_nonneg.
  - intros Fx Fy Ex Ey. unfold Utils.getSquaredDistance. cbv zeta.
    rewrite Ex, Ey, (sub_self_finite _ Fx), (sub_self_finite _ Fy). reflexivity.
Qed.

End Points.

(** X14: [squaredDistanceTo] computes what [getSquaredDistance] computes on
    the coordinates; [distanceTo] is its square root, the same in both
    directions and never negative; neither changes any object. *)
Theorem distanceTo_agrees (s : store) (v w : ref) (x y x' y' : number) :
  s !! v = Some (OVector2 x y) -> s !! w = Some (OVector2 x' y') ->
  Vector2.squaredDistanceTo v w s
  = Return (Utils.getSquaredDistance (Point x y) (Point x' y')) s
  /\ Vector2.distanceTo v w s
     = Return (sqrt (Utils.getSquaredDistance (Point x y) (Point x' y'))) s
  /\ Vector2.distanceTo v w s = Vector2.distanceTo w v s
  /\ lt (sqrt (Utils.getSquaredDistance (Point x y) (Point x' y'))) zero = false.
Proof.
  intros Hv Hw.
  assert (D : forall a b xa ya xb yb,
             s !! a = Some (OVector2 xa ya) -> s !! b = Some (OVector2 xb yb) ->
             Vector2.distanceTo a b s
             = Return (sqrt (Utils.getSquaredDistance (Point xa ya) (Point xb yb))) s).
  { intros a b xa ya xb yb Ha Hb. unfold Vector2.distanceTo, mbind, store_bind, bind.
    rewrite (squaredDistanceTo_run _ _ _ _ _ _ _ Ha Hb). reflexivity. }
  split; [apply squaredDistanceTo_run; assumption|].
  split; [apply D; assumption|]. split.
  - rewrite (D _ _ _ _ _ _ Hv Hw), (D _ _ _ _ _ _ Hw Hv).
    rewrite (getSquaredDistance_sym (Point x y) (Point x' y')). reflexivity.
  - apply nonneg_not_below_zero, sqrt_nonneg, getSquaredDistance_nonneg.
Qed.

Lemma distanceTo_agrees_witness :
  Vector2.distanceTo 0%nat 1%nat
    [OVector2 (of_Z 0) (of_Z 0); OVector2 (of_Z 3) (of_Z 4)]
  = Vector2.distanceTo 1%nat 0%nat
      [OVector2 (of_Z 0) (of_Z 0); OVector2 (of_Z 3) (of_Z 4)].
Proof.
  apply (distanceTo_agrees [OVector2 (of_Z 0) (of_Z 0); OVector2 (of_Z 3) (of_Z 4)]
           0%nat 1%nat (of_Z 0) (of_Z 0) (of_Z 3) (of_Z 4)); reflexivity.
Defined.

Lemma getSquaredDistance_point (a b c d : number) :
  Utils.getSquaredDistance (Point a b) (Point c d)
  = add (mul (sub c a) (sub c a)) (mul (sub d b) (sub d b)).
Proof. reflexivity. Qed.

Lemma sq_zero_sub (a : number) (z : bool) :
  mul (sub (S754_zero z) a) (sub (S754_zero z) a) = mul a a.
Proof. destruct a as [[]|[]| |[] m e], z; reflexivity. Qed.

(** X15: The length of a vector is its distance to the origin, bit for bit,
    and is NaN or a number that is not negative. *)
Theorem length_is_distance_to_origin (s : store) (v o : ref)
    (x y : number) (zx zy : bool) :
  s !! v = Some (OVector2 x y) ->
  s !! o = Some (OVector2 (S754_zero zx) (S754_zero zy)) ->
  exists len,
    Vector2.length v s = Return len s
    /\ Vector2.distanceTo v o s = Return len s
    /\ lt len zero = false.
Proof.
  intros Hv Ho. eexists. rewrite (length2_read _ _ _ _ Hv).
  split; [reflexivity|]. split.
  - unfold Vector2.distanceTo, mbind, store_bind, bind.
    rewrite (squaredDistanceTo_run _ _ _ _ _ _ _ Hv Ho).
    rewrite getSquaredDistance_point, !sq_zero_sub. reflexivity.
  - apply nonneg_not_below_zero, sqrt_nonneg, add_nonneg; apply sq_nonneg.
Qed.

Lemma length_is_distance_to_origin_witness :
  exists len,
    Vector2.length 0%nat [OVector2 (of_Z 3) (of_Z 4); OVector2 zero neg_zero]
    = Return len [OVector2 (of_Z 3) (of_Z 4); OVector2 zero neg_zero]
    /\ Vector2.distanceTo 0%nat 1%nat
         [OVector2 (of_Z 3) (of_Z 4); OVector2 zero neg_zero]
       = Return len [OVector2 (of_Z 3) (of_Z 4); OVector2 zero neg_zero]
    /\ lt len zero = false.
Proof.
  apply (length_is_distance_to_origin
           [OVector2 (of_Z 3) (of_Z 4); OVector2 zero neg_zero] 0%nat 1%nat
           (of_Z 3) (of_Z 4) false true); reflexivity.
Defined.

(** *** The closest vector *)

(** What the loop of [getClosestVector] leaves in its two locals. *)
Lemma closestLoop_spec (s : store) (this : ref) (tx ty : number)
    (vectors : list ref) (coords : list (number * number)) :
  s !! this = Some (OVector2 tx ty) ->
  Vector2.denote s vectors coords ->
  forall (cp : option ref) (cd : number), is_nan cd = false ->
  let ds := List.map (fun c => Utils.getSquaredDistance (Point (fst c) (snd c))
                                 (Point tx ty)) coords in
  exists r d,
    Vector2.closestLoop this vectors cp cd s = Return r s
    /\ is_nan d = false
    /\ (forall d', d' ∈ ds -> lt d' d = false)
    /\ ((r = cp /\ d = cd)
        \/ exists (i : nat) v,
             r = Some v /\ vectors !! i = Some v /\ ds !! i = Some d
             /\ lt d cd = true
             /\ forall (j : nat) d', (j < i)%nat -> ds !! j = Some d' ->
                  le d' d = false).
Proof.
  intros Hthis D. induction D as [|v c vectors coords Hv _ IH]; intros cp cd Ncd ds.
  - exists cp, cd. split; [reflexivity|]. split; [exact Ncd|]. split; [|auto].
    intros d' Hd'. inversion Hd'.
  - destruct c as [vx vy]. simpl in Hv.
    cbn [Vector2.closestLoop]. unfold mbind, store_bind, bind.
    rewrite (squaredDistanceTo_run _ _ _ _ _ _ _ Hv Hthis).
    set (d0 := Utils.getSquaredDistance (Point vx vy) (Point tx ty)).
    assert (Eds : ds = d0 :: List.map (fun c => Utils.getSquaredDistance
                     (Point (fst c) (snd c)) (Point tx ty)) coords) by reflexivity.
    destruct (lt d0 cd) eqn:G.
    + assert (N0 : is_nan d0 = false) by exact (lt_not_nan_l _ _ G).
      destruct (IH (Some v) d0 N0) as (r & d & E & Nd & Hall & Hidx).
      exists r, d. split; [exact E|]. split; [exact Nd|]. rewrite Eds.
      destruct Hidx as [[-> ->]|(i & v' & -> & Hi & Hdi & Gi & Hfirst)].
      * split.
        -- intros d' [->|Hd']%elem_of_cons; [apply lt_irrefl | auto].
        -- right. exists 0%nat, v. repeat split; try reflexivity; [exact G|].
           intros j d' Hj. lia.
      * split.
        -- intros d' [->|Hd']%elem_of_cons; [apply lt_asym, Gi | auto].
        -- right. exists (S i), v'. repeat split; try assumption.
           ++ exact (lt_trans d d0 cd Gi G).
           ++ intros [|j] d' Hj Hd'; simpl in Hd'.
              ** injection Hd' as <-. apply lt_not_le, Gi.
              ** apply (Hfirst j d'); [lia | exact Hd'].
    + destruct (IH cp cd Ncd) as (r & d & E & Nd & Hall & Hidx).
      exists r, d. split; [exact E|]. split; [exact Nd|]. rewrite Eds.
      destruct Hidx as [[-> ->]|(i & v' & -> & Hi & Hdi & Gi & Hfirst)].
      * split; [|auto].
        intros d' [->|Hd']%elem_of_cons; [exact G | auto].
      * split.
        -- intros d' [->|Hd']%elem_of_cons; [exact (lt_kept _ _ _ G Gi) | auto].
        -- right. exists (S i), v'. repeat split; try assumption.
           intros [|j] d' Hj Hd'; simpl in Hd'.
           ++ injection Hd' as <-. exact (le_kept _ _ _ G Ncd Gi).
           ++ apply (Hfirst j d'); [lia | exact Hd'].
Qed.

(** X16: [getClosestVector] returns [null] exactly when no vector of the
    collection lies at a squared distance below Infinity, in particular
    for an empty collection; otherwise it returns a vector of the
    collection that none undercuts, the first one at that distance.  No
    object is changed. *)
Theorem getClosestVector_first_closest (s : store) (this : ref) (tx ty : number)
    (vectors : list ref) (coords : list (number * number)) :
  s !! this = Some (OVector2 tx ty) ->
  Vector2.denote s vectors coords ->
  let ds := List.map (fun c => Utils.getSquaredDistance (Point (fst c) (snd c))
                                 (Point tx ty)) coords in
  exists r,
    Vector2.getClosestVector this vectors s = Return r s
    /\ match r with
       | None => forall d, d ∈ ds -> lt d Infinity = false
       | Some v =>
           exists (i : nat) d,
             vectors !! i = Some v /\ ds !! i = Some d
             /\ lt d Infinity = true
             /\ (forall d', d' ∈ ds -> lt d' d = false)
             /\ (forall (j : nat) d', (j < i)%nat -> ds !! j = Some d' ->
                   le d' d = false)
       end.
Proof.
  intros Hthis D ds.
  destruct (closestLoop_spec s this tx ty vectors coords Hthis D None Infinity eq_refl)
    as (r & d & E & Nd & Hall & Hidx).
  exists r. split; [exact E|].
  destruct Hidx as [[-> ->]|(i & v & -> & Hi & Hdi & Gi & Hfirst)].
  - exact Hall.
  - exists i, d. auto.
Qed.

Lemma getClosestVector_first_closest_witness :
  exists r,
    Vector2.getClosestVector 0%nat [1; 2; 3]%nat
      [OVector2 (of_Z 0) (of_Z 0); OVector2 NaN (of_Z 1);
       OVector2 (of_Z 3) (of_Z 4); OVector2 (of_Z (-3)) (of_Z 4)]
    = Return r
        [OVector2 (of_Z 0) (of_Z 0); OVector2 NaN (of_Z 1);
         OVector2 (of_Z 3) (of_Z 4); OVector2 (of_Z (-3)) (of_Z 4)]
    /\ match r with
       | None =>
           forall d,
             d ∈ List.map (fun c => Utils.getSquaredDistance
                                      (Point (fst c) (snd c)) (Point (of_Z 0) (of_Z 0)))
                   [(NaN, of_Z 1); (of_Z 3, of_Z 4); (of_Z (-3), of_Z 4)] ->
             lt d Infinity = false
       | Some v =>
           exists (i : nat) d,
             [1; 2; 3]%nat !! i = Some v
             /\ List.map (fun c => Utils.getSquaredDistance
                                     (Point (fst c) (snd c)) (Point (of_Z 0) (of_Z 0)))
                  [(NaN, of_Z 1); (of_Z 3, of_Z 4); (of_Z (-3), of_Z 4)] !! i = Some d
             /\ lt d Infinity = true
             /\ (forall d',
                   d' ∈ List.map (fun c => Utils.getSquaredDistance
                                     (Point (fst c) (snd c)) (Point (of_Z 0) (of_Z 0)))
                          [(NaN, of_Z 1); (of_Z 3, of_Z 4); (of_Z (-3), of_Z 4)] ->
                   lt d' d = false)
             /\ (forall (j : nat) d', (j < i)%nat ->
                   List.map (fun c => Utils.getSquaredDistance
                                     (Point (fst c) (snd c)) (Point (of_Z 0) (of_Z 0)))
                     [(NaN, of_Z 1); (of_Z 3, of_Z 4); (of_Z (-3), of_Z 4)] !! j = Some d' ->
                   le d' d = false)
       end.
Proof.
  apply (getClosestVector_first_closest
           [OVector2 (of_Z 0) (of_Z 0); OVector2 NaN (of_Z 1);
            OVector2 (of_Z 3) (of_Z 4); OVector2 (of_Z (-3)) (of_Z 4)]
           0%nat (of_Z 0) (of_Z 0) [1; 2; 3]%nat
           [(NaN, of_Z 1); (of_Z 3, of_Z 4); (of_Z (-3), of_Z 4)]).
  - reflexivity.
  - repeat constructor.
Defined.

(** *** Interpolation and the cross product *)

Lemma interpolate_run (s : store) (this goal : ref) (t tx ty gx gy : number) :
  s !! this = Some (OVector2 tx ty) -> s !! goal = Some (OVector2 gx gy) ->
  Vector2.interpolate this goal t s
  = Return (length s)
      (s ++ [OVector2 (add tx (mul (sub gx tx) t)) (add ty (mul (sub gy ty) t))]).
Proof.
  intros H1 H2. unfold Vector2.interpolate, mbind, store_bind, bind.
  rewrite (fields2_read _ _ _ _ H1), (fields2_read _ _ _ _ H2). reflexivity.
Qed.

(** X17: Interpolating with factor 0 gives a new vector whose coordinates
    equal those of [this], as long as the two vectors are a finite
    distance apart in each coordinate. *)
Theorem interpolate_at_zero (s : store) (this goal : ref)
    (t tx ty gx gy : number) :
  s !! this = Some (OVector2 tx ty) -> s !! goal = Some (OVector2 gx gy) ->
  strict_eq t zero = true ->
  is_finite (sub gx tx) = true -> is_finite (sub gy ty) = true ->
  exists x' y',
    Vector2.interpolate this goal t s
    = Return (length s) (s ++ [OVector2 x' y'])
    /\ identical tx x' /\ identical ty y'
    /\ length s <> this.
Proof.
  intros H1 H2 Ht Fx Fy. rewrite (interpolate_run _ _ _ _ _ _ _ _ H1 H2).
  do 2 eexists. split; [reflexivity|].
  split; [apply add_mul_zero; assumption|].
  split; [apply add_mul_zero; assumption|].
  apply lookup_lt_Some in H1. lia.
Qed.

Lemma interpolate_at_zero_witness :
  exists x' y',
    Vector2.interpolate 0%nat 1%nat neg_zero
      [OVector2 (of_Z 3) neg_zero; OVector2 (of_Z 1) (of_Z 7)]
    = Return 2%nat
        ([OVector2 (of_Z 3) neg_zero; OVector2 (of_Z 1) (of_Z 7)] ++ [OVector2 x' y'])
    /\ identical (of_Z 3) x' /\ identical neg_zero y'
    /\ 2%nat <> 0%nat.
Proof.
  apply (interpolate_at_zero [OVector2 (of_Z 3) neg_zero; OVector2 (of_Z 1) (of_Z 7)]
           0%nat 1%nat neg_zero (of_Z 3) neg_zero (of_Z 1) (of_Z 7));
    reflexivity.
Defined.

Lemma cross_run (s : store) (v1 v2 : ref) (x1 y1 x2 y2 : number) :
  s !! v1 = Some (OVector2 x1 y1) -> s !! v2 = Some (OVector2 x2 y2) ->
  Vector2.cross v1 v2 s = Return (sub (mul x1 y2) (mul y1 x2)) s.
Proof.
  intros H1 H2. unfold Vector2.cross, mbind, store_bind, bind.
  rewrite (fields2_read _ _ _ _ H1), (fields2_read _ _ _ _ H2). reflexivity.
Qed.

(** X18: The cross product changes sign when its arguments are exchanged:
    [cross(w, v)] equals [-cross(v, w)] (as [===] does, or both are NaN);
    and the cross product of a vector with itself is [+0] when the
    product [x * y] of its coordinates is finite, and NaN when that
    product is infinite or NaN. *)
Theorem cross_antisymmetric (s : store) (v w : ref) (x y x' y' : number) :
  s !! v = Some (OVector2 x y) -> s !! w = Some (OVector2 x' y') ->
  (exists c c',
     Vector2.cross v w s = Return c s /\ Vector2.cross w v s = Return c' s
     /\ identical c' (neg c))
  /\ Vector2.cross v v s
     = Return (if is_finite (mul x y) then zero else NaN) s.
Proof.
  intros Hv Hw. split.
  - do 2 eexists. rewrite (cross_run _ _ _ _ _ _ _ Hv Hw), (cross_run _ _ _ _ _ _ _ Hw Hv).
    split; [reflexivity|]. split; [reflexivity|].
    rewrite (mul_comm x' y), (mul_comm y' x). apply sub_swap_identical.
  - rewrite (cross_run _ _ _ _ _ _ _ Hv Hv), (mul_comm y x), sub_self_value.
    reflexivity.
Qed.

Lemma cross_antisymmetric_witness :
  Vector2.cross 0%nat 0%nat [OVector2 (of_Z 3) Infinity; OVector2 (of_Z 1) (of_Z 2)]
  = Return (if is_finite (mul (of_Z 3) Infinity) then zero else NaN)
      [OVector2 (of_Z 3) Infinity; OVector2 (of_Z 1) (of_Z 2)].
Proof.
  apply (cross_antisymmetric [OVector2 (of_Z 3) Infinity; OVector2 (of_Z 1) (of_Z 2)]
           0%nat 1%nat (of_Z 3) Infinity (of_Z 1) (of_Z 2)); reflexivity.
Defined.

(** *** Zero vectors and the dot product *)

Lemma strict_eq_sub_self (a : number) :
  strict_eq (sub a a) zero = is_finite a.
Proof.
  destruct a as [[]|[]| |s m e]; try reflexivity.
  rewrite (sub_self_finite (S754_finite s m e) eq_refl). reflexivity.
Qed.

Lemma strict_eq_mul_zero (a : number) :
  strict_eq (mul a zero) zero = is_finite a.
Proof. destruct a as [[]|[]| |[] m e]; reflexivity. Qed.

(** X19: A vector minus itself, and a vector scaled by 0, are zero vectors
    exactly when both coordinates are finite: with an infinite or NaN
    coordinate the result holds NaN and [isZero] answers false. *)
Theorem isZero_of_difference (s : store) (v : ref) (x y : number) :
  s !! v = Some (OVector2 x y) ->
  (exists s',
     (d ← Vector2.subtract v v; Vector2.isZero d) s
     = Return (is_finite x && is_finite y) s')
  /\ (exists s',
        (d ← Vector2.scale v zero; Vector2.isZero d) s
        = Return (is_finite x && is_finite y) s')
  /\ Vector2.isZero v s = Return (strict_eq x zero && strict_eq y zero) s.
Proof.
  intros H. split; [|split].
  - unfold Vector2.subtract, Vector2.isZero, mbind, store_bind, bind.
    rewrite (fields2_read _ _ _ _ H). rewrite (fields2_read _ _ _ _ H).
    unfold Vector2.new, alloc.
    rewrite (fields2_read _ _ (sub x x) (sub y y)) by apply lookup_snoc.
    eexists. rewrite !strict_eq_sub_self. reflexivity.
  - unfold Vector2.scale, Vector2.isZero, mbind, store_bind, bind.
    rewrite (fields2_read _ _ _ _ H). unfold Vector2.new, alloc.
    rewrite (fields2_read _ _ (mul x zero) (mul y zero)) by apply lookup_snoc.
    eexists. rewrite !strict_eq_mul_zero. reflexivity.
  - unfold Vector2.isZero, mbind, store_bind, bind.
    rewrite (fields2_read _ _ _ _ H). reflexivity.
Qed.

Lemma isZero_of_difference_witness :
  exists s',
    (d ← Vector2.subtract 0%nat 0%nat; Vector2.isZero d)
      [OVector2 (of_Z 3) Infinity]
    = Return (is_finite (of_Z 3) && is_finite Infinity) s'.
Proof.
  apply (isZero_of_difference [OVector2 (of_Z 3) Infinity] 0%nat (of_Z 3) Infinity).
  reflexivity.
Defined.

End Vector2More.

Module Vector3More.
Import Num NumOrder NumOrderMore NumSpecial NumSign NumAlgebra Store VectorFacts.
Import Vector2More.

Lemma equals_run (s : store) (v w : ref) (x y z x' y' z' : number) :
  s !! v = Some (OVector3 x y z) -> s !! w = Some (OVector3 x' y' z') ->
  Vector3.equals v w s
  = Return (strict_eq x x' && strict_eq y y' && strict_eq z z') s.
Proof.
  intros H1 H2. unfold Vector3.equals, mbind, store_bind, bind.
  rewrite (fields3_read _ _ _ _ _ H1), (fields3_read _ _ _ _ _ H2). reflexivity.
Qed.

(** X20: Dropping the third coordinate with [toVector2] and putting it back
    with [Vector3.fromVector2] builds a new vector with the coordinates of
    the original, which is left as it was; [equals] finds the two equal
    exactly when no coordinate is NaN. *)
Theorem vector3_through_vector2 (s : store) (v : ref) (x y z : number) :
  s !! v = Some (OVector3 x y z) ->
  exists r s',
    (p ← Vector3.toVector2 v; Vector3.fromVector2 p z) s = Return r s'
    /\ r <> v
    /\ s' !! r = Some (OVector3 x y z)
    /\ s' !! v = Some (OVector3 x y z)
    /\ Vector3.equals v r s'
       = Return (negb (is_nan x || is_nan y || is_nan z)) s'.
Proof.
  intros H. apply lookup_lt_Some in H as L.
  unfold Vector3.toVector2, Vector3.fromVector2, mbind, store_bind, bind.
  rewrite (fields3_read _ _ _ _ _ H). unfold Vector2.new, alloc.
  rewrite (fields2_read _ _ x y) by apply lookup_snoc.
  unfold Vector3.new, alloc. do 2 eexists. split; [reflexivity|].
  assert (Hr : ((s ++ [OVector2 x y]) ++ [OVector3 x y z])
                 !! length (s ++ [OVector2 x y]) = Some (OVector3 x y z))
    by apply lookup_snoc.
  assert (Hv : ((s ++ [OVector2 x y]) ++ [OVector3 x y z]) !! v
               = Some (OVector3 x y z))
    by (do 2 apply lookup_snoc_old; exact H).
  split; [rewrite length_app; simpl; lia|].
  split; [exact Hr|]. split; [exact Hv|].
  rewrite (equals_run _ _ _ _ _ _ _ _ _ Hv Hr), !strict_eq_refl, !negb_orb.
  reflexivity.
Qed.

Lemma vector3_through_vector2_witness :
  exists r s',
    (p ← Vector3.toVector2 0%nat; Vector3.fromVector2 p (of_Z 3))
      [OVector3 (of_Z 1) NaN (of_Z 3)] = Return r s'
    /\ r <> 0%nat
    /\ s' !! r = Some (OVector3 (of_Z 1) NaN (of_Z 3))
    /\ s' !! 0%nat = Some (OVector3 (of_Z 1) NaN (of_Z 3))
    /\ Vector3.equals 0%nat r s'
       = Return (negb (is_nan (of_Z 1) || is_nan NaN || is_nan (of_Z 3))) s'.
Proof.
  apply (vector3_through_vector2 [OVector3 (of_Z 1) NaN (of_Z 3)] 0%nat
           (of_Z 1) NaN (of_Z 3)).
  reflexivity.
Defined.

Lemma cross3_run (s : store) (v w : ref) (x y z x' y' z' : number) :
  s !! v = Some (OVector3 x y z) -> s !! w = Some (OVector3 x' y' z') ->
  Vector3.cross v w s
  = Return (length s)
      (s ++ [OVector3 (sub (mul y z') (mul z y'))
                      (sub (mul z x') (mul x z'))
                      (sub (mul x y') (mul y x'))]).
Proof.
  intros H1 H2. unfold Vector3.cross, mbind, store_bind, bind.
  rewrite (fields3_read _ _ _ _ _ H1), (fields3_read _ _ _ _ _ H2). reflexivity.
Qed.

(** X21: The cross product of a vector with itself has every coordinate 0 or
    NaN; exchanging the two vectors negates every coordinate of the
    product (as [===] does, or both are NaN). *)
Theorem cross3_antisymmetric (s : store) (v w : ref)
    (x y z x' y' z' : number) :
  s !! v = Some (OVector3 x y z) -> s !! w = Some (OVector3 x' y' z') ->
  (exists cx cy cz,
     Vector3.cross v v s = Return (length s) (s ++ [OVector3 cx cy cz])
     /\ pnull cx = true /\ pnull cy = true /\ pnull cz = true)
  /\ (exists ax ay az bx by_ bz,
        Vector3.cross v w s = Return (length s) (s ++ [OVector3 ax ay az])
        /\ Vector3.cross w v s = Return (length s) (s ++ [OVector3 bx by_ bz])
        /\ identical bx (neg ax) /\ identical by_ (neg ay)
        /\ identical bz (neg az)).
Proof.
  intros Hv Hw. split.
  - rewrite (cross3_run _ _ _ _ _ _ _ _ _ Hv Hv). do 3 eexists.
    split; [reflexivity|].
    rewrite (mul_comm z y), (mul_comm x z), (mul_comm y x).
    repeat split; apply sub_self_pnull.
  - rewrite (cross3_run _ _ _ _ _ _ _ _ _ Hv Hw), (cross3_run _ _ _ _ _ _ _ _ _ Hw Hv).
    do 6 eexists. split; [reflexivity|]. split; [reflexivity|].
    rewrite (mul_comm y' z), (mul_comm z' y), (mul_comm z' x), (mul_comm x' z),
            (mul_comm x' y), (mul_comm y' x).
    repeat split; apply sub_swap_identical.
Qed.

Lemma cross3_antisymmetric_witness :
  exists cx cy cz,
    Vector3.cross 0%nat 0%nat [OVector3 (of_Z 1) (of_Z 2) (of_Z 3)]
    = Return 1%nat ([OVector3 (of_Z 1) (of_Z 2) (of_Z 3)] ++ [OVector3 cx cy cz])
    /\ pnull cx = true /\ pnull cy = true /\ pnull cz = true.
Proof.
  apply (cross3_antisymmetric [OVector3 (of_Z 1) (of_Z 2) (of_Z 3)] 0%nat 0%nat
           (of_Z 1) (of_Z 2) (of_Z 3) (of_Z 1) (of_Z 2) (of_Z 3)); reflexivity.
Defined.

End Vector3More.

(** ** More on the scalar utilities *)

Module UtilsMore.
Import Num NumOrder NumRounding NumSpecial NumSign Store Utils UtilsFacts.

(** *** The value of [median] *)

Lemma sorted_lookup_le (sorted : list number) (i j : nat) (a b : number) :
  StronglySorted lenum sorted -> Forall (fun c => ordered c = true) sorted ->
  (i <= j)%nat -> sorted !! i = Some a -> sorted !! j = Some b ->
  le a b = true.
Proof.
  intros S. revert i j. induction S as [|c l S IH Hc]; intros i j Ho Lij Hi Hj.
  { rewrite lookup_nil in Hi. discriminate. }
  inversion Ho as [|? ? Oc Ol]; subst.
  destruct i as [|i], j as [|j]; simpl in Hi, Hj; try lia.
  - injection Hi as <-. injection Hj as <-.
    apply andb_true_iff in Oc as [_ N]. apply le_refl, negb_true_iff, N.
  - injection Hi as <-.
    exact (proj1 (Forall_forall _ _) Hc b (list_elem_of_lookup_2 _ _ _ Hj)).
  - apply (IH i j); [exact Ol | lia | exact Hi | exact Hj].
Qed.

Lemma filter_length_prefix (P : number -> Prop) `{forall a, Decision (P a)}
    (l : list number) (k : nat) :
  (forall (i : nat) a, (i < k)%nat -> l !! i = Some a -> P a) ->
  (k <= length l)%nat -> (k <= length (filter P l))%nat.
Proof.
  revert k. induction l as [|a l IH]; intros k Hk Lk; [simpl in Lk; lia|].
  destruct k as [|k]; [lia|].
  rewrite filter_cons_True by (apply (Hk 0%nat); [lia | reflexivity]).
  simpl. apply le_n_S, IH; [|simpl in Lk; lia].
  intros i b Li Hi. apply (Hk (S i)); [lia | exact Hi].
Qed.

Lemma filter_length_suffix (P : number -> Prop) `{forall a, Decision (P a)}
    (l : list number) (m : nat) :
  (forall (i : nat) a, (m <= i)%nat -> l !! i = Some a -> P a) ->
  (length l - m <= length (filter P l))%nat.
Proof.
  revert m. induction l as [|a l IH]; intros m Hm; [simpl; lia|].
  destruct m as [|m].
  - rewrite Nat.sub_0_r. apply filter_length_prefix; [|lia].
    intros i b _ Hi. apply (Hm i); [lia | exact Hi].
  - simpl length at 1. replace (S (length l) - S m)%nat with (length l - m)%nat by lia.
    etransitivity; [apply (IH m)|].
    + intros i b Li Hi. apply (Hm (S i)); [lia | exact Hi].
    + destruct (decide (P a)) as [Pa|Pa];
        [rewrite filter_cons_True by exact Pa | rewrite filter_cons_False by exact Pa];
        simpl; lia.
Qed.

(** How [median] runs on an array that is not empty. *)
Lemma median_eval (s : store) (values : ref) (elems : list number) :
  s !! values = Some (OArray elems) -> elems <> [] ->
  let sorted := sort (fun a b => sub a b) elems in
  let mid := (length sorted / 2)%nat in
  median values s
  = Return (if negb (length sorted mod 2 =? 0)%nat then index sorted mid
            else div (add (index sorted (mid - 1)) (index sorted mid)) (of_Z 2))
      (<[values := OArray sorted]> s).
Proof.
  intros H N sorted mid. unfold median, mbind, store_bind, bind.
  rewrite (elements_read _ _ _ H).
  destruct elems as [|a elems]; [congruence|]. cbn [length Nat.eqb].
  unfold write at 1.
  rewrite (elements_read _ _ (sort (fun a b => sub a b) (a :: elems)))
    by (apply list_lookup_insert_eq; apply lookup_lt_Some in H; exact H).
  fold sorted. fold mid. destruct (negb _); reflexivity.
Qed.

(** X22: For an array of odd length without NaN, [median] returns an element
    of the array that splits it in the middle: more than half of the
    elements are at most that value, and more than half are at least
    that value.  For an even length it returns half the sum of the two
    middle elements of the array as the call leaves it: sorted in
    ascending order, a permutation of what it held. *)
Theorem median_is_the_middle (s : store) (values : ref) (elems : list number) :
  s !! values = Some (OArray elems) ->
  Forall (fun a => ordered a = true) elems ->
  elems <> [] ->
  exists v s',
    median values s = Return v s'
    /\ ((length elems mod 2 = 1)%nat ->
        v ∈ elems
        /\ (length elems < 2 * length (filter (fun a => le a v = true) elems))%nat
        /\ (length elems < 2 * length (filter (fun a => le v a = true) elems))%nat)
    /\ ((length elems mod 2 = 0)%nat ->
        exists a b sorted,
          s' = <[values := OArray sorted]> s
          /\ Permutation sorted elems
          /\ StronglySorted lenum sorted
          /\ sorted !! (length elems / 2 - 1)%nat = Some a
          /\ sorted !! (length elems / 2)%nat = Some b
          /\ le a b = true
          /\ v = div (add a b) (of_Z 2)).
Proof.
  intros H Hok N. do 2 eexists. rewrite (median_eval _ _ _ H N). cbv zeta.
  split; [reflexivity|].
  set (sorted := sort (fun a b => sub a b) elems).
  assert (P : Permutation sorted elems) by apply sort_Permutation.
  assert (Srt : StronglySorted lenum sorted) by (apply (sort_sorted _ sub_respects), Hok).
  assert (Hok' : Forall (fun a => ordered a = true) sorted) by (rewrite P; exact Hok).
  assert (L : length sorted = length elems) by (rewrite P; reflexivity).
  assert (Lpos : (0 < length elems)%nat) by (destruct elems; [congruence | simpl; lia]).
  rewrite L. split.
  - intros Odd. rewrite Odd. cbn [Nat.eqb negb].
    destruct (lookup_lt_is_Some_2 sorted (length elems / 2)%nat) as [v Hv].
    { rewrite L. apply Nat.div_lt; lia. }
    unfold index. rewrite Hv. cbn [default from_option].
    split; [rewrite <- P; eapply list_elem_of_lookup_2, Hv|].
    pose proof (Nat.div_mod_eq (length elems) 2) as D.
    rewrite <- !P. split.
    + eapply Nat.lt_le_trans;
        [|apply Nat.mul_le_mono_l,
            (filter_length_prefix _ sorted (Datatypes.S (length elems / 2)%nat))].
      * lia.
      * intros i a Li Hi. cbv beta.
        apply (sorted_lookup_le sorted i (length elems / 2)%nat a v); try assumption. lia.
      * rewrite L. lia.
    + eapply Nat.lt_le_trans;
        [|apply Nat.mul_le_mono_l,
            (filter_length_suffix _ sorted (length elems / 2)%nat)].
      * rewrite L. lia.
      * intros i a Li Hi. cbv beta.
        apply (sorted_lookup_le sorted (length elems / 2)%nat i v a); assumption.
  - intros Even. rewrite Even. cbn [Nat.eqb negb].
    pose proof (Nat.div_mod_eq (length elems) 2) as D.
    destruct (lookup_lt_is_Some_2 sorted (length elems / 2 - 1)%nat) as [a Ha];
      [rewrite L; lia|].
    destruct (lookup_lt_is_Some_2 sorted (length elems / 2)%nat) as [b Hb];
      [rewrite L; lia|].
    exists a, b, sorted. unfold index. rewrite Ha, Hb. cbn [default from_option].
    split; [reflexivity|]. split; [exact P|]. split; [exact Srt|].
    split; [reflexivity|]. split; [reflexivity|].
    split; [|reflexivity].
    apply (sorted_lookup_le sorted (length elems / 2 - 1)%nat (length elems / 2)%nat a b);
      try assumption. lia.
Qed.

Lemma median_is_the_middle_witness :
  exists v s',
    median 0%nat [OArray [of_Z 5; of_Z 1; of_Z 3; of_Z 2]] = Return v s'
    /\ ((length [of_Z 5; of_Z 1; of_Z 3; of_Z 2] mod 2 = 1)%nat ->
        v ∈ [of_Z 5; of_Z 1; of_Z 3; of_Z 2]
        /\ (length [of_Z 5; of_Z 1; of_Z 3; of_Z 2]
            < 2 * length (filter (fun a => le a v = true) [of_Z 5; of_Z 1; of_Z 3; of_Z 2]))%nat
        /\ (length [of_Z 5; of_Z 1; of_Z 3; of_Z 2]
            < 2 * length (filter (fun a => le v a = true) [of_Z 5; of_Z 1; of_Z 3; of_Z 2]))%nat)
    /\ ((length [of_Z 5; of_Z 1; of_Z 3; of_Z 2] mod 2 = 0)%nat ->
        exists a b sorted,
          s' = <[0%nat := OArray sorted]> [OArray [of_Z 5; of_Z 1; of_Z 3; of_Z 2]]
          /\ Permutation sorted [of_Z 5; of_Z 1; of_Z 3; of_Z 2]
          /\ StronglySorted lenum sorted
          /\ sorted !! (length [of_Z 5; of_Z 1; of_Z 3; of_Z 2] / 2 - 1)%nat = Some a
          /\ sorted !! (length [of_Z 5; of_Z 1; of_Z 3; of_Z 2] / 2)%nat = Some b
          /\ le a b = true
          /\ v = div (add a b) (of_Z 2)).
Proof.
  apply (median_is_the_middle [OArray [of_Z 5; of_Z 1; of_Z 3; of_Z 2]] 0%nat
           [of_Z 5; of_Z 1; of_Z 3; of_Z 2]).
  - reflexivity.
  - repeat constructor.
  - discriminate.
Defined.

(** *** medianPoint *)

(** The value [median] returns and the array it leaves depend on the
    elements of the array only, not on where the array lives. *)
Lemma median_local (s : store) (values : ref) (elems : list number) :
  s !! values = Some (OArray elems) ->
  exists v elems',
    median 0%nat [OArray elems] = Return v [OArray elems']
    /\ median values s = Return v (<[values := OArray elems']> s)
    /\ Permutation elems' elems.
Proof.
  intros H. destruct elems as [|a elems].
  - exists zero, []. rewrite (median_empty _ _ H), list_insert_id by exact H.
    split; [reflexivity|]. split; reflexivity.
  - eexists. exists (sort (fun a b => sub a b) (a :: elems)).
    rewrite (median_eval s values (a :: elems) H) by discriminate.
    rewrite (median_eval [OArray (a :: elems)] 0%nat (a :: elems) eq_refl)
      by discriminate.
    cbv zeta. split; [reflexivity|]. split; [reflexivity|]. apply sort_Permutation.
Qed.

Section Points.
Context {T : Type} `{Point2 T}.

(** X23: [medianPoint] works on arrays of its own: every object that existed
    before the call is left as it was (the two new arrays are the only
    additions), in contrast to [median], which sorts the array it is
    given.  The result holds the median of the [x] coordinates and the
    median of the [y] coordinates; it is (0, 0) for no points at all. *)
Theorem medianPoint_works_on_copies (s : store) (points : list T) :
  exists p xs ys,
    medianPoint points s = Return p (s ++ [OArray xs; OArray ys])
    /\ Permutation xs (List.map x points)
    /\ Permutation ys (List.map y points)
    /\ median 0%nat [OArray (List.map x points)] = Return (point_x p) [OArray xs]
    /\ median 0%nat [OArray (List.map y points)] = Return (point_y p) [OArray ys]
    /\ (points = [] -> p = Point zero zero).
Proof.
  unfold medianPoint, mbind, store_bind, bind, alloc.
  set (s1 := (s ++ [OArray (List.map x points)]) ++ [OArray (List.map y points)]).
  assert (Hx : s1 !! length s = Some (OArray (List.map x points))).
  { unfold s1. rewrite lookup_app_l by (rewrite length_app; simpl; lia).
    rewrite lookup_app_r by lia. rewrite Nat.sub_diag. reflexivity. }
  destruct (median_local s1 (length s) _ Hx) as (mx & xs & Ex0 & Ex & Px).
  rewrite Ex.
  set (s2 := <[length s := OArray xs]> s1).
  assert (Hy : s2 !! length (s ++ [OArray (List.map x points)])
               = Some (OArray (List.map y points))).
  { unfold s2, s1. rewrite list_lookup_insert_ne by (rewrite length_app; simpl; lia).
    rewrite lookup_app_r by lia. rewrite Nat.sub_diag. reflexivity. }
  destruct (median_local s2 _ _ Hy) as (my & ys & Ey0 & Ey & Py).
  rewrite Ey. exists (Point mx my), xs, ys. split; [|split; [|split; [|split; [|split]]]];
    try assumption.
  - f_equal. unfold s2, s1. rewrite <- app_assoc. simpl.
    rewrite insert_app_r_alt by lia. rewrite Nat.sub_diag. simpl.
    rewrite length_app. simpl.
    rewrite insert_app_r_alt by lia.
    replace (length s + 1 - length s)%nat with 1%nat by lia. reflexivity.
  - intros ->. simpl in Ex0, Ey0. injection Ex0 as <- _. injection Ey0 as <- _.
    reflexivity.
Qed.

End Points.

(** *** divideArrayInHalf *)

(** X24: The two halves, put back together, are the array; the first half
    has the extra element when the length is odd. *)
Theorem divideArrayInHalf_splits {A : Type} (array : list A) :
  fst (divideArrayInHalf array) ++ snd (divideArrayInHalf array) = array
  /\ length (fst (divideArrayInHalf array)) = ((length array + 1) / 2)%nat
  /\ length (snd (divideArrayInHalf array)) = (length array / 2)%nat
  /\ (length (snd (divideArrayInHalf array))
      <= length (fst (divideArrayInHalf array))
      <= length (snd (divideArrayInHalf array)) + 1)%nat.
Proof.
  unfold divideArrayInHalf. cbv zeta. cbn [fst snd].
  assert (Lm : ((length array + 1) / 2 <= length array)%nat).
  { pose proof (Nat.div_mod_eq (length array + 1) 2).
    pose proof (Nat.mod_upper_bound (length array + 1) 2).
    destruct array; simpl in *; [reflexivity | lia]. }
  rewrite JsArrayFacts.slice_prefix, JsArrayFacts.slice_from_suffix by exact Lm.
  rewrite take_drop, length_take, length_drop.
  pose proof (Nat.div_mod_eq (length array + 1) 2).
  pose proof (Nat.mod_upper_bound (length array + 1) 2).
  pose proof (Nat.div_mod_eq (length array) 2).
  pose proof (Nat.mod_upper_bound (length array) 2).
  repeat split; lia.
Qed.

(** *** Clamping a point to a zone *)

(** X25: [getClosestPointInsideZone] returns a new vector whose coordinates
    are the coordinates of the point clamped to the zone widened by the
    buffer, a buffer that is left out counting as 0.  Per axis the result
    is NaN as soon as a bound or the coordinate is NaN; otherwise it is
    the lower bound when the coordinate is below it or the range is
    inverted, the coordinate when that lies within the range, and the
    upper bound when the coordinate is above a range that is not
    inverted. *)
Theorem getClosestPointInsideZone_clamps {T : Type} `{Point2 T}
    (s : store) (zone : Zone) (point : T) (buffer : option number) :
  let b := default zero buffer in
  exists cx cy,
    getClosestPointInsideZone zone point buffer s
    = Return (length s) (s ++ [OVector2 cx cy])
    /\ clamped (sub (zone_x zone) b) (x point)
         (add (add (zone_x zone) (zone_width zone)) b) cx
    /\ clamped (sub (zone_y zone) b) (y point)
         (add (add (zone_y zone) (zone_height zone)) b) cy.
Proof.
  intros b. do 2 eexists. split; [reflexivity|]. split; apply MathFacts.clamp_spec.
Qed.

End UtilsMore.

(** ** Rounding below a bound *)

Module NumBound.
Import Num NumOrder NumRounding.

Lemma digits_unique (m : positive) (k : Z) :
  2 ^ (k - 1) <= Zpos m < 2 ^ k -> Zpos (digits2_pos m) = k.
Proof.
  intros [L U]. pose proof (digits2_pos_bounds m) as [B1 B2].
  set (d := Zpos (digits2_pos m)) in *.
  assert (Hd : 0 < d) by (unfold d; lia).
  destruct (Z.lt_trichotomy d k) as [C|[C|C]]; [exfalso| exact C |exfalso].
  - assert (2 ^ d <= 2 ^ (k - 1)) by (apply Z.pow_le_mono_r; lia). lia.
  - destruct (Z.le_gt_cases 0 k) as [K|K].
    + assert (2 ^ k <= 2 ^ (d - 1)) by (apply Z.pow_le_mono_r; lia). lia.
    + rewrite (Z.pow_neg_r 2 k) in U by lia. lia.
Qed.

Lemma shr_value (mrs : shr_record) (e n : Z) :
  0 <= shr_m mrs ->
  shr_m (fst (shr mrs e n)) = shr_m mrs / 2 ^ Z.max n 0
  /\ snd (shr mrs e n) = e + Z.max n 0.
Proof.
  intros L. unfold shr. destruct n as [|p|p]; simpl fst; simpl snd.
  - simpl. rewrite Z.div_1_r. lia.
  - rewrite iter_shr_1_m by exact L. rewrite Z.max_l by lia. lia.
  - simpl. rewrite Z.div_1_r. lia.
Qed.

Lemma round_nearest_even_bounds (m : Z) (l : location) :
  m <= round_nearest_even m l <= m + 1.
Proof. destruct l as [|[]]; simpl; try lia. destruct (Z.even m); lia. Qed.

Lemma shr_fexp_value (m e : Z) (l : location) :
  0 <= m ->
  shr_m (fst (shr_fexp prec emax m e l))
  = m / 2 ^ Z.max (fexp prec emax (Zdigits2 m + e) - e) 0
  /\ snd (shr_fexp prec emax m e l)
     = e + Z.max (fexp prec emax (Zdigits2 m + e) - e) 0.
Proof.
  intros L. unfold shr_fexp.
  pose proof (shr_value (shr_record_of_loc m l) e
                (fexp prec emax (Zdigits2 m + e) - e)) as V.
  rewrite shr_record_of_loc_m in V. exact (V L).
Qed.

Lemma pow2_split (a b : Z) : 0 <= a -> 0 <= b -> 2 ^ (a + b) = 2 ^ a * 2 ^ b.
Proof. intros. apply Z.pow_add_r; assumption. Qed.

Lemma pow2_pos (a : Z) : 0 <= a -> 0 < 2 ^ a.
Proof. intros. apply Z.pow_pos_nonneg; lia. Qed.

(** The rounding step keeps a mantissa that starts below a bound
    [K * 2^E] at or below it, and its result is canonical. *)
Lemma round_aux_below (s : bool) (m : positive) (e K E : Z) (l : location) :
  e <= fexp prec emax (Zpos (digits2_pos m) + e) ->
  0 < K < 2 ^ 53 -> -1074 <= E <= 971 -> e <= E ->
  Zpos m < K * 2 ^ (E - e) ->
  binary_round_aux prec emax s (Zpos m) e l = S754_zero s
  \/ exists m' e',
      binary_round_aux prec emax s (Zpos m) e l = S754_finite s m' e'
      /\ bounded prec emax m' e' = true
      /\ e' <= E /\ Zpos m' <= K * 2 ^ (E - e').
Proof.
  intros P HK HE LE B. unfold binary_round_aux.
  pose proof (digits2_pos_bounds m) as [D1 D2].
  pose proof (shr_fexp_value (Zpos m) e l ltac:(lia)) as [V1 V2].
  simpl Zdigits2 in V1, V2. rewrite fexp_eq in P, V1, V2.
  set (d := Zpos (digits2_pos m)) in *.
  set (fe := Z.max (d + e - 53) (-1074)) in *.
  rewrite Z.max_l in V1, V2 by lia.
  destruct (shr_fexp prec emax (Zpos m) e l) as [mrs' e']. simpl in V1, V2.
  replace (e + (fe - e)) with fe in V2 by lia. subst e'.
  set (n := fe - e) in *.
  assert (Hn : 0 <= n) by (unfold n; lia).
  pose proof (pow2_pos n Hn) as Pn.
  (* the exponent stays at or below the bound's *)
  assert (A1 : fe <= E).
  { assert (2 ^ (d - 1) < 2 ^ (53 + (E - e))) as T.
    { rewrite pow2_split by lia. pose proof (pow2_pos (E - e) ltac:(lia)). nia. }
    apply Z.pow_lt_mono_r_iff in T; unfold fe; lia. }
  set (K' := K * 2 ^ (E - fe)).
  assert (EK : K * 2 ^ (E - e) = 2 ^ n * K').
  { unfold K'. replace (E - e) with (n + (E - fe)) by (unfold n; lia).
    rewrite pow2_split by lia. ring. }
  assert (A2 : shr_m mrs' < K').
  { rewrite V1. apply Z.div_lt_upper_bound; [exact Pn|]. rewrite <- EK. exact B. }
  pose proof (round_nearest_even_bounds (shr_m mrs') (loc_of_shr_record mrs')) as R.
  assert (M0 : 0 <= shr_m mrs') by (rewrite V1; apply Z.div_pos; lia).
  set (m1 := shr_m mrs') in *.
  destruct (round_nearest_even m1 (loc_of_shr_record mrs')) as [|m2|m2] eqn:R2;
    [| |lia].
  - (* everything was shifted out *)
    left.
    pose proof (shr_fexp_value 0 fe loc_Exact ltac:(lia)) as [W1 _].
    destruct (shr_fexp prec emax 0 fe loc_Exact) as [mrs'' e'']. simpl in W1.
    rewrite W1, Z.div_0_l by (apply Z.pow_nonzero; lia). reflexivity.
  - right.
    pose proof (digits2_pos_bounds m2) as [G1 G2].
    pose proof (shr_fexp_value (Zpos m2) fe loc_Exact ltac:(lia)) as [W1 W2].
    simpl Zdigits2 in W1, W2. rewrite fexp_eq in W1, W2.
    set (d2 := Zpos (digits2_pos m2)) in *.
    destruct (shr_fexp prec emax (Zpos m2) fe loc_Exact) as [mrs'' e''].
    simpl in W1, W2.
    destruct (Z.le_gt_cases (-1074) (d + e - 53)) as [N|N].
    + (* normal range: the shifted mantissa has 53 digits *)
      assert (Fe : fe = d + e - 53) by (unfold fe; lia).
      assert (Dn : d - 1 = 52 + n) by (unfold n; lia).
      assert (L1 : 2 ^ 52 <= m1).
      { rewrite V1. apply Z.div_le_lower_bound; [exact Pn|].
        rewrite Dn, pow2_split in D1 by lia. lia. }
      assert (U1 : m1 < 2 ^ 53).
      { rewrite V1. apply Z.div_lt_upper_bound; [exact Pn|].
        replace d with (n + 53) in D2 by lia.
        rewrite pow2_split in D2 by lia. lia. }
      destruct (Z.lt_ge_cases (Zpos m2) (2 ^ 53)) as [C|C].
      * assert (D53 : d2 = 53) by (apply digits_unique; simpl; lia).
        rewrite D53 in W1, W2.
        replace (Z.max (Z.max (53 + fe - 53) (-1074) - fe) 0) with 0 in W1, W2 by lia.
        rewrite Z.div_1_r in W1. rewrite W1.
        replace e'' with fe by lia.
        replace (fe <=? emax - prec) with true by (symmetry; apply Z.leb_le; unfold emax, prec; lia).
        exists m2, fe. split; [reflexivity|]. split; [|split; [exact A1|fold K'; lia]].
        unfold bounded, canonical_mantissa. rewrite fexp_eq. fold d2. rewrite D53.
        apply andb_true_iff. split; [apply Z.eqb_eq; lia|apply Z.leb_le; unfold emax, prec; lia].
      * assert (M2 : Zpos m2 = 2 ^ 53) by lia.
        assert (D54 : d2 = 54) by (apply digits_unique; rewrite M2; simpl; lia).
        rewrite D54 in W1, W2.
        replace (Z.max (Z.max (54 + fe - 53) (-1074) - fe) 0) with 1 in W1, W2 by lia.
        rewrite M2 in W1. change (2 ^ 53 / 2 ^ 1) with (2 ^ 52) in W1.
        assert (A3 : fe < E).
        { destruct (Z.eq_dec fe E) as [Q|Q]; [|lia]. exfalso.
          unfold K' in A2. rewrite Q, Z.sub_diag in A2. simpl in A2. lia. }
        assert (A4 : 2 ^ 52 <= K * 2 ^ (E - (fe + 1))).
        { assert (K' = 2 * (K * 2 ^ (E - (fe + 1)))) as T.
          { unfold K'. replace (E - fe) with (1 + (E - (fe + 1))) by lia.
            rewrite pow2_split by lia. change (2 ^ 1) with 2. ring. }
          change (2 ^ 53) with (2 * 2 ^ 52) in *. lia. }
        rewrite W1. change (2 ^ 52) with (Zpos 4503599627370496).
        replace (e'' <=? emax - prec) with true by (symmetry; apply Z.leb_le; unfold emax, prec; lia).
        exists 4503599627370496%positive, e''. split; [reflexivity|].
        split; [|split; [lia|subst e''; exact A4]].
        unfold bounded, canonical_mantissa. rewrite fexp_eq.
        change (Zpos (digits2_pos 4503599627370496)) with 53.
        apply andb_true_iff. split; [apply Z.eqb_eq; lia|apply Z.leb_le; unfold emax, prec; lia].
    + (* subnormal range: no second shift *)
      assert (Fe : fe = -1074) by (unfold fe; lia).
      assert (U1 : m1 < 2 ^ 52).
      { rewrite V1. apply Z.div_lt_upper_bound; [exact Pn|].
        apply Z.lt_le_trans with (2 ^ d); [exact D2|].
        rewrite <- pow2_split by lia. apply Z.pow_le_mono_r; unfold n; lia. }
      assert (D53 : d2 <= 53).
      { assert (2 ^ (d2 - 1) < 2 ^ 53) as T by lia.
        apply Z.pow_lt_mono_r_iff in T; lia. }
      replace (Z.max (Z.max (d2 + fe - 53) (-1074) - fe) 0) with 0 in W1, W2 by lia.
      rewrite Z.div_1_r in W1. rewrite W1.
      replace e'' with fe by lia.
      replace (fe <=? emax - prec) with true by (symmetry; apply Z.leb_le; unfold emax, prec; lia).
      exists m2, fe. split; [reflexivity|]. split; [|split; [exact A1|fold K'; lia]].
      unfold bounded, canonical_mantissa. rewrite fexp_eq. fold d2.
      apply andb_true_iff. split; [apply Z.eqb_eq; lia|apply Z.leb_le; unfold emax, prec; lia].
Qed.

(** Rounding to nearest never carries a value across a bound that is
    itself a multiple of the rounding step. *)
Lemma round_below (s : bool) (m : positive) (e K E : Z) :
  0 < K < 2 ^ 53 -> -1074 <= E <= 971 -> e <= E ->
  Zpos m < K * 2 ^ (E - e) ->
  binary_round prec emax s m e = S754_zero s
  \/ exists m' e',
      binary_round prec emax s m e = S754_finite s m' e'
      /\ bounded prec emax m' e' = true
      /\ e' <= E /\ Zpos m' <= K * 2 ^ (E - e').
Proof.
  intros HK HE LE B. unfold binary_round.
  pose proof (digits2_pos_bounds m) as [D1 D2].
  set (d := Zpos (digits2_pos m)) in *.
  destruct (Z.le_gt_cases (fexp prec emax (d + e)) e) as [C|C].
  - destruct (shl_align_value m e (fexp prec emax (d + e)) C) as [V1 V2].
    destruct (shl_align m e (fexp prec emax (d + e))) as [mz ez].
    simpl in V1, V2. subst ez. rewrite fexp_eq in *.
    set (fe := Z.max (d + e - 53) (-1074)) in *.
    pose proof (pow2_pos (e - fe) ltac:(lia)) as Pk.
    assert (Dz : Zpos (digits2_pos mz) = d + (e - fe)).
    { apply digits_unique. rewrite V1. split.
      - replace (d + (e - fe) - 1) with (d - 1 + (e - fe)) by lia.
        rewrite pow2_split by lia. nia.
      - rewrite pow2_split by lia. nia. }
    apply round_aux_below; try assumption; try lia.
    + rewrite fexp_eq, Dz. unfold fe. lia.
    + rewrite V1. replace (E - fe) with (E - e + (e - fe)) by lia.
      rewrite pow2_split by lia. nia.
  - replace (shl_align m e (fexp prec emax (d + e))) with (m, e).
    + apply round_aux_below; try assumption. fold d. lia.
    + unfold shl_align. destruct (fexp prec emax (d + e) - e) eqn:Q; try reflexivity. lia.
Qed.

Lemma normalize_below (z e K E : Z) :
  0 < K < 2 ^ 53 -> -1074 <= E <= 971 -> e <= E ->
  Z.abs z < K * 2 ^ (E - e) ->
  (exists s, binary_normalize prec emax z e false = S754_zero s)
  \/ exists m' e',
      binary_normalize prec emax z e false = S754_finite (z <? 0) m' e'
      /\ bounded prec emax m' e' = true
      /\ e' <= E /\ Zpos m' <= K * 2 ^ (E - e').
Proof.
  intros HK HE LE B. destruct z as [|m|m]; simpl binary_normalize.
  - left. eexists. reflexivity.
  - destruct (round_below false m e K E HK HE LE B) as [Z0|R].
    + left. eexists. exact Z0.
    + right. exact R.
  - destruct (round_below true m e K E HK HE LE B) as [Z0|R].
    + left. eexists. exact Z0.
    + right. exact R.
Qed.

Lemma three_sixty : of_Z 360 = S754_finite false 6333186975989760 (-44).
Proof. vm_compute. reflexivity. Qed.

Lemma three_sixty_mantissa (e : Z) :
  e <= -44 -> 6333186975989760 * 2 ^ (-44 - e) = 45 * 2 ^ (3 - e).
Proof.
  intros L. replace (3 - e) with (47 + (-44 - e)) by lia.
  rewrite pow2_split by lia. change (2 ^ 47) with 140737488355328. lia.
Qed.

(** The remainder of a division by 360 is NaN, a zero, or a canonical
    value of magnitude at most 360. *)
Lemma rem_360_below (x : number) :
  is_nan (rem x (of_Z 360)) = true
  \/ (exists s, rem x (of_Z 360) = S754_zero s)
  \/ exists s m e,
      rem x (of_Z 360) = S754_finite s m e
      /\ bounded prec emax m e = true
      /\ e <= 3 /\ Zpos m <= 45 * 2 ^ (3 - e).
Proof.
  rewrite three_sixty. destruct x as [s|s| |s m e]; simpl rem.
  - right. left. eexists. reflexivity.
  - left. reflexivity.
  - left. reflexivity.
  - set (c := Z.min e (-44)).
    rewrite !Z.shiftl_mul_pow2 by lia.
    rewrite (three_sixty_mantissa c) by lia.
    pose proof (pow2_pos (3 - c) ltac:(lia)) as Pc.
    pose proof (Z.mod_pos_bound (Zpos m * 2 ^ (e - c)) (45 * 2 ^ (3 - c)) ltac:(lia)) as R.
    set (r := (Zpos m * 2 ^ (e - c)) mod (45 * 2 ^ (3 - c))) in *.
    destruct (r =? 0) eqn:Q.
    + right. left. eexists. reflexivity.
    + apply Z.eqb_neq in Q. right.
      destruct (normalize_below (if s then - r else r) c 45 3) as [Z0|(m' & e' & N & F)];
        try lia.
      * destruct s; lia.
      * left. exact Z0.
      * right. exists ((if s then - r else r) <? 0), m', e'. split; [exact N|exact F].
Qed.

(** Adding 360 to a negative canonical value of magnitude at most 360
    gives a zero or a positive canonical value of at most 360. *)
Lemma add_360_below (m : positive) (e : Z) :
  bounded prec emax m e = true -> e <= 3 -> Zpos m <= 45 * 2 ^ (3 - e) ->
  (exists s, add (S754_finite true m e) (of_Z 360) = S754_zero s)
  \/ exists m' e',
      add (S754_finite true m e) (of_Z 360) = S754_finite false m' e'
      /\ bounded prec emax m' e' = true
      /\ e' <= 3 /\ Zpos m' <= 45 * 2 ^ (3 - e').
Proof.
  intros Bd LE B. rewrite three_sixty. unfold add. cbn [SFadd cond_Zopp].
  set (c := Z.min e (-44)).
  destruct (shl_align_value m e c ltac:(lia)) as [-> _].
  destruct (shl_align_value 6333186975989760 (-44) c ltac:(lia)) as [-> _].
  rewrite (three_sixty_mantissa c) by lia.
  pose proof (pow2_pos (e - c) ltac:(lia)) as Pk.
  assert (X : Zpos m * 2 ^ (e - c) <= 45 * 2 ^ (3 - c)).
  { replace (3 - c) with (3 - e + (e - c)) by lia.
    rewrite pow2_split by lia. nia. }
  set (z := - (Zpos m * 2 ^ (e - c)) + 45 * 2 ^ (3 - c)).
  assert (Hz : 0 <= z < 45 * 2 ^ (3 - c)) by (unfold z; nia).
  destruct (normalize_below z c 45 3) as [Z0|(m' & e' & N & F)]; try lia.
  - left. exact Z0.
  - right. exists m', e'. replace (z <? 0) with false in N by (symmetry; apply Z.ltb_ge; lia).
    split; [exact N|exact F].
Qed.

(** [Math.round] of a positive canonical value of at most 360 is one of
    the integers 0 to 360. *)
Lemma round_360_below (m : positive) (e : Z) :
  bounded prec emax m e = true -> e <= 3 -> Zpos m <= 45 * 2 ^ (3 - e) ->
  exists n, 0 <= n <= 360 /\ round (S754_finite false m e) = of_Z n.
Proof.
  intros Bd LE B. apply bounded_mantissa in Bd as [_ N].
  assert (Neg : e < 0).
  { destruct (Z.lt_ge_cases e 0) as [C|C]; [exact C|exfalso].
    assert (2 ^ (3 - e) <= 2 ^ 3) by (apply Z.pow_le_mono_r; lia).
    change (2 ^ 3) with 8 in *.
    assert (2 ^ 52 <= Zpos m) by (apply N; lia).
    change (2 ^ 52) with 4503599627370496 in *. lia. }
  unfold round. replace (0 <=? e) with false by (symmetry; apply Z.leb_gt; exact Neg).
  rewrite Z.shiftl_mul_pow2, Z.shiftr_div_pow2, Z.mul_1_l by lia.
  pose proof (pow2_pos (- e) ltac:(lia)) as Pe.
  assert (P1 : 2 ^ (1 - e) = 2 * 2 ^ (- e)).
  { replace (1 - e) with (1 + - e) by lia. rewrite pow2_split by lia. reflexivity. }
  assert (P3 : 2 ^ (3 - e) = 8 * 2 ^ (- e)).
  { replace (3 - e) with (3 + - e) by lia. rewrite pow2_split by lia. reflexivity. }
  set (n := (2 * Zpos m + 2 ^ (- e)) / 2 ^ (1 - e)).
  assert (Hn : 0 <= n <= 360).
  { split.
    - apply Z.div_pos; lia.
    - apply Z.lt_succ_r. apply Z.div_lt_upper_bound; lia. }
  exists n. split; [exact Hn|].
  destruct (n =? 0) eqn:Q; [|reflexivity].
  apply Z.eqb_eq in Q. rewrite Q. reflexivity.
Qed.

Lemma whole_degrees_ordered (n : Z) :
  0 <= n <= 360 -> le zero (of_Z n) = true /\ le (of_Z n) (of_Z 360) = true.
Proof.
  intros H.
  assert (forallb (fun k => le zero (of_Z (Z.of_nat k))
                            && le (of_Z (Z.of_nat k)) (of_Z 360))
                  (seq 0 361) = true) as A by (vm_compute; reflexivity).
  rewrite forallb_forall in A.
  specialize (A (Z.to_nat n)). rewrite Z2Nat.id in A by lia.
  apply andb_true_iff, A, in_seq. lia.
Qed.

End NumBound.

(** ** Angles *)

Module AngleFacts.
Import Num NumOrder NumRounding NumBound Utils.

(** X26: Whatever the angle, the normalised degrees are NaN, [-0], or one of
    the whole numbers from 0 to 360; so a result that is a number always
    lies between 0 and 360, both ends included. *)
Theorem radiansToDegreesNormalized_whole_degrees (radians : number) :
  let degrees := radiansToDegreesNormalized radians in
  (is_nan degrees = true \/ degrees = neg_zero
   \/ exists n, 0 <= n <= 360 /\ degrees = of_Z n)
  /\ (is_nan degrees = false ->
      le zero degrees = true /\ le degrees (of_Z 360) = true).
Proof.
  cbv zeta.
  assert (S : is_nan (radiansToDegreesNormalized radians) = true
              \/ radiansToDegreesNormalized radians = neg_zero
              \/ exists n, 0 <= n <= 360
                           /\ radiansToDegreesNormalized radians = of_Z n).
  { unfold radiansToDegreesNormalized.
    set (d0 := mul radians (div (of_Z 180) PI)).
    destruct (rem_360_below d0) as [N|[[s Z0]|(s & m & e & F & Bd & LE & B)]].
    - destruct (rem d0 (of_Z 360)); try discriminate. left. reflexivity.
    - rewrite Z0. destruct s; simpl.
      + right. left. reflexivity.
      + right. right. exists 0. split; [lia|reflexivity].
    - rewrite F. destruct s.
      + change (lt (S754_finite true m e) zero) with true. cbv iota.
        destruct (add_360_below m e Bd LE B) as [[s Z0]|(m' & e' & A & Bd' & LE' & B')].
        * rewrite Z0. destruct s; simpl.
          -- right. left. reflexivity.
          -- right. right. exists 0. split; [lia|reflexivity].
        * rewrite A. right. right. exact (round_360_below m' e' Bd' LE' B').
      + change (lt (S754_finite false m e) zero) with false. cbv iota.
        right. right. exact (round_360_below m e Bd LE B). }
  split; [exact S|].
  intros NN. destruct S as [N|[Z0|(n & Hn & E)]].
  - rewrite N in NN. discriminate.
  - rewrite Z0. split; reflexivity.
  - rewrite E. exact (whole_degrees_ordered n Hn).
Qed.

End AngleFacts.

(** ** More on [Vector2Set] *)

Module Vector2SetMore.
Import Num Store Vector2Set VectorFacts Vector2SetFacts.

Lemma map_has_set (m : jsmap) (k : string) (v : ref) :
  map_has (map_set m k v) k = true.
Proof.
  unfold map_has. induction m as [|[k' v'] m IH]; simpl.
  - rewrite String.eqb_refl. reflexivity.
  - destruct (String.eqb_spec k' k) as [->|N]; simpl.
    + rewrite String.eqb_refl. reflexivity.
    + rewrite IH. apply orb_true_r.
Qed.

Lemma map_has_set_other (m : jsmap) (k k' : string) (v : ref) :
  k' <> k -> map_has (map_set m k v) k' = map_has m k'.
Proof.
  intros N. unfold map_has. induction m as [|[k0 v0] m IH]; simpl.
  - destruct (String.eqb_spec k k'); [congruence | reflexivity].
  - destruct (String.eqb_spec k0 k) as [->|N0]; simpl; [reflexivity|].
    rewrite IH. reflexivity.
Qed.

Section Keyed.
Variable numberToString : number -> string.

Lemma has_run (s : store) (this : set) (vector : ref) (x y : number) :
  s !! vector = Some (OVector2 x y) ->
  has numberToString this vector s
  = Return (map_has (map this) (Vector2.key numberToString x y)) s.
Proof.
  intros H. unfold has, mbind, store_bind, bind.
  rewrite (toString_read _ _ _ _ _ H). reflexivity.
Qed.

(** X27: Membership goes by coordinates, not by object: once a vector is
    added, [has] answers true for it and for every other vector object
    with the same coordinates; what [has] answers for vectors with another
    key is as before; an empty or cleared set has no member. *)
Theorem has_goes_by_coordinates (s : store) (this : set) (v w : ref)
    (x y : number) :
  s !! v = Some (OVector2 x y) -> s !! w = Some (OVector2 x y) ->
  exists set',
    add numberToString this v s = Return set' s
    /\ has numberToString set' v s = Return true s
    /\ has numberToString set' w s = Return true s
    /\ (forall u ux uy,
          s !! u = Some (OVector2 ux uy) ->
          Vector2.key numberToString ux uy <> Vector2.key numberToString x y ->
          has numberToString set' u s = has numberToString this u s)
    /\ has numberToString empty v s = Return false s
    /\ has numberToString (clear set') v s = Return false s
    /\ toArray (clear set') = [].
Proof.
  intros Hv Hw. rewrite (set_add_run _ _ _ _ _ _ Hv). eexists.
  split; [reflexivity|].
  rewrite (has_run _ _ _ _ _ Hv), (has_run _ _ _ _ _ Hw). cbn [map].
  rewrite map_has_set. split; [reflexivity|]. split; [reflexivity|]. split.
  - intros u ux uy Hu N. rewrite !(has_run _ _ _ _ _ Hu). cbn [map].
    rewrite map_has_set_other by exact N. reflexivity.
  - rewrite !(has_run _ _ _ _ _ Hv). repeat split.
Qed.

(** The loop of [filter], started on a new set that already holds
    [acc]: the vectors passing the test are appended in order. *)
Lemma filterLoop_run (s : store) (filterFunction : ref -> bool)
    (m acc : jsmap) :
  NoDup (List.map fst (acc ++ m)) ->
  Forall (fun kv => exists x y, s !! snd kv = Some (OVector2 x y)
                                /\ fst kv = Vector2.key numberToString x y) m ->
  filterLoop numberToString filterFunction (map_values m) (Set_ acc) s
  = Return (Set_ (acc ++ List.filter (fun kv => filterFunction (snd kv)) m)) s.
Proof.
  revert acc. induction m as [|[k v] m IH]; intros acc ND F.
  - simpl. rewrite app_nil_r. reflexivity.
  - inversion F as [|? ? (x & y & Hv & Hk) F']; subst. simpl in Hv, Hk.
    assert (ND' : NoDup (List.map fst ((acc ++ [(k, v)]) ++ m)))
      by (rewrite <- app_assoc; exact ND).
    change (map_values ((k, v) :: m)) with (v :: map_values m).
    cbn [filterLoop List.filter snd].
    destruct (filterFunction v) eqn:Fv.
    + unfold mbind, store_bind, bind.
      rewrite (set_add_run _ _ _ _ _ _ Hv). cbn [map]. rewrite <- Hk.
      rewrite map_set_absent.
      * rewrite (IH (acc ++ [(k, v)]) ND' F'). rewrite <- app_assoc. reflexivity.
      * rewrite map_app in ND. apply NoDup_app in ND as (_ & D & _).
        intros Hin. apply (D k Hin). simpl. apply list_elem_of_here.
    + apply IH; [|exact F'].
      rewrite map_app in ND |- *. simpl in ND.
      apply NoDup_app in ND as (N1 & D & N2). apply NoDup_cons in N2 as [_ N2].
      apply NoDup_app. split; [exact N1|]. split; [|exact N2].
      intros k' H1 H2. apply (D k' H1). apply list_elem_of_further, H2.
Qed.

Lemma filter_values (filterFunction : ref -> bool) (m : jsmap) :
  map_values (List.filter (fun kv => filterFunction (snd kv)) m)
  = List.filter filterFunction (map_values m).
Proof.
  unfold map_values. induction m as [|[k v] m IH]; simpl; [reflexivity|].
  destruct (filterFunction v); simpl; rewrite IH; reflexivity.
Qed.

(** X28: [filter] returns a new set holding exactly the vectors of the set
    that pass the test, in the order the set holds them; the new set is
    again free of duplicates. *)
Theorem filter_keeps_the_matching (s : store) (this : set)
    (filterFunction : ref -> bool) :
  keyed numberToString s (map this) ->
  exists set',
    filter numberToString this filterFunction s = Return set' s
    /\ toArray set' = List.filter filterFunction (toArray this)
    /\ keyed numberToString s (map set')
    /\ (forall r, r ∈ toArray set' <-> r ∈ toArray this /\ filterFunction r = true).
Proof.
  intros [ND F]. unfold filter, empty.
  rewrite (filterLoop_run s filterFunction (map this) [] ND F). simpl.
  eexists. split; [reflexivity|]. cbn [toArray values map].
  split; [apply filter_values|]. split; [split|].
  - clear F. induction (map this) as [|[k v] m IH]; simpl; [constructor|].
    simpl in ND. apply NoDup_cons in ND as [Nk ND].
    destruct (filterFunction v); simpl; [|apply IH, ND].
    apply NoDup_cons. split; [|apply IH, ND].
    intros Hin. apply Nk. apply list_elem_of_In, in_map_iff in Hin as (kv & E & Hin).
    apply filter_In in Hin as [Hin _].
    apply list_elem_of_In, in_map_iff. eauto.
  - apply Forall_forall. intros kv Hkv.
    apply list_elem_of_In, filter_In in Hkv as [Hkv _].
    exact (proj1 (Forall_forall _ _) F kv (proj2 (list_elem_of_In _ _) Hkv)).
  - intros r. unfold toArray, values. cbn [map].
    rewrite filter_values, !list_elem_of_In, filter_In. reflexivity.
Qed.

End Keyed.

Lemma has_goes_by_coordinates_witness :
  exists set',
    add Vector2.integerToString empty 0%nat
      [OVector2 (of_Z 1) (of_Z 2); OVector2 (of_Z 1) (of_Z 2)]
    = Return set' [OVector2 (of_Z 1) (of_Z 2); OVector2 (of_Z 1) (of_Z 2)]
    /\ has Vector2.integerToString set' 0%nat
         [OVector2 (of_Z 1) (of_Z 2); OVector2 (of_Z 1) (of_Z 2)]
       = Return true [OVector2 (of_Z 1) (of_Z 2); OVector2 (of_Z 1) (of_Z 2)]
    /\ has Vector2.integerToString set' 1%nat
         [OVector2 (of_Z 1) (of_Z 2); OVector2 (of_Z 1) (of_Z 2)]
       = Return true [OVector2 (of_Z 1) (of_Z 2); OVector2 (of_Z 1) (of_Z 2)].
Proof.
  destruct (has_goes_by_coordinates Vector2.integerToString
              [OVector2 (of_Z 1) (of_Z 2); OVector2 (of_Z 1) (of_Z 2)]
              empty 0%nat 1%nat (of_Z 1) (of_Z 2) eq_refl eq_refl)
    as (set' & A & B & C & _).
  exists set'. split; [exact A|]. split; [exact B | exact C].
Defined.

Lemma filter_keeps_the_matching_witness :
  exists set',
    filter Vector2.integerToString
      (Set_ [("1,2"%string, 0%nat); ("3,4"%string, 1%nat)])
      (fun r => (r =? 1)%nat)
      [OVector2 (of_Z 1) (of_Z 2); OVector2 (of_Z 3) (of_Z 4)]
    = Return set' [OVector2 (of_Z 1) (of_Z 2); OVector2 (of_Z 3) (of_Z 4)]
    /\ toArray set' = List.filter (fun r => (r =? 1)%nat) [0; 1]%nat.
Proof.
  destruct (filter_keeps_the_matching Vector2.integerToString
              [OVector2 (of_Z 1) (of_Z 2); OVector2 (of_Z 3) (of_Z 4)]
              (Set_ [("1,2"%string, 0%nat); ("3,4"%string, 1%nat)])
              (fun r => (r =? 1)%nat))
    as (set' & A & B & _).
  - split.
    + simpl. apply NoDup_cons. split; [|apply NoDup_singleton].
      intros E%list_elem_of_singleton. discriminate E.
    + repeat constructor; simpl; do 2 eexists; split; reflexivity.
  - exists set'. split; [exact A | exact B].
Defined.

End Vector2SetMore.

(** ** EventEmitter *)

Module EventEmitterFacts.
Import EventEmitter.

Section Emitter.
Context {Event : Type} `{EqDecision Event} {Arg World : Type}.
Variable call : listener -> Arg -> World -> World.
Variable new_array : World -> Arg * World.
Implicit Types (this : listeners (Event := Event)) (event : Event) (l : listener).

Lemma map_set_same this event ls : map_set this event ls event = Some ls.
Proof. unfold map_set. destruct (decide (event = event)); congruence. Qed.

Lemma map_set_other this event ls event' :
  event' <> event -> map_set this event ls event' = this event'.
Proof. unfold map_set. intros N. destruct (decide (event' = event)); congruence. Qed.

Lemma on_same this event l :
  on this event l event = Some (default [] (this event) ++ [l]).
Proof.
  unfold on. destruct (this event) as [ls|] eqn:E.
  - rewrite E. apply map_set_same.
  - rewrite map_set_same. apply map_set_same.
Qed.

Lemma on_other this event l event' :
  event' <> event -> on this event l event' = this event'.
Proof.
  intros N. unfold on. destruct (this event) as [ls|] eqn:E.
  - rewrite E. apply map_set_other, N.
  - rewrite map_set_same, !map_set_other by exact N. reflexivity.
Qed.

Lemma on_all_same this event (ls : list listener) :
  fold_left (fun em l => on em event l) ls this event
  = match ls with
    | [] => this event
    | _ => Some (default [] (this event) ++ ls)
    end.
Proof.
  revert this. induction ls as [|l ls IH]; intros this; [reflexivity|].
  cbn [fold_left]. rewrite IH. destruct ls as [|l' ls].
  - apply on_same.
  - rewrite on_same. simpl. rewrite <- app_assoc. reflexivity.
Qed.

Lemma on_all_other this event (ls : list listener) event' :
  event' <> event ->
  fold_left (fun em l => on em event l) ls this event' = this event'.
Proof.
  intros N. revert this. induction ls as [|l ls IH]; intros this; [reflexivity|].
  cbn [fold_left]. rewrite IH. apply on_other, N.
Qed.

Lemma emit_given this event (a : Arg) (w : World) :
  emit call new_array this event (Some a) w
  = fold_left (fun w l => call l a w) (default [] (this event)) w.
Proof. unfold emit, argument. destruct (this event); reflexivity. Qed.

Lemma emit_argument this event (arg : option Arg) (w : World) :
  emit call new_array this event arg w
  = emit call new_array this event (Some (argument new_array arg w).1)
      (argument new_array arg w).2.
Proof.
  unfold emit. destruct arg as [a|]; [reflexivity|]. cbn [argument].
  destruct (new_array w) as [a w']. reflexivity.
Qed.

(** X29: [emit] calls the listeners of the event in the order in which they
    were registered, each with the argument of the call: the argument
    given, or, when it is left out or [undefined], one new empty array,
    created once as the call begins and passed to every listener.
    Registering one more listener for an event adds one call after the
    calls made before, and leaves every other event as it was; after
    registering a sequence of listeners on a new emitter, emitting the
    event calls exactly them, in order, and emitting any other event
    calls no listener. *)
Theorem emit_calls_in_registration_order this event l (ls : list listener)
    (arg : option Arg) (w : World) :
  let a := (argument new_array arg w).1 in
  let w0 := (argument new_array arg w).2 in
  (forall given, argument new_array (Some given) w = (given, w))
  /\ argument new_array None w = new_array w
  /\ emit call new_array this event arg w
     = fold_left (fun w l => call l a w) (default [] (this event)) w0
  /\ emit call new_array (on this event l) event arg w
     = call l a (emit call new_array this event arg w)
  /\ (forall event', event' <> event ->
        emit call new_array (on this event l) event' arg w
        = emit call new_array this event' arg w)
  /\ emit call new_array (fold_left (fun em l => on em event l) ls create)
       event arg w
     = fold_left (fun w l => call l a w) ls w0
  /\ (forall event', event' <> event ->
        emit call new_array (fold_left (fun em l => on em event l) ls create)
          event' arg w
        = w0).
Proof.
  intros a w0. split; [reflexivity|]. split; [reflexivity|].
  rewrite !(emit_argument _ _ arg). fold a w0. rewrite !emit_given.
  split; [reflexivity|]. split; [|split; [|split]].
  - rewrite on_same. simpl. rewrite fold_left_app. reflexivity.
  - intros event' N. rewrite !(emit_argument _ _ arg). fold a w0.
    rewrite !emit_given, on_other by exact N. reflexivity.
  - rewrite on_all_same. destruct ls; reflexivity.
  - intros event' N. rewrite (emit_argument _ _ arg). fold a w0.
    rewrite emit_given, on_all_other by exact N. reflexivity.
Qed.

Lemma filter_absent (l : nat) (ls : list nat) :
  l ∉ ls -> List.filter (fun l' => negb (l' =? l)%nat) ls = ls.
Proof.
  induction ls as [|l' ls IH]; intros N; [reflexivity|]. simpl.
  destruct (Nat.eqb_spec l' l) as [->|Nl]; simpl.
  - exfalso. apply N, list_elem_of_here.
  - rewrite IH; [reflexivity|]. intros Hin. apply N, list_elem_of_further, Hin.
Qed.

Lemma off_emit this event l event' (arg : option Arg) (w : World) :
  (forall ls, this event = Some ls -> l ∉ ls) ->
  emit call new_array (off this event l) event' arg w
  = emit call new_array this event' arg w.
Proof.
  intros N. rewrite !(emit_argument _ _ arg), !emit_given. f_equal.
  unfold off. destruct (this event) as [ls|] eqn:E; [|reflexivity].
  pose proof (filter_absent l ls (N ls eq_refl)) as F.
  unfold listener in *. rewrite F.
  destruct (decide (event' = event)) as [->|Ne].
  - rewrite map_set_same, E. reflexivity.
  - rewrite map_set_other by exact Ne. reflexivity.
Qed.

(** X30: [off] takes every registration of the listener for the event away,
    however often it was registered, and keeps the other listeners of the
    event in their order; other events are not affected; for a listener
    that is not registered for the event, and for an event without
    listeners, nothing changes; and [off] undoes an [on] of a listener not
    registered before.  This holds for every argument of [emit], given or
    left out. *)
Theorem off_removes_every_registration this event l (arg : option Arg)
    (w : World) :
  (forall ls, this event = Some ls ->
     off this event l event
     = Some (List.filter (fun l' => negb (l' =? l)%nat) ls)
     /\ (l ∉ List.filter (fun l' => negb (l' =? l)%nat) ls)
     /\ emit call new_array (off this event l) event arg w
        = fold_left (fun w' l' => call l' (argument new_array arg w).1 w')
            (List.filter (fun l' => negb (l' =? l)%nat) ls)
            (argument new_array arg w).2)
  /\ (this event = None -> off this event l = this)
  /\ (forall event', event' <> event ->
        off this event l event' = this event')
  /\ ((forall ls, this event = Some ls -> l ∉ ls) ->
      forall event',
        emit call new_array (off this event l) event' arg w
        = emit call new_array this event' arg w)
  /\ ((forall ls, this event = Some ls -> l ∉ ls) ->
      forall event',
        emit call new_array (off (on this event l) event l) event' arg w
        = emit call new_array this event' arg w).
Proof.
  split; [|split; [|split; [|split]]].
  - intros ls E. rewrite (emit_argument _ _ arg), emit_given.
    unfold off. rewrite E, map_set_same.
    split; [reflexivity|]. split; [|reflexivity].
    intros Hin. apply list_elem_of_In, filter_In in Hin as [_ Hin].
    rewrite Nat.eqb_refl in Hin. discriminate.
  - intros E. unfold off. rewrite E. reflexivity.
  - intros event' N. unfold off. destruct (this event); [|reflexivity].
    apply map_set_other, N.
  - intros N event'. apply off_emit, N.
  - intros N event'. rewrite !(emit_argument _ _ arg), !emit_given. f_equal.
    unfold off. rewrite on_same.
    destruct (decide (event' = event)) as [->|Ne].
    + rewrite map_set_same. unfold listener in *.
      destruct (this event) as [ls|] eqn:E; simpl.
      * rewrite List.filter_app. simpl. rewrite Nat.eqb_refl. simpl.
        rewrite app_nil_r.
        pose proof (filter_absent l ls (N ls eq_refl)) as F.
        unfold listener in F. rewrite F. reflexivity.
      * rewrite Nat.eqb_refl. reflexivity.
    + rewrite map_set_other, on_other by exact Ne. reflexivity.
Qed.

End Emitter.

End EventEmitterFacts.
